(** * A set-associative cache simulator: model and verification

    The development embeds the Python sources
      - [cache_config.py]         (class [CacheConfig]),
      - [replacement_policies.py] (classes [ReplacementPolicy], [LRUPolicy],
                                   [FIFOPolicy], [RandomPolicy]),
      - [cache.py]                (class [Cache]),
      - [trace_generator.py]      (class [TraceGenerator], without its file
                                   input and output)
    and proves properties of the embedded code.

    Python integers are [Z]; [//] and [%] are [Z.div] and [Z.modulo] (both
    floor towards minus infinity, the remainder takes the sign of the
    divisor) with the division by zero made explicit.  Python lists of tags
    are [list Z].  Python dictionaries are objects in a store, because the
    code hands dictionaries to its callers and the callers write into them.
    Methods are computations in a state monad over that store, the console
    and the random generator, with exceptions; instances of the classes are
    records, passed to a method and returned by it when the method updates
    them.

    The file has the definitions first (the runtime, the four sources, the
    loops that drive a cache, the vocabulary of the statements), then the
    lemmas, then the properties C1 to C10 and the further properties X1 to
    X27, then their instances at concrete inputs. *)

From Stdlib Require Import ZArith QArith String Ascii Lia.
From stdpp Require Import base gmap strings list.

Local Open Scope string_scope.
Local Open Scope list_scope.
Local Open Scope Z_scope.

(** ** The Python runtime *)

(** Exceptions the embedded code can raise.  [DanglingRef] has no Python
    counterpart: it is what the model answers when asked to dereference an
    address at which the store holds no dictionary. *)
Inductive exn :=
| ZeroDivisionError
| IndexError
| ValueError
| KeyError
| TypeError
| DanglingRef.

Inductive result (A : Type) :=
| Ok (a : A)
| Raise (e : exn).
Arguments Ok {A} a.
Arguments Raise {A} e.

(** The two pieces of the runtime that are tables or hardware rather than
    code of the simulator: Unicode upper-casing ([str.upper]) and the rounding
    of a real number to the nearest double.  A float is modelled by the
    rational number it denotes. *)
Class PyRuntime := {
  str_upper : string -> string;
  fround : Q -> Q
}.

(** Python values that are stored in the dictionaries of the simulator. *)
Inductive PyVal :=
| PyInt (z : Z)
| PyFloat (q : Q)
| PyStr (s : string).

Abbreviation Dict := (gmap string PyVal).
Abbreviation loc := nat (only parsing).

(** Lines written by [print].  Each constructor stands for one f-string of
    the sources and carries the values that are interpolated into it. *)
Inductive Line :=
| ConfigLine (cache_size_kb block_size_bytes associativity : Z)
    (* cache_config.py:27 "Config: {}KB, {}B blocks, {}-way" *)
| ConfigDerivedLine (num_blocks num_sets : Z)
    (* cache_config.py:28 "   -> {} total blocks, {} sets" *)
| BreakdownLine (address block_number set_index tag : Z)
    (* cache_config.py:39 "Address {}: block={}, set={}, tag={}" *)
| CacheReadyLine (policy_name : string) (num_sets : Z)
    (* cache.py:43 "Cache ready: {} policy, {} sets" *)
| UnknownPolicyLine
    (* cache.py:56 "Unknown policy, using LRU" *)
| AccessDebugLine (address set_index tag : Z)
    (* cache.py:71 "Access: 0x{:08X} -> set {}, tag {}" *)
| DebugOnLine
    (* cache.py:140 "Debug mode ON" *)
| DebugOffLine.
    (* cache.py:145 "Debug mode OFF" *)

(** The part of the interpreter state the simulator touches: the dictionary
    objects (an address is a position in [dicts]), the console, and the
    generator behind [random.randint], given by the stream of numbers its
    seed determines and the count of numbers already drawn. *)
Record World := mkWorld {
  dicts : list Dict;
  stdout : list Line;
  entropy : nat -> Z;
  drawn : nat
}.

Definition set_dicts (f : list Dict -> list Dict) (w : World) : World :=
  mkWorld (f (dicts w)) (stdout w) (entropy w) (drawn w).
Definition set_stdout (f : list Line -> list Line) (w : World) : World :=
  mkWorld (dicts w) (f (stdout w)) (entropy w) (drawn w).
Definition set_drawn (f : nat -> nat) (w : World) : World :=
  mkWorld (dicts w) (stdout w) (entropy w) (f (drawn w)).

(** Computations: a state monad over [World] with exceptions.  What was
    written to the world before an exception stays written. *)
Definition M (A : Type) : Type := World -> World * result A.

#[export] Instance M_ret : MRet M := fun A a w => (w, Ok a).
#[export] Instance M_bind : MBind M := fun A B f m w =>
  match m w with
  | (w', Ok a) => f a w'
  | (w', Raise e) => (w', Raise e)
  end.

Definition raise {A} (e : exn) : M A := fun w => (w, Raise e).
Definition lift {A} (r : result A) : M A := fun w => (w, r).

(** [print(line)] *)
Definition print (l : Line) : M unit :=
  fun w => (set_stdout (fun out => out ++ [l]) w, Ok tt).

(** [random.randint(a, b)]: a number of [a..b], [ValueError] on an empty
    range. *)
Definition randint (a b : Z) : M Z :=
  fun w =>
    if b <? a then (w, Raise ValueError)
    else (set_drawn S w, Ok (a + entropy w (drawn w) mod (b - a + 1))).

(** *** Dictionaries *)

(** [{k1: v1, ...}]: a new dictionary object. *)
Definition new_dict (d : Dict) : M loc :=
  fun w => (set_dicts (fun ds => ds ++ [d]) w, Ok (length (dicts w))).

(** [d[k]] *)
Definition dict_getitem (l : loc) (k : string) : M PyVal :=
  fun w =>
    match dicts w !! l with
    | None => (w, Raise DanglingRef)
    | Some d =>
        match d !! k with
        | Some v => (w, Ok v)
        | None => (w, Raise KeyError)
        end
    end.

(** [d[k] = v] *)
Definition dict_setitem (l : loc) (k : string) (v : PyVal) : M unit :=
  fun w =>
    match dicts w !! l with
    | None => (w, Raise DanglingRef)
    | Some d => (set_dicts (fun ds => <[l := <[k := v]> d]> ds) w, Ok tt)
    end.

Section Arithmetic.
Context {R : PyRuntime}.

(** [v + 1] *)
Definition py_add1 (v : PyVal) : result PyVal :=
  match v with
  | PyInt z => Ok (PyInt (z + 1))
  | PyFloat q => Ok (PyFloat (fround (q + 1)))
  | PyStr _ => Raise TypeError
  end.

(** [v > 0] *)
Definition py_gt0 (v : PyVal) : result bool :=
  match v with
  | PyInt z => Ok (0 <? z)
  | PyFloat q => Ok (negb (Qle_bool q 0))
  | PyStr _ => Raise TypeError
  end.

(** [v == 0] *)
Definition py_eq0 (v : PyVal) : bool :=
  match v with
  | PyInt z => z =? 0
  | PyFloat q => Qeq_bool q 0
  | PyStr _ => false
  end.

Definition to_Q (v : PyVal) : result Q :=
  match v with
  | PyInt z => Ok (inject_Z z)
  | PyFloat q => Ok q
  | PyStr _ => Raise TypeError
  end.

(** [a / b], true division: the correctly rounded quotient. *)
Definition py_truediv (a b : PyVal) : result Q :=
  match to_Q a, to_Q b with
  | Ok x, Ok y =>
      if Qeq_bool y 0 then Raise ZeroDivisionError else Ok (fround (x / y))
  | Raise e, _ => Raise e
  | _, Raise e => Raise e
  end.

(** [x * n] for a float [x] and an integer literal [n] *)
Definition float_mul_int (x : Q) (n : Z) : Q := fround (x * inject_Z n).

(** [d[k] += 1] *)
Definition dict_iadd1 (l : loc) (k : string) : M unit :=
  v ← dict_getitem l k;
  v' ← lift (py_add1 v);
  dict_setitem l k v'.
End Arithmetic.

(** *** Lists *)

(** The position a Python index denotes in a list: negative indices count
    from the end. *)
Definition list_index {A} (l : list A) (i : Z) : option nat :=
  let n := Z.of_nat (length l) in
  if decide (0 <= i < n) then Some (Z.to_nat i)
  else if decide (- n <= i < 0) then Some (Z.to_nat (n + i))
  else None.

(** [l[i]] *)
Definition list_getitem {A} (l : list A) (i : Z) : result A :=
  match list_index l i with
  | Some k => match l !! k with Some x => Ok x | None => Raise IndexError end
  | None => Raise IndexError
  end.

(** [l[i] = x] *)
Definition list_setitem {A} (l : list A) (i : Z) (x : A) : result (list A) :=
  match list_index l i with
  | Some k => Ok (<[k := x]> l)
  | None => Raise IndexError
  end.

(** [l.remove(x)]: drops the first occurrence, [ValueError] when there is
    none. *)
Fixpoint list_remove (x : Z) (l : list Z) : result (list Z) :=
  match l with
  | [] => Raise ValueError
  | y :: l' =>
      if decide (y = x) then Ok l'
      else match list_remove x l' with
           | Ok r => Ok (y :: r)
           | Raise e => Raise e
           end
  end.

(** [l.pop(0)]: the first element and the rest. *)
Definition list_pop0 {A} (l : list A) : result (A * list A) :=
  match l with
  | [] => Raise IndexError
  | x :: l' => Ok (x, l')
  end.

(** [len(l)] *)
Definition len {A} (l : list A) : Z := Z.of_nat (length l).

(** [x in l] *)
Definition contains (x : Z) (l : list Z) : bool := bool_decide (x ∈ l).

(** [a // b] *)
Definition floordiv (a b : Z) : result Z :=
  if b =? 0 then Raise ZeroDivisionError else Ok (a / b).

(** [a % b] *)
Definition pymod (a b : Z) : result Z :=
  if b =? 0 then Raise ZeroDivisionError else Ok (a mod b).

(** ** cache_config.py *)

Module CacheConfig.

Record t := mk {
  cache_size_kb : Z;
  block_size_bytes : Z;
  associativity : Z;
  cache_size_bytes : Z;
  num_blocks : Z;
  num_sets : Z
}.

(** [CacheConfig(cache_size_kb, block_size_bytes, associativity)] *)
Definition __init__ (cache_size_kb block_size_bytes associativity : Z) : M t :=
  let cache_size_bytes := cache_size_kb * 1024 in
  num_blocks ← lift (floordiv cache_size_bytes block_size_bytes);
  num_sets ← (if associativity =? 0 then mret 1
              else lift (floordiv num_blocks associativity));
  print (ConfigLine cache_size_kb block_size_bytes associativity);;
  print (ConfigDerivedLine num_blocks num_sets);;
  mret (mk cache_size_kb block_size_bytes associativity
           cache_size_bytes num_blocks num_sets).

Definition get_address_breakdown (self : t) (address : Z) : M (Z * Z) :=
  block_number ← lift (floordiv address (block_size_bytes self));
  set_index ← lift (pymod block_number (num_sets self));
  tag ← lift (floordiv block_number (num_sets self));
  print (BreakdownLine address block_number set_index tag);;
  mret (set_index, tag).

End CacheConfig.

(** ** replacement_policies.py *)

(** What a policy's [access] leaves behind and returns: the list [blocks] it
    was handed, as mutated in place, and the pair [(result, replaced)]. *)
Definition Verdict : Type := list Z * (string * option Z).

Module ReplacementPolicy.

(** The class of an instance: [LRUPolicy], [FIFOPolicy] or
    [RandomPolicy]. *)
Inductive cls := LRU | FIFO | Random.

Record t := mk {
  cls_of : cls;
  name : string;
  stats : loc
}.

Section Methods.
Context {R : PyRuntime}.

Definition __init__ (c : cls) (name : string) : M t :=
  stats ← new_dict {[ "accesses" := PyInt 0; "hits" := PyInt 0 ]};
  mret (mk c name stats).

Definition access (self : t) (blocks : list Z) (tag associativity : Z)
  : M unit :=
  dict_iadd1 (stats self) "accesses".

Definition get_hit_rate (self : t) : M PyVal :=
  accesses ← dict_getitem (stats self) "accesses";
  if py_eq0 accesses then mret (PyFloat 0)
  else
    hits ← dict_getitem (stats self) "hits";
    accesses ← dict_getitem (stats self) "accesses";
    q ← lift (py_truediv hits accesses);
    mret (PyFloat (float_mul_int q 100)).

Definition __str__ (self : t) : string := name self.
End Methods.

End ReplacementPolicy.

Module LRUPolicy.
Section Methods.
Context {R : PyRuntime}.

Definition __init__ : M ReplacementPolicy.t :=
  ReplacementPolicy.__init__ ReplacementPolicy.LRU "LRU".

Definition access (self : ReplacementPolicy.t) (blocks : list Z)
    (tag associativity : Z) : M Verdict :=
  ReplacementPolicy.access self blocks tag associativity;;
  if contains tag blocks then
    blocks ← lift (list_remove tag blocks);
    let blocks := blocks ++ [tag] in
    dict_iadd1 (ReplacementPolicy.stats self) "hits";;
    mret (blocks, ("HIT", None))
  else
    if len blocks <? associativity then
      let blocks := blocks ++ [tag] in
      mret (blocks, ("MISS", None))
    else
      '(replaced, blocks) ← lift (list_pop0 blocks);
      let blocks := blocks ++ [tag] in
      mret (blocks, ("MISS", Some replaced)).
End Methods.
End LRUPolicy.

Module FIFOPolicy.
Section Methods.
Context {R : PyRuntime}.

Definition __init__ : M ReplacementPolicy.t :=
  ReplacementPolicy.__init__ ReplacementPolicy.FIFO "FIFO".

Definition access (self : ReplacementPolicy.t) (blocks : list Z)
    (tag associativity : Z) : M Verdict :=
  ReplacementPolicy.access self blocks tag associativity;;
  if contains tag blocks then
    dict_iadd1 (ReplacementPolicy.stats self) "hits";;
    mret (blocks, ("HIT", None))
  else
    if len blocks <? associativity then
      let blocks := blocks ++ [tag] in
      mret (blocks, ("MISS", None))
    else
      '(replaced, blocks) ← lift (list_pop0 blocks);
      let blocks := blocks ++ [tag] in
      mret (blocks, ("MISS", Some replaced)).
End Methods.
End FIFOPolicy.

Module RandomPolicy.
Section Methods.
Context {R : PyRuntime}.

Definition __init__ : M ReplacementPolicy.t :=
  ReplacementPolicy.__init__ ReplacementPolicy.Random "Random".

Definition access (self : ReplacementPolicy.t) (blocks : list Z)
    (tag associativity : Z) : M Verdict :=
  ReplacementPolicy.access self blocks tag associativity;;
  if contains tag blocks then
    dict_iadd1 (ReplacementPolicy.stats self) "hits";;
    mret (blocks, ("HIT", None))
  else
    if len blocks <? associativity then
      let blocks := blocks ++ [tag] in
      mret (blocks, ("MISS", None))
    else
      index ← randint 0 (len blocks - 1);
      replaced ← lift (list_getitem blocks index);
      blocks ← lift (list_setitem blocks index tag);
      mret (blocks, ("MISS", Some replaced)).
End Methods.
End RandomPolicy.

(** ** cache.py *)

Module Cache.

Record t := mk {
  config : CacheConfig.t;
  stats : loc;
  sets : list (list Z);
  policy : ReplacementPolicy.t;
  debug_mode : bool;
  access_log : list loc
}.

Section Methods.
Context {R : PyRuntime}.

(** Returns the instance the method stores in [self.policy]. *)
Definition _setup_policy (policy_name : string) : M ReplacementPolicy.t :=
  let policy_name := str_upper policy_name in
  if String.eqb policy_name "LRU" then LRUPolicy.__init__
  else if String.eqb policy_name "FIFO" then FIFOPolicy.__init__
  else if String.eqb policy_name "RANDOM" then RandomPolicy.__init__
  else (print UnknownPolicyLine;; LRUPolicy.__init__).

(** [Cache(config, policy_name)] *)
Definition __init__ (config : CacheConfig.t) (policy_name : string) : M t :=
  stats ← new_dict {[ "accesses" := PyInt 0; "hits" := PyInt 0;
                      "misses" := PyInt 0; "replacements" := PyInt 0 ]};
  let sets := replicate (Z.to_nat (CacheConfig.num_sets config)) [] in
  policy ← _setup_policy policy_name;
  let debug_mode := false in
  let access_log := [] in
  print (CacheReadyLine policy_name (CacheConfig.num_sets config));;
  mret (mk config stats sets policy debug_mode access_log).

Definition _get_set_index (self : t) (address : Z) : M Z :=
  block_num ← lift (floordiv address (CacheConfig.block_size_bytes (config self)));
  lift (pymod block_num (CacheConfig.num_sets (config self))).

Definition _get_tag (self : t) (address : Z) : M Z :=
  block_num ← lift (floordiv address (CacheConfig.block_size_bytes (config self)));
  lift (floordiv block_num (CacheConfig.num_sets (config self))).

(** [self.policy.access(...)]: the method of the instance's class. *)
Definition policy_access (p : ReplacementPolicy.t)
  : list Z -> Z -> Z -> M Verdict :=
  match ReplacementPolicy.cls_of p with
  | ReplacementPolicy.LRU => LRUPolicy.access p
  | ReplacementPolicy.FIFO => FIFOPolicy.access p
  | ReplacementPolicy.Random => RandomPolicy.access p
  end.

(** The list object [self.sets[set_index]] after the policy mutated it
    in place. *)
Definition store_set (sets : list (list Z)) (set_index : Z)
    (blocks : list Z) : list (list Z) :=
  match list_index sets set_index with
  | Some k => <[k := blocks]> sets
  | None => sets
  end.

(** The statements of [access] up to its [return]: the instance
    afterwards and the locals [result] and [replaced]. *)
Definition access_locals (self : t) (address : Z)
  : M (t * (string * option Z)) :=
  dict_iadd1 (stats self) "accesses";;
  set_index ← _get_set_index self address;
  tag ← _get_tag self address;
  (if debug_mode self then print (AccessDebugLine address set_index tag)
   else mret tt);;
  blocks ← lift (list_getitem (sets self) set_index);
  '(blocks, (result, replaced)) ←
    policy_access (policy self) blocks tag
      (CacheConfig.associativity (config self));
  let sets := store_set (sets self) set_index blocks in
  (if String.eqb result "HIT" then dict_iadd1 (stats self) "hits"
   else
     dict_iadd1 (stats self) "misses";;
     match replaced with
     | Some _ => dict_iadd1 (stats self) "replacements"
     | None => mret tt
     end);;
  access_log ←
    (if len (access_log self) <? 1000 then
       entry ← new_dict {[ "address" := PyInt address;
                           "set" := PyInt set_index;
                           "result" := PyStr result ]};
       mret (access_log self ++ [entry])
     else mret (access_log self));
  mret (mk (config self) (stats self) sets (policy self)
           (debug_mode self) access_log, (result, replaced)).

(** [cache.access(address)]: the instance afterwards and the returned
    string. *)
Definition access (self : t) (address : Z) : M (t * string) :=
  '(self, (result, _)) ← access_locals self address;
  mret (self, result).

(** [cache.get_stats()]: the address of the returned dictionary. *)
Definition get_stats (self : t) : M loc :=
  total ← dict_getitem (stats self) "accesses";
  positive ← lift (py_gt0 total);
  hit_rate ←
    (if positive : bool then
       hits ← dict_getitem (stats self) "hits";
       q ← lift (py_truediv hits total);
       mret (PyFloat (float_mul_int q 100))
     else mret (PyInt 0));
  hits ← dict_getitem (stats self) "hits";
  misses ← dict_getitem (stats self) "misses";
  replacements ← dict_getitem (stats self) "replacements";
  new_dict {[ "accesses" := total;
              "hits" := hits;
              "misses" := misses;
              "hit_rate" := hit_rate;
              "replacements" := replacements;
              "policy" := PyStr (ReplacementPolicy.__str__ (policy self)) ]}.

Definition debug_on (self : t) : M t :=
  print DebugOnLine;;
  mret (mk (config self) (stats self) (sets self) (policy self) true
           (access_log self)).

Definition debug_off (self : t) : M t :=
  print DebugOffLine;;
  mret (mk (config self) (stats self) (sets self) (policy self) false
           (access_log self)).

End Methods.

End Cache.

(** ** Driving a cache *)

(** The set an address is mapped to, its tag, and the resident tags of that
    set. *)
Definition set_index_of (c : Cache.t) (address : Z) : Z :=
  (address / CacheConfig.block_size_bytes (Cache.config c))
    mod CacheConfig.num_sets (Cache.config c).

Definition tag_of (c : Cache.t) (address : Z) : Z :=
  (address / CacheConfig.block_size_bytes (Cache.config c))
    / CacheConfig.num_sets (Cache.config c).

Definition target (c : Cache.t) (address : Z) : list Z :=
  default [] (Cache.sets c !! Z.to_nat (set_index_of c address)).

(** Whether the set [address] is mapped to has spare capacity. *)
Definition had_spare (c : Cache.t) (address : Z) : bool :=
  len (target c address) <? CacheConfig.associativity (Cache.config c).

(** What is observed of one access. *)
Record Obs := mkObs {
  obs_result : string;
  obs_replaced : option Z;
  obs_spare : bool
}.

Definition obs_hit (o : Obs) : bool := String.eqb (obs_result o) "HIT".
Definition obs_miss (o : Obs) : bool := String.eqb (obs_result o) "MISS".
Definition obs_evicts (o : Obs) : bool :=
  match obs_replaced o with Some _ => true | None => false end.
Definition obs_spare_miss (o : Obs) : bool := obs_miss o && obs_spare o.

Fixpoint count (f : Obs -> bool) (obs : list Obs) : Z :=
  match obs with
  | [] => 0
  | o :: obs => (if f o then 1 else 0) + count f obs
  end.

Section Driver.
Context {R : PyRuntime}.

(** [for address in trace: cache.access(address)], keeping the results. *)
Fixpoint run (cache : Cache.t) (trace : list Z) : M (Cache.t * list string) :=
  match trace with
  | [] => mret (cache, [])
  | address :: trace =>
      '(cache, result) ← Cache.access cache address;
      '(cache, results) ← run cache trace;
      mret (cache, result :: results)
  end.

(** The same loop, recording for every access what [access] returned,
    what the policy reported as replaced, and whether the targeted set had
    room left when the access started. *)
Fixpoint observe (cache : Cache.t) (trace : list Z) : M (Cache.t * list Obs) :=
  match trace with
  | [] => mret (cache, [])
  | address :: trace =>
      '(cache', (result, replaced)) ← Cache.access_locals cache address;
      '(cache'', obs) ← observe cache' trace;
      mret (cache'', mkObs result replaced (had_spare cache address) :: obs)
  end.

(** [config = CacheConfig(kb, bs, assoc); cache = Cache(config, policy)] *)
Definition build (cache_size_kb block_size_bytes associativity : Z)
    (policy_name : string) : M Cache.t :=
  config ← CacheConfig.__init__ cache_size_kb block_size_bytes associativity;
  Cache.__init__ config policy_name.
End Driver.

(** ** trace_generator.py *)

(** *** The [random] module, beyond [randint] *)

(** The stream of numbers that [random.seed(n)] makes the generator
    produce. *)
Class PySeed := seeded : Z -> nat -> Z.

(** [random.seed(n)] *)
Definition random_seed {Seed : PySeed} (n : Z) : M unit :=
  fun w => (mkWorld (dicts w) (stdout w) (seeded n) 0, Ok tt).

(** [_randbelow(n)], for a positive [n] *)
Definition randbelow (n : Z) : M Z :=
  fun w => (set_drawn S w, Ok (entropy w (drawn w) mod n)).

(** [x[i], x[j] = x[j], x[i]] *)
Definition list_swap {A} (x : list A) (i j : Z) : result (list A) :=
  match list_getitem x j, list_getitem x i with
  | Ok xj, Ok xi =>
      match list_setitem x i xj with
      | Ok x => list_setitem x j xi
      | Raise e => Raise e
      end
  | Raise e, _ => Raise e
  | _, Raise e => Raise e
  end.

(** [random.shuffle(x)], as the standard library has it:
    [for i in reversed(range(1, len(x))): j = randbelow(i + 1);
    x[i], x[j] = x[j], x[i]].  [shuffle_from i x] is the loop from
    position [i] down. *)
Fixpoint shuffle_from {A} (i : nat) (x : list A) : M (list A) :=
  match i with
  | O => mret x
  | S i' =>
      j ← randbelow (Z.of_nat i + 1);
      x ← lift (list_swap x (Z.of_nat i) j);
      shuffle_from i' x
  end.

Definition shuffle {A} (x : list A) : M (list A) :=
  shuffle_from (length x - 1) x.

(** [x[:n]] *)
Definition slice_to {A} (x : list A) (n : Z) : list A :=
  if 0 <=? n then take (Z.to_nat n) x
  else take (length x - Z.to_nat (- n)) x.

(** [range(n)] *)
Definition range (n : Z) : list Z := seqZ 0 n.

(** *** The console of the generator *)

(** Lines written by [print] in trace_generator.py, one constructor for
    each f-string, with the values interpolated into it. *)
Inductive TraceLine :=
| SequentialLine (count step : Z)
    (* trace_generator.py:21 "Sequential: {} accesses, step {}" *)
| RandomLine (count max_address : Z)
    (* trace_generator.py:28 "Random: {} accesses up to {}" *)
| LoopingLine (loops loop_size : Z)
    (* trace_generator.py:35 "Looping: {} loops of {} accesses" *)
| MixedLine (count : Z).
    (* trace_generator.py:46 "Mixed: {} realistic accesses" *)

(** The state the generator works on: the world, and the lines it has
    printed.  [Line] being the vocabulary of cache_config.py and cache.py,
    the lines of trace_generator.py are kept beside the world. *)
Record GenWorld := mkGenWorld {
  world : World;
  trace_out : list TraceLine
}.

Definition G (A : Type) : Type := GenWorld -> GenWorld * result A.

#[export] Instance G_ret : MRet G := fun A a g => (g, Ok a).
#[export] Instance G_bind : MBind G := fun A B f m g =>
  match m g with
  | (g', Ok a) => f a g'
  | (g', Raise e) => (g', Raise e)
  end.

(** [print(line)] *)
Definition say (l : TraceLine) : G unit :=
  fun g => (mkGenWorld (world g) (trace_out g ++ [l]), Ok tt).

(** A computation on the world, run by the generator. *)
Definition in_world {A} (m : M A) : G A :=
  fun g => (mkGenWorld (fst (m (world g))) (trace_out g), snd (m (world g))).

(** [for x in xs: body], threading the variables the body assigns. *)
Fixpoint for_each {A V} (xs : list A) (body : A -> V -> G V) (v : V) : G V :=
  match xs with
  | [] => mret v
  | x :: xs => v ← body x v; for_each xs body v
  end.

Module TraceGenerator.

Record t := mk { generated_traces : Z }.

Section Methods.
Context {Seed : PySeed}.

(** [TraceGenerator(seed)] *)
Definition __init__ (seed : Z) : G t :=
  in_world (random_seed seed);;
  mret (mk 0).

Definition sequential (self : t) (start count step : Z) : G (t * list Z) :=
  say (SequentialLine count step);;
  let trace := (fun i => start + i * step) <$> range count in
  mret (mk (generated_traces self + 1), trace).

(** [[random.randint(0, max_address) for _ in range(count)]] *)
Definition randints (max_address count : Z) : G (list Z) :=
  for_each (range count)
    (fun _ trace => x ← in_world (randint 0 max_address); mret (trace ++ [x]))
    [].

Definition random (self : t) (max_address count : Z) : G (t * list Z) :=
  say (RandomLine count max_address);;
  trace ← randints max_address count;
  mret (mk (generated_traces self + 1), trace).

Definition looping (self : t) (loop_size loops stride : Z) : G (t * list Z) :=
  say (LoopingLine loops loop_size);;
  trace ←
    for_each (range loops) (fun loop trace =>
      for_each (range loop_size) (fun i trace =>
        address ← in_world (lift (pymod (i * stride) (loop_size * stride)));
        mret (trace ++ [address])) trace) [];
  mret (mk (generated_traces self + 1), trace).

Definition mixed (self : t) (count : Z) : G (t * list Z) :=
  say (MixedLine count);;
  '(self, seq) ← sequential self 0 (count / 3) 4;
  rand ← randints 5000 (count / 3);
  '(self, loop) ← looping self 50 (count / 150) 4;
  let trace := seq ++ rand ++ loop in
  trace ← in_world (shuffle trace);
  mret (mk (generated_traces self + 1), slice_to trace count).

End Methods.

End TraceGenerator.

(** ** What is assumed of the runtime *)

(** Upper-casing of the ASCII letters, other characters unchanged. *)
Definition ascii_upper (c : ascii) : ascii :=
  let n := nat_of_ascii c in
  if ((97 <=? n) && (n <=? 122))%nat then ascii_of_nat (n - 32) else c.

Fixpoint string_map (f : ascii -> ascii) (s : string) : string :=
  match s with
  | EmptyString => EmptyString
  | String c s' => String (f c) (string_map f s')
  end.

Fixpoint is_ascii (s : string) : bool :=
  match s with
  | EmptyString => true
  | String c s' => (nat_of_ascii c <? 128)%nat && is_ascii s'
  end.

(** What [str.upper] does to a string of ASCII characters. *)
Class UpperLaw (R : PyRuntime) : Prop :=
  str_upper_ascii : forall s, is_ascii s = true -> str_upper s = string_map ascii_upper s.

(** What rounding to the nearest double does: it keeps the order, and it
    keeps the doubles 0, 1 and 100. *)
Class RoundLaw (R : PyRuntime) : Prop := {
  fround_mono : forall x y, (x <= y)%Q -> (fround x <= fround y)%Q;
  fround_0 : (fround 0 == 0)%Q;
  fround_1 : (fround 1 == 1)%Q;
  fround_100 : (fround 100 == 100)%Q
}.

(** A runtime to evaluate the code with: ASCII upper-casing, and exact
    arithmetic in place of rounding. *)
Definition exact_runtime : PyRuntime :=
  {| str_upper := string_map ascii_upper; fround := fun q => q |}.

(** A world to evaluate the code in: no dictionary yet, an empty console,
    and a generator that draws 0 every time. *)
Definition world0 : World := mkWorld [] [] (fun _ => 0) 0.

(** ** Views of the store *)

(** The value a dictionary holds under a key, and that value as a counter. *)
Definition val_at (w : World) (l : loc) (k : string) : option PyVal :=
  match dicts w !! l with
  | Some d => d !! k
  | None => None
  end.

Definition int_at (w : World) (l : loc) (k : string) : option Z :=
  match val_at w l k with
  | Some (PyInt z) => Some z
  | _ => None
  end.

(** The world after [d[k] = v] on the dictionary at [l], and after a new
    dictionary was created. *)
Definition poke (l : loc) (k : string) (v : PyVal) (w : World) : World :=
  set_dicts (fun ds => match ds !! l with
                       | Some d => <[l := <[k := v]> d]> ds
                       | None => ds
                       end) w.

Definition alloc (d : Dict) (w : World) : World :=
  set_dicts (fun ds => ds ++ [d]) w.

(** * Vocabulary of the specification *)

(** ** What the policies decide *)

(** The counters a policy instance keeps in its own dictionary. *)
Definition policy_counts (w : World) (p : ReplacementPolicy.t) (a h : Z) : Prop :=
  int_at w (ReplacementPolicy.stats p) "accesses" = Some a /\
  int_at w (ReplacementPolicy.stats p) "hits" = Some h.

(** The decisions the three classes take on a set [blocks] for [tag] with
    capacity [assoc], read off the branches of their [access] methods. *)
Inductive decided (c : ReplacementPolicy.cls) (blocks : list Z) (tag assoc : Z)
  : Verdict -> Prop :=
| decided_hit_refresh pre post :
    c = ReplacementPolicy.LRU ->
    blocks = pre ++ tag :: post -> tag ∉ pre ->
    decided c blocks tag assoc ((pre ++ post) ++ [tag], ("HIT", None))
| decided_hit_keep :
    c <> ReplacementPolicy.LRU -> tag ∈ blocks ->
    decided c blocks tag assoc (blocks, ("HIT", None))
| decided_miss_spare :
    tag ∉ blocks -> len blocks < assoc ->
    decided c blocks tag assoc (blocks ++ [tag], ("MISS", None))
| decided_miss_front x rest :
    c <> ReplacementPolicy.Random ->
    tag ∉ blocks -> assoc <= len blocks -> blocks = x :: rest ->
    decided c blocks tag assoc (rest ++ [tag], ("MISS", Some x))
| decided_miss_victim i x :
    c = ReplacementPolicy.Random ->
    tag ∉ blocks -> assoc <= len blocks -> blocks !! i = Some x ->
    decided c blocks tag assoc (<[i := tag]> blocks, ("MISS", Some x)).

Definition is_hit (d : Verdict) : bool := String.eqb (fst (snd d)) "HIT".
Definition evicted (d : Verdict) : option Z := snd (snd d).

(** What a call of a policy's [access] guarantees when it returns [d] in
    world [w'], having started in [w] with counters [a] and [h]. *)
Definition policy_post (p : ReplacementPolicy.t) (a h : Z) (w : World)
    (d : Verdict) (w' : World) : Prop :=
  policy_counts w' p (a + 1) (if is_hit d then h + 1 else h) /\
  (forall l k, l <> ReplacementPolicy.stats p -> int_at w' l k = int_at w l k) /\
  length (dicts w') = length (dicts w) /\
  stdout w' = stdout w.

(** ** The decisions of LRU and FIFO as functions *)

Definition lru_outcome (blocks : list Z) (tag assoc : Z) : result Verdict :=
  if contains tag blocks then
    match list_remove tag blocks with
    | Ok blocks => Ok (blocks ++ [tag], ("HIT", None))
    | Raise e => Raise e
    end
  else if len blocks <? assoc then Ok (blocks ++ [tag], ("MISS", None))
  else
    match list_pop0 blocks with
    | Ok (replaced, blocks) => Ok (blocks ++ [tag], ("MISS", Some replaced))
    | Raise e => Raise e
    end.

Definition fifo_outcome (blocks : list Z) (tag assoc : Z) : result Verdict :=
  if contains tag blocks then Ok (blocks, ("HIT", None))
  else if len blocks <? assoc then Ok (blocks ++ [tag], ("MISS", None))
  else
    match list_pop0 blocks with
    | Ok (replaced, blocks) => Ok (blocks ++ [tag], ("MISS", Some replaced))
    | Raise e => Raise e
    end.

Section PolicyRun.
Context {R : PyRuntime}.

(** [for tag in tags: result, _ = policy.access(blocks, tag, associativity)]
    on one list [blocks], keeping the results. *)
Fixpoint policy_run (access : list Z -> Z -> Z -> M Verdict)
    (blocks : list Z) (tags : list Z) (associativity : Z)
  : M (list Z * list string) :=
  match tags with
  | [] => mret (blocks, [])
  | tag :: tags =>
      '(blocks, (result, _)) ← access blocks tag associativity;
      '(blocks, results) ← policy_run access blocks tags associativity;
      mret (blocks, result :: results)
  end.

End PolicyRun.

(** ** Accesses of a set without ways *)

(** The exception the policy of class [c] raises on an empty set of
    capacity 0: [pop(0)] from the empty list, or [randint(0, -1)]. *)
Definition no_way_exn (c : ReplacementPolicy.cls) : exn :=
  match c with
  | ReplacementPolicy.Random => ValueError
  | _ => IndexError
  end.

(** ** Well-formed caches *)

(** A cache as [Cache.__init__] builds it from a configuration with a
    non-zero block size and at least one set: one list per set, and a
    dictionary of its own for the statistics. *)
Record well_formed (c : Cache.t) : Prop := {
  wf_block_size : CacheConfig.block_size_bytes (Cache.config c) <> 0;
  wf_num_sets : 1 <= CacheConfig.num_sets (Cache.config c);
  wf_sets : len (Cache.sets c) = CacheConfig.num_sets (Cache.config c);
  wf_alias : Cache.stats c <> ReplacementPolicy.stats (Cache.policy c)
}.

(** The counters of a cache and of its policy, as stored in world [w]. *)
Definition counts (w : World) (c : Cache.t) (a h m r pa ph : Z) : Prop :=
  int_at w (Cache.stats c) "accesses" = Some a /\
  int_at w (Cache.stats c) "hits" = Some h /\
  int_at w (Cache.stats c) "misses" = Some m /\
  int_at w (Cache.stats c) "replacements" = Some r /\
  policy_counts w (Cache.policy c) pa ph.

(** The configurations the simulator is meant for: positive sizes, and
    either the fully-associative sentinel 0 or a number of ways that is at
    most the number of blocks. *)
Definition valid_config (cache_size_kb block_size_bytes associativity : Z) : Prop :=
  0 < cache_size_kb /\ 0 < block_size_bytes /\
  0 <= associativity <= cache_size_kb * 1024 / block_size_bytes.

#[export] Instance valid_config_dec kb bs assoc : Decision (valid_config kb bs assoc).
Proof. unfold valid_config. apply _. Defined.

#[export] Instance well_formed_dec c : Decision (well_formed c).
Proof.
  refine (match decide
    (CacheConfig.block_size_bytes (Cache.config c) <> 0 /\
     1 <= CacheConfig.num_sets (Cache.config c) /\
     len (Cache.sets c) = CacheConfig.num_sets (Cache.config c) /\
     Cache.stats c <> ReplacementPolicy.stats (Cache.policy c))
          with
          | left H => left _
          | right H => right _
          end).
  - destruct H as (? & ? & ? & ?). by split.
  - intros [? ? ? ?]. tauto.
Defined.

(** The class and the name of the policy instance a selector, once
    upper-cased, stands for. *)
Definition selected (u : string) : ReplacementPolicy.cls * string :=
  if String.eqb u "LRU" then (ReplacementPolicy.LRU, "LRU")
  else if String.eqb u "FIFO" then (ReplacementPolicy.FIFO, "FIFO")
  else if String.eqb u "RANDOM" then (ReplacementPolicy.Random, "Random")
  else (ReplacementPolicy.LRU, "LRU").

(** The instances the two constructors return when called in world [w]. *)
Definition fresh_config (kb bs assoc : Z) : CacheConfig.t :=
  CacheConfig.mk kb bs assoc (kb * 1024) (kb * 1024 / bs)
    (if assoc =? 0 then 1 else kb * 1024 / bs / assoc).

Definition fresh_cache {R : PyRuntime} (config : CacheConfig.t) (name : string)
    (w : World) : Cache.t :=
  Cache.mk config (length (dicts w))
    (replicate (Z.to_nat (CacheConfig.num_sets config)) [])
    (ReplacementPolicy.mk (fst (selected (str_upper name)))
       (snd (selected (str_upper name))) (S (length (dicts w))))
    false [].

(** The invariant of an associative set: no more tags than ways, and no tag
    twice. *)
Definition set_ok (assoc : Z) (blocks : list Z) : Prop :=
  len blocks <= assoc /\ NoDup blocks.

Definition sets_ok (c : Cache.t) : Prop :=
  Forall (set_ok (CacheConfig.associativity (Cache.config c))) (Cache.sets c).

#[export] Instance set_ok_dec assoc blocks : Decision (set_ok assoc blocks).
Proof. unfold set_ok. apply _. Defined.

#[export] Instance sets_ok_dec c : Decision (sets_ok c).
Proof. unfold sets_ok. apply _. Defined.

(** What every observation of an access satisfies. *)
Definition obs_law (o : Obs) : Prop :=
  (obs_result o = "HIT" /\ obs_replaced o = None) \/
  (obs_result o = "MISS" /\ (is_Some (obs_replaced o) <-> obs_spare o = false)).

(** The instance after an access that decided [d] and left the log [log]. *)
Definition stepped (c : Cache.t) (address : Z) (d : Verdict) (log : list loc)
  : Cache.t :=
  Cache.mk (Cache.config c) (Cache.stats c)
    (<[Z.to_nat (set_index_of c address) := fst d]> (Cache.sets c))
    (Cache.policy c) (Cache.debug_mode c) log.

(** ** The statistics *)

Section Statistics.
Context {R : PyRuntime}.

(** The hit rate [get_stats] computes from the counters. *)
Definition hit_rate_of (hits accesses : Z) : PyVal :=
  if 0 <? accesses
  then PyFloat (fround (fround (inject_Z hits / inject_Z accesses) * inject_Z 100))
  else PyInt 0.

(** The dictionary [get_stats] builds. *)
Definition stats_dict (c : Cache.t) (a h m r : Z) : Dict :=
  {[ "accesses" := PyInt a;
     "hits" := PyInt h;
     "misses" := PyInt m;
     "hit_rate" := hit_rate_of h a;
     "replacements" := PyInt r;
     "policy" := PyStr (ReplacementPolicy.name (Cache.policy c)) ]}.

End Statistics.

(** ** Concrete inputs *)

(** A policy instance of each class with its dictionary, on its own. *)
Definition policy_world : World :=
  mkWorld [ {[ "accesses" := PyInt 0; "hits" := PyInt 0 ]} ] [] (fun _ => 0) 0.
Definition lru_instance : ReplacementPolicy.t :=
  ReplacementPolicy.mk ReplacementPolicy.LRU "LRU" 0.
Definition fifo_instance : ReplacementPolicy.t :=
  ReplacementPolicy.mk ReplacementPolicy.FIFO "FIFO" 0.

Definition direct_mapped : CacheConfig.t := CacheConfig.mk 4 64 1 4096 64 64.

(** The cache of the repository's basic test, [CacheConfig(4, 64, 1)] with
    LRU, and the world its construction leaves. *)
Definition test_cache : Cache.t :=
  fresh_cache (R:=exact_runtime) direct_mapped "LRU" world0.
Definition test_world : World :=
  fst (Cache.__init__ (R:=exact_runtime) direct_mapped "LRU" world0).


(** * Further vocabulary *)

(** ** Footprints of computations *)

(** A computation that leaves the dictionaries outside [L] as they are and
    deletes none. *)
Definition frames {A} (L : list nat) (m : M A) : Prop :=
  forall w w' r, m w = (w', r) ->
    (length (dicts w) <= length (dicts w'))%nat /\
    forall l, l ∉ L -> (l < length (dicts w))%nat -> dicts w' !! l = dicts w !! l.

(** A computation that prints nothing. *)
Definition quiet {A} (m : M A) : Prop :=
  forall w w' r, m w = (w', r) -> stdout w' = stdout w.


(** ** Occupancy *)

(** The number of tags resident in a cache, over all its sets. *)
Definition occupancy (c : Cache.t) : Z :=
  foldr (fun blocks n => len blocks + n) 0 (Cache.sets c).

(** The dictionary [access] appends to the log. *)
Definition log_entry (address set_index : Z) (res : string) : Dict :=
  {[ "address" := PyInt address; "set" := PyInt set_index;
     "result" := PyStr res ]}.

(** The line [access] prints in debug mode. *)
Definition debug_line (c : Cache.t) (address : Z) : Line :=
  AccessDebugLine address (set_index_of c address) (tag_of c address).

(** What [access] did to the log, having started in a world with [n]
    dictionaries and returned [res] in world [w']: below 1000 entries it
    appended a new dictionary, from then on nothing. *)
Definition logged (c : Cache.t) (address : Z) (res : string) (n : nat)
    (log : list loc) (w' : World) : Prop :=
  (len (Cache.access_log c) < 1000 /\
   exists entry,
     log = Cache.access_log c ++ [entry] /\ (n <= entry)%nat /\
     dicts w' !! entry = Some (log_entry address (set_index_of c address) res)) \/
  (1000 <= len (Cache.access_log c) /\ log = Cache.access_log c).

(** ** Invariants of traces *)

(** [J w c done obs] is kept by every access that returns: [done] are the
    addresses accessed so far and [obs] what was observed of them. *)
Definition preserved {R : PyRuntime}
    (J : World -> Cache.t -> list Z -> list Obs -> Prop) : Prop :=
  forall w c address w' d log done obs,
    well_formed c -> J w c done obs ->
    Cache.access_locals c address w = (w', Ok (stepped c address d log, snd d)) ->
    decided (ReplacementPolicy.cls_of (Cache.policy c)) (target c address)
      (tag_of c address) (CacheConfig.associativity (Cache.config c)) d ->
    logged c address (fst (snd d)) (length (dicts w)) log w' ->
    stdout w' = stdout w ++
      (if Cache.debug_mode c then [debug_line c address] else []) ->
    J w' (stepped c address d log) (done ++ [address])
      (obs ++ [mkObs (fst (snd d)) (snd (snd d)) (had_spare c address)]).

(** ** What LRU and FIFO keep *)

(** The last [n] elements of a list. *)
Definition lastn {A} (n : nat) (l : list A) : list A := drop (length l - n) l.

(** The distinct tags of a sequence of uses, the least recently used
    first. *)
Definition recency (seen : list Z) (tags : list Z) : list Z :=
  foldl (fun order t => filter (fun x => x <> t) order ++ [t]) seen tags.

(** The tags of a sequence of uses that missed, in the order of the
    uses. *)
Fixpoint missed (tags : list Z) (results : list string) : list Z :=
  match tags, results with
  | t :: tags, r :: results =>
      if String.eqb r "MISS" then t :: missed tags results
      else missed tags results
  | _, _ => []
  end.

(** ** Working sets *)

(** The distinct tags that the addresses of a trace bring to set [s]. *)
Definition tags_of_set (c : Cache.t) (trace : list Z) (s : Z) : list Z :=
  remove_dups (tag_of c <$> filter (fun a => set_index_of c a = s) trace).

(** A trace fits into a cache when no set is asked to hold more distinct
    tags than it has ways. *)
Definition fits (c : Cache.t) (trace : list Z) : Prop :=
  Forall (fun a => len (tags_of_set c trace (set_index_of c a))
                   <= CacheConfig.associativity (Cache.config c)) trace.

#[export] Instance fits_dec c trace : Decision (fits c trace).
Proof. unfold fits. apply _. Defined.

(** ** The generator of traces *)

(** The world after [n] more numbers were drawn. *)
Definition advance (n : nat) (w : World) : World :=
  mkWorld (dicts w) (stdout w) (entropy w) (drawn w + n).

(** The next [n] numbers [randint(0, max_address)] draws in world [w]. *)
Definition draws (w : World) (max_address : Z) (n : nat) : list Z :=
  (fun i => entropy w (drawn w + i) mod (max_address + 1)) <$> seq 0 n.

(** One sweep of [looping]: the addresses [0, stride, 2 * stride, ...]. *)
Definition sweep (loop_size stride : Z) : list Z :=
  (fun i => i * stride) <$> range loop_size.

(** ** Further concrete inputs *)

Definition random_instance : ReplacementPolicy.t :=
  ReplacementPolicy.mk ReplacementPolicy.Random "Random" 0.

(** The world of the basic test with one more dictionary in it, which
    belongs neither to the cache nor to its policy. *)
Definition crowded_world : World :=
  alloc {[ "owner" := PyStr "somebody else" ]} test_world.

(** A generator that has printed nothing yet, in the empty world. *)
Definition gen0 : GenWorld := mkGenWorld world0 [].

Definition generator0 : TraceGenerator.t := TraceGenerator.mk 0.

(** * Lemmas *)

(** ** The runtime *)

Lemma bind_unfold {A B} (m : M A) (f : A -> M B) (w : World) :
  (m ≫= f) w =
  match m w with
  | (w', Ok a) => f a w'
  | (w', Raise e) => (w', Raise e)
  end.
Proof. reflexivity. Qed.

Lemma bind_ok {A B} (m : M A) (f : A -> M B) w w' a :
  m w = (w', Ok a) -> (m ≫= f) w = f a w'.
Proof. intros H. rewrite bind_unfold, H. reflexivity. Qed.

Lemma bind_raise {A B} (m : M A) (f : A -> M B) w w' e :
  m w = (w', Raise e) -> (m ≫= f) w = (w', Raise e).
Proof. intros H. rewrite bind_unfold, H. reflexivity. Qed.

Lemma ret_unfold {A} (a : A) (w : World) : (mret a : M A) w = (w, Ok a).
Proof. reflexivity. Qed.

Lemma lift_unfold {A} (r : result A) (w : World) : lift r w = (w, r).
Proof. reflexivity. Qed.

Lemma lift_ok {A} (r : result A) (a : A) (w : World) :
  r = Ok a -> lift r w = (w, Ok a).
Proof. by intros ->. Qed.

Lemma val_at_poke (w : World) l k v l' k' :
  (l < length (dicts w))%nat ->
  val_at (poke l k v w) l' k' =
  if decide (l' = l /\ k' = k) then Some v else val_at w l' k'.
Proof.
  intros Hl. unfold val_at, poke. simpl.
  destruct (lookup_lt_is_Some_2 _ _ Hl) as [d Hd]. rewrite Hd.
  destruct (decide (l' = l)) as [->|Hne].
  - rewrite list_lookup_insert_eq by done. rewrite Hd.
    destruct (decide (k' = k)) as [->|Hk].
    + rewrite lookup_insert_eq. by rewrite decide_True.
    + rewrite lookup_insert_ne by done. rewrite decide_False; [done|]. tauto.
  - rewrite list_lookup_insert_ne by done.
    rewrite decide_False; [done|]. tauto.
Qed.

Lemma int_at_poke_eq (w : World) l k z :
  (l < length (dicts w))%nat -> int_at (poke l k (PyInt z) w) l k = Some z.
Proof.
  intros Hl. unfold int_at. rewrite val_at_poke by done.
  by rewrite decide_True.
Qed.

Lemma int_at_poke_ne (w : World) l k v l' k' :
  (l < length (dicts w))%nat -> l' <> l \/ k' <> k ->
  int_at (poke l k v w) l' k' = int_at w l' k'.
Proof.
  intros Hl Hne. unfold int_at. rewrite val_at_poke by done.
  rewrite decide_False; [done|]. tauto.
Qed.

Lemma length_poke (w : World) l k v :
  length (dicts (poke l k v w)) = length (dicts w).
Proof.
  unfold poke. simpl. destruct (dicts w !! l); [|done].
  by rewrite length_insert.
Qed.

Lemma length_alloc (w : World) d :
  length (dicts (alloc d w)) = S (length (dicts w)).
Proof. unfold alloc. simpl. rewrite length_app. simpl. lia. Qed.

Lemma val_at_alloc_old (w : World) d l k :
  (l < length (dicts w))%nat -> val_at (alloc d w) l k = val_at w l k.
Proof.
  intros Hl. unfold val_at, alloc. simpl. by rewrite lookup_app_l.
Qed.

Lemma lookup_alloc_new (w : World) d :
  dicts (alloc d w) !! length (dicts w) = Some d.
Proof.
  unfold alloc. simpl. rewrite lookup_app_r by lia. by rewrite Nat.sub_diag.
Qed.

Lemma val_at_alloc_new (w : World) d k :
  val_at (alloc d w) (length (dicts w)) k = d !! k.
Proof.
  unfold val_at, alloc. simpl.
  rewrite lookup_app_r by lia. by rewrite Nat.sub_diag.
Qed.

Lemma int_at_alloc_old (w : World) d l k :
  (l < length (dicts w))%nat -> int_at (alloc d w) l k = int_at w l k.
Proof. intros Hl. unfold int_at. by rewrite val_at_alloc_old. Qed.

Lemma int_at_lt (w : World) l k z :
  int_at w l k = Some z -> (l < length (dicts w))%nat.
Proof.
  unfold int_at, val_at. destruct (dicts w !! l) eqn:E; [|done].
  intros _. by eapply lookup_lt_Some.
Qed.

Lemma val_at_set_stdout (w : World) f l k :
  val_at (set_stdout f w) l k = val_at w l k.
Proof. reflexivity. Qed.

Lemma int_at_set_stdout (w : World) f l k :
  int_at (set_stdout f w) l k = int_at w l k.
Proof. reflexivity. Qed.

Lemma int_at_set_drawn (w : World) f l k :
  int_at (set_drawn f w) l k = int_at w l k.
Proof. reflexivity. Qed.

Section RuntimeLemmas.
Context {R : PyRuntime}.

Lemma new_dict_eq (d : Dict) (w : World) :
  new_dict d w = (alloc d w, Ok (length (dicts w))).
Proof. reflexivity. Qed.

Lemma dict_getitem_val (w : World) l k v :
  val_at w l k = Some v -> dict_getitem l k w = (w, Ok v).
Proof.
  unfold val_at, dict_getitem. destruct (dicts w !! l); [|done].
  by intros ->.
Qed.

Lemma dict_getitem_int (w : World) l k z :
  int_at w l k = Some z -> dict_getitem l k w = (w, Ok (PyInt z)).
Proof.
  unfold int_at. destruct (val_at w l k) as [[]|] eqn:E; try done.
  intros [= ->]. by apply dict_getitem_val.
Qed.

Lemma dict_setitem_eq (w : World) l k v :
  (l < length (dicts w))%nat ->
  dict_setitem l k v w = (poke l k v w, Ok tt).
Proof.
  intros Hl. unfold dict_setitem, poke, set_dicts.
  by destruct (lookup_lt_is_Some_2 _ _ Hl) as [d ->].
Qed.

Lemma dict_iadd1_int (w : World) l k z :
  int_at w l k = Some z ->
  dict_iadd1 l k w = (poke l k (PyInt (z + 1)) w, Ok tt).
Proof.
  intros H. unfold dict_iadd1.
  rewrite (bind_ok _ _ _ _ _ (dict_getitem_int _ _ _ _ H)).
  simpl py_add1. rewrite (bind_ok _ _ w w (PyInt (z + 1))) by done.
  apply dict_setitem_eq. by eapply int_at_lt.
Qed.

End RuntimeLemmas.

(** ** The policies *)

Lemma list_remove_first (x : Z) (pre post : list Z) :
  x ∉ pre -> list_remove x (pre ++ x :: post) = Ok (pre ++ post).
Proof.
  induction pre as [|y pre IH]; intros Hx; simpl.
  - by rewrite decide_True.
  - apply not_elem_of_cons in Hx as [Hne Hx].
    rewrite decide_False by congruence. by rewrite IH.
Qed.

Lemma list_index_in_range {A} (l : list A) (i : Z) :
  0 <= i < len l -> list_index l i = Some (Z.to_nat i).
Proof. intros Hi. unfold list_index. by rewrite decide_True. Qed.

Lemma list_getitem_in_range {A} (l : list A) (i : Z) :
  0 <= i < len l ->
  exists x, l !! Z.to_nat i = Some x /\ list_getitem l i = Ok x.
Proof.
  intros Hi. unfold list_getitem. rewrite list_index_in_range by done.
  destruct (lookup_lt_is_Some_2 l (Z.to_nat i)) as [x Hx].
  { unfold len in Hi. lia. }
  exists x. by rewrite Hx.
Qed.

Lemma list_setitem_in_range {A} (l : list A) (i : Z) (x : A) :
  0 <= i < len l -> list_setitem l i x = Ok (<[Z.to_nat i := x]> l).
Proof. intros Hi. unfold list_setitem. by rewrite list_index_in_range. Qed.

Lemma randint_in_range (a b : Z) (w : World) :
  a <= b ->
  exists i, a <= i <= b /\ randint a b w = (set_drawn S w, Ok i).
Proof.
  intros Hab. unfold randint.
  destruct (Z.ltb_spec b a) as [?|_]; [lia|].
  eexists. split; [|reflexivity].
  pose proof (Z.mod_pos_bound (entropy w (drawn w)) (b - a + 1)). lia.
Qed.

Ltac mstep H := rewrite (bind_ok _ _ _ _ _ H).

Section PolicyLemmas.
Context {R : PyRuntime}.

Lemma base_access_ok p blocks tag assoc w a h :
  policy_counts w p a h ->
  ReplacementPolicy.access p blocks tag assoc w =
    (poke (ReplacementPolicy.stats p) "accesses" (PyInt (a + 1)) w, Ok tt).
Proof. intros [Ha _]. by apply dict_iadd1_int. Qed.

(** The world after the base class counted the access. *)
Lemma counted_post p w a h d :
  policy_counts w p a h -> is_hit d = false ->
  policy_post p a h w d
    (poke (ReplacementPolicy.stats p) "accesses" (PyInt (a + 1)) w).
Proof.
  intros [Ha Hh] Hd. pose proof (int_at_lt _ _ _ _ Ha) as Hl.
  unfold policy_post, policy_counts. rewrite Hd.
  split; [split|split; [|split]].
  - by apply int_at_poke_eq.
  - rewrite int_at_poke_ne; [done|done|]. by right.
  - intros l k Hne. apply int_at_poke_ne; [done|]. by left.
  - apply length_poke.
  - reflexivity.
Qed.

(** The world after the base class counted the access and the subclass
    counted the hit. *)
Lemma hit_counted p w a h :
  policy_counts w p a h ->
  dict_iadd1 (ReplacementPolicy.stats p) "hits"
    (poke (ReplacementPolicy.stats p) "accesses" (PyInt (a + 1)) w) =
    (poke (ReplacementPolicy.stats p) "hits" (PyInt (h + 1))
       (poke (ReplacementPolicy.stats p) "accesses" (PyInt (a + 1)) w), Ok tt).
Proof.
  intros [Ha Hh]. pose proof (int_at_lt _ _ _ _ Ha) as Hl.
  apply dict_iadd1_int. rewrite int_at_poke_ne; [done|done|]. by right.
Qed.

Lemma hit_counted_post p w a h d :
  policy_counts w p a h -> is_hit d = true ->
  policy_post p a h w d
    (poke (ReplacementPolicy.stats p) "hits" (PyInt (h + 1))
       (poke (ReplacementPolicy.stats p) "accesses" (PyInt (a + 1)) w)).
Proof.
  intros [Ha Hh] Hd. pose proof (int_at_lt _ _ _ _ Ha) as Hl.
  unfold policy_post, policy_counts. rewrite Hd.
  split; [split|split; [|split]].
  - rewrite int_at_poke_ne; [|by rewrite length_poke|by right].
    by apply int_at_poke_eq.
  - apply int_at_poke_eq. by rewrite length_poke.
  - intros l k Hne.
    rewrite int_at_poke_ne; [|by rewrite length_poke|by left].
    apply int_at_poke_ne; [done|]. by left.
  - by rewrite !length_poke.
  - reflexivity.
Qed.

Lemma LRU_access_ok p blocks tag assoc w a h :
  policy_counts w p a h -> blocks <> [] \/ 1 <= assoc ->
  exists w' d,
    LRUPolicy.access p blocks tag assoc w = (w', Ok d) /\
    decided ReplacementPolicy.LRU blocks tag assoc d /\
    policy_post p a h w d w'.
Proof.
  intros Hc Hne. unfold LRUPolicy.access.
  mstep (base_access_ok p blocks tag assoc w a h Hc).
  unfold contains. case_bool_decide as Hin.
  - destruct (list_elem_of_split_l _ _ Hin) as (pre & post & -> & Hpre).
    mstep (lift_ok _ _ (poke (ReplacementPolicy.stats p) "accesses" (PyInt (a + 1)) w)
             (list_remove_first tag pre post Hpre)).
    mstep (hit_counted p w a h Hc).
    eexists _, _. split; [reflexivity|]. split.
    + by eapply decided_hit_refresh.
    + by apply hit_counted_post.
  - destruct (Z.ltb_spec (len blocks) assoc) as [Hlen|Hlen].
    + eexists _, _. split; [reflexivity|]. split.
      * by apply decided_miss_spare.
      * by apply counted_post.
    + destruct blocks as [|x rest].
      { unfold len in Hlen. simpl in *. destruct Hne; [done|lia]. }
      eexists _, _. split; [reflexivity|]. split.
      * by eapply decided_miss_front.
      * by apply counted_post.
Qed.

Lemma FIFO_access_ok p blocks tag assoc w a h :
  policy_counts w p a h -> blocks <> [] \/ 1 <= assoc ->
  exists w' d,
    FIFOPolicy.access p blocks tag assoc w = (w', Ok d) /\
    decided ReplacementPolicy.FIFO blocks tag assoc d /\
    policy_post p a h w d w'.
Proof.
  intros Hc Hne. unfold FIFOPolicy.access.
  mstep (base_access_ok p blocks tag assoc w a h Hc).
  unfold contains. case_bool_decide as Hin.
  - mstep (hit_counted p w a h Hc).
    eexists _, _. split; [reflexivity|]. split.
    + by apply decided_hit_keep.
    + by apply hit_counted_post.
  - destruct (Z.ltb_spec (len blocks) assoc) as [Hlen|Hlen].
    + eexists _, _. split; [reflexivity|]. split.
      * by apply decided_miss_spare.
      * by apply counted_post.
    + destruct blocks as [|x rest].
      { unfold len in Hlen. simpl in *. destruct Hne; [done|lia]. }
      eexists _, _. split; [reflexivity|]. split.
      * by eapply decided_miss_front.
      * by apply counted_post.
Qed.

Lemma Random_access_ok p blocks tag assoc w a h :
  policy_counts w p a h -> blocks <> [] \/ 1 <= assoc ->
  exists w' d,
    RandomPolicy.access p blocks tag assoc w = (w', Ok d) /\
    decided ReplacementPolicy.Random blocks tag assoc d /\
    policy_post p a h w d w'.
Proof.
  intros Hc Hne. unfold RandomPolicy.access.
  mstep (base_access_ok p blocks tag assoc w a h Hc).
  unfold contains. case_bool_decide as Hin.
  - mstep (hit_counted p w a h Hc).
    eexists _, _. split; [reflexivity|]. split.
    + by apply decided_hit_keep.
    + by apply hit_counted_post.
  - destruct (Z.ltb_spec (len blocks) assoc) as [Hlen|Hlen].
    + eexists _, _. split; [reflexivity|]. split.
      * by apply decided_miss_spare.
      * by apply counted_post.
    + assert (1 <= len blocks) as Hpos.
      { destruct Hne as [Hne|]; [|lia].
        destruct blocks; [done|]. unfold len. simpl. lia. }
      destruct (randint_in_range 0 (len blocks - 1)
                  (poke (ReplacementPolicy.stats p) "accesses" (PyInt (a + 1)) w))
        as (i & Hi & Hrand); [lia|].
      mstep Hrand.
      destruct (list_getitem_in_range blocks i) as (x & Hx & Hget); [lia|].
      mstep (lift_ok _ _ (set_drawn S (poke (ReplacementPolicy.stats p) "accesses"
                                         (PyInt (a + 1)) w)) Hget).
      rewrite list_setitem_in_range by lia.
      eexists _, _. split; [reflexivity|]. split.
      * by eapply decided_miss_victim.
      * by apply (counted_post p w a h).
Qed.

Lemma policy_access_ok p blocks tag assoc w a h :
  policy_counts w p a h -> blocks <> [] \/ 1 <= assoc ->
  exists w' d,
    Cache.policy_access p blocks tag assoc w = (w', Ok d) /\
    decided (ReplacementPolicy.cls_of p) blocks tag assoc d /\
    policy_post p a h w d w'.
Proof.
  intros Hc Hne. unfold Cache.policy_access.
  destruct (ReplacementPolicy.cls_of p).
  - by apply LRU_access_ok.
  - by apply FIFO_access_ok.
  - by apply Random_access_ok.
Qed.

End PolicyLemmas.

(** ** One access of a cache *)

Lemma decided_shape c blocks tag assoc d :
  decided c blocks tag assoc d ->
  (fst (snd d) = "HIT" /\ evicted d = None) \/
  (fst (snd d) = "MISS" /\
   (is_Some (evicted d) <-> ~ len blocks < assoc)).
Proof.
  intros [pre post ? ? ?| ? ? | ? ? | x rest ? ? ? ? | i x ? ? ? ?]; simpl.
  - by left.
  - by left.
  - right. split; [done|]. unfold evicted. simpl.
    split; [by intros [? ?]|]. lia.
  - right. split; [done|]. unfold evicted. simpl.
    split; [lia|]. by eexists.
  - right. split; [done|]. unfold evicted. simpl.
    split; [lia|]. by eexists.
Qed.

Ltac counts_tac :=
  unfold counts, policy_counts in *;
  repeat match goal with H : _ /\ _ |- _ => destruct H end;
  repeat match goal with
    | |- _ /\ _ => split
    | |- int_at (poke ?l ?k _ _) ?l ?k = _ =>
        apply int_at_poke_eq; eauto using int_at_lt
    | |- int_at (poke _ _ _ _) _ _ = _ =>
        rewrite int_at_poke_ne;
        [assumption | eauto using int_at_lt | first [by right | by left]]
    end.

Section CacheLemmas.
Context {R : PyRuntime}.

Lemma counts_bump_accesses w c a h m r pa ph :
  well_formed c -> counts w c a h m r pa ph ->
  counts (poke (Cache.stats c) "accesses" (PyInt (a + 1)) w) c
    (a + 1) h m r pa ph.
Proof. intros [_ _ _ Hal] Hc. counts_tac. Qed.

Lemma counts_bump_hits w c a h m r pa ph :
  well_formed c -> counts w c a h m r pa ph ->
  counts (poke (Cache.stats c) "hits" (PyInt (h + 1)) w) c
    a (h + 1) m r pa ph.
Proof. intros [_ _ _ Hal] Hc. counts_tac. Qed.

Lemma counts_bump_misses w c a h m r pa ph :
  well_formed c -> counts w c a h m r pa ph ->
  counts (poke (Cache.stats c) "misses" (PyInt (m + 1)) w) c
    a h (m + 1) r pa ph.
Proof. intros [_ _ _ Hal] Hc. counts_tac. Qed.

Lemma counts_bump_replacements w c a h m r pa ph :
  well_formed c -> counts w c a h m r pa ph ->
  counts (poke (Cache.stats c) "replacements" (PyInt (r + 1)) w) c
    a h m (r + 1) pa ph.
Proof. intros [_ _ _ Hal] Hc. counts_tac. Qed.
Lemma counts_alloc w c d a h m r pa ph :
  counts w c a h m r pa ph -> counts (alloc d w) c a h m r pa ph.
Proof.
  intros Hc. unfold counts, policy_counts in *.
  repeat match goal with H : _ /\ _ |- _ => destruct H end.
  repeat split; (rewrite int_at_alloc_old; [assumption|by eapply int_at_lt]).
Qed.

Lemma counts_policy_post w w' c d a h m r pa ph :
  well_formed c -> counts w c a h m r pa ph ->
  policy_post (Cache.policy c) pa ph w d w' ->
  counts w' c a h m r (pa + 1) (if is_hit d then ph + 1 else ph).
Proof.
  intros [_ _ _ Hal] (Ha & Hh & Hm & Hr & _) (Hp & Hframe & _ & _).
  unfold counts. by rewrite !Hframe.
Qed.

Lemma get_set_index_ok c address w :
  well_formed c -> Cache._get_set_index c address w = (w, Ok (set_index_of c address)).
Proof.
  intros [Hbs Hns _ _]. unfold Cache._get_set_index, floordiv, pymod.
  destruct (Z.eqb_spec (CacheConfig.block_size_bytes (Cache.config c)) 0); [done|].
  rewrite bind_unfold, lift_unfold.
  destruct (Z.eqb_spec (CacheConfig.num_sets (Cache.config c)) 0); [lia|].
  reflexivity.
Qed.

Lemma get_tag_ok c address w :
  well_formed c -> Cache._get_tag c address w = (w, Ok (tag_of c address)).
Proof.
  intros [Hbs Hns _ _]. unfold Cache._get_tag, floordiv.
  destruct (Z.eqb_spec (CacheConfig.block_size_bytes (Cache.config c)) 0); [done|].
  rewrite bind_unfold, lift_unfold.
  destruct (Z.eqb_spec (CacheConfig.num_sets (Cache.config c)) 0); [lia|].
  reflexivity.
Qed.

Lemma set_index_in_range c address :
  well_formed c -> 0 <= set_index_of c address < len (Cache.sets c).
Proof.
  intros [_ Hns Hlen _]. rewrite Hlen. unfold set_index_of.
  apply Z.mod_pos_bound. lia.
Qed.

Lemma target_getitem c address :
  well_formed c ->
  list_getitem (Cache.sets c) (set_index_of c address) = Ok (target c address).
Proof.
  intros Hwf.
  destruct (list_getitem_in_range (Cache.sets c) (set_index_of c address))
    as (x & Hx & ->); [by apply set_index_in_range|].
  unfold target. by rewrite Hx.
Qed.

(** The bookkeeping of [Cache.access] after the policy returned. *)
Lemma tally_ok c w (res : string) (repl : option Z) a h m r pa ph :
  well_formed c -> counts w c a h m r pa ph ->
  exists w',
    (if String.eqb res "HIT" then dict_iadd1 (Cache.stats c) "hits"
     else
       dict_iadd1 (Cache.stats c) "misses";;
       match repl with
       | Some _ => dict_iadd1 (Cache.stats c) "replacements"
       | None => mret tt
       end) w = (w', Ok tt) /\
    counts w' c a
      (if String.eqb res "HIT" then h + 1 else h)
      (if String.eqb res "HIT" then m else m + 1)
      (if String.eqb res "HIT" then r
       else match repl with Some _ => r + 1 | None => r end) pa ph.
Proof.
  intros Hwf Hc. destruct (String.eqb res "HIT").
  - eexists. split.
    + apply dict_iadd1_int. apply Hc.
    + by apply counts_bump_hits.
  - pose proof (counts_bump_misses _ _ _ _ _ _ _ _ Hwf Hc) as Hc'.
    rewrite (bind_ok _ _ _ _ _ (dict_iadd1_int _ _ _ _ (proj1 (proj2 (proj2 Hc))))).
    destruct repl.
    + eexists. split.
      * apply dict_iadd1_int. apply Hc'.
      * by apply counts_bump_replacements.
    + eexists. split; [reflexivity|done].
Qed.

(** The bounded log of [Cache.access]. *)
Lemma log_ok c w address set_index (res : string) a h m r pa ph :
  counts w c a h m r pa ph ->
  exists w' log,
    (if len (Cache.access_log c) <? 1000 then
       entry ← new_dict {[ "address" := PyInt address;
                           "set" := PyInt set_index;
                           "result" := PyStr res ]};
       mret (Cache.access_log c ++ [entry])
     else mret (Cache.access_log c)) w = (w', Ok log) /\
    counts w' c a h m r pa ph.
Proof.
  intros Hc. destruct (len (Cache.access_log c) <? 1000).
  - eexists _, _. split; [reflexivity|]. by apply counts_alloc.
  - eexists _, _. split; [reflexivity|done].
Qed.

(** One access of a well-formed cache whose targeted set has room for a
    victim: it returns, the policy's decision is one of [decided], and the
    counters move as the decision says. *)
Lemma access_ok c w address a h m r pa ph :
  well_formed c ->
  1 <= CacheConfig.associativity (Cache.config c) \/ target c address <> [] ->
  counts w c a h m r pa ph ->
  exists w' d log,
    Cache.access_locals c address w = (w', Ok (stepped c address d log, snd d)) /\
    decided (ReplacementPolicy.cls_of (Cache.policy c)) (target c address)
      (tag_of c address) (CacheConfig.associativity (Cache.config c)) d /\
    counts w' c (a + 1)
      (if is_hit d then h + 1 else h)
      (if is_hit d then m else m + 1)
      (if is_hit d then r
       else match evicted d with Some _ => r + 1 | None => r end)
      (pa + 1) (if is_hit d then ph + 1 else ph).
Proof.
  intros Hwf Hcap Hc. unfold Cache.access_locals.
  mstep (dict_iadd1_int _ _ _ _ (proj1 Hc)).
  apply (counts_bump_accesses _ _ _ _ _ _ _ _ Hwf) in Hc.
  mstep (get_set_index_ok c address
           (poke (Cache.stats c) "accesses" (PyInt (a + 1)) w) Hwf).
  mstep (get_tag_ok c address
           (poke (Cache.stats c) "accesses" (PyInt (a + 1)) w) Hwf).
  set (w1 := poke (Cache.stats c) "accesses" (PyInt (a + 1)) w) in *.
  assert (exists w2,
    (if Cache.debug_mode c
     then print (AccessDebugLine address (set_index_of c address) (tag_of c address))
     else mret tt) w1 = (w2, Ok tt) /\ counts w2 c (a + 1) h m r pa ph)
    as (w2 & Hdbg & Hc2).
  { destruct (Cache.debug_mode c); eexists; (split; [reflexivity|exact Hc]). }
  mstep Hdbg.
  mstep (lift_ok _ _ w2 (target_getitem c address Hwf)).
  destruct (policy_access_ok (Cache.policy c) (target c address)
              (tag_of c address) (CacheConfig.associativity (Cache.config c))
              w2 pa ph) as (w3 & d & Hpol & Hdec & Hpost).
  { apply Hc2. }
  { tauto. }
  mstep Hpol.
  pose proof (counts_policy_post _ _ _ _ _ _ _ _ _ _ Hwf Hc2 Hpost) as Hc3.
  destruct d as [blocks [res repl]].
  destruct (tally_ok c w3 res repl _ _ _ _ _ _ Hwf Hc3) as (w4 & Htally & Hc4).
  mstep Htally.
  destruct (log_ok c w4 address (set_index_of c address) res _ _ _ _ _ _ Hc4)
    as (w5 & log & Hlog & Hc5).
  mstep Hlog.
  exists w5, (blocks, (res, repl)), log. split; [|split; [done|]].
  - rewrite ret_unfold. unfold stepped, Cache.store_set. simpl.
    rewrite list_index_in_range by (by apply set_index_in_range).
    reflexivity.
  - unfold is_hit, evicted in *. simpl in *.
    destruct (String.eqb res "HIT"); exact Hc5.
Qed.
Lemma setup_policy_ok name w :
  exists w0,
    dicts w0 = dicts w /\
    Cache._setup_policy name w =
      (alloc {[ "accesses" := PyInt 0; "hits" := PyInt 0 ]} w0,
       Ok (ReplacementPolicy.mk (fst (selected (str_upper name)))
             (snd (selected (str_upper name))) (length (dicts w)))).
Proof.
  unfold Cache._setup_policy, selected.
  destruct (String.eqb (str_upper name) "LRU"); [by exists w|].
  destruct (String.eqb (str_upper name) "FIFO"); [by exists w|].
  destruct (String.eqb (str_upper name) "RANDOM"); [by exists w|].
  by exists (set_stdout (fun out => out ++ [UnknownPolicyLine]) w).
Qed.

(** What [Cache.__init__] returns, for every configuration and selector. *)
Lemma init_ok config name w :
  exists w',
    Cache.__init__ config name w = (w', Ok (fresh_cache config name w)) /\
    counts w' (fresh_cache config name w) 0 0 0 0 0 0.
Proof.
  unfold Cache.__init__. rewrite bind_unfold, new_dict_eq.
  destruct (setup_policy_ok name
    (alloc {[ "accesses" := PyInt 0; "hits" := PyInt 0;
              "misses" := PyInt 0; "replacements" := PyInt 0 ]} w))
    as (w0 & Hw0 & Hsetup).
  mstep Hsetup. eexists. split.
  { unfold fresh_cache. rewrite length_alloc. reflexivity. }
  assert (length (dicts w0) = S (length (dicts w))) as Hlen.
  { by rewrite Hw0, length_alloc. }
  assert (forall k, val_at w0 (length (dicts w)) k =
    ({[ "accesses" := PyInt 0; "hits" := PyInt 0;
        "misses" := PyInt 0; "replacements" := PyInt 0 ]} : Dict) !! k) as Hold.
  { intros k. unfold val_at. rewrite Hw0. apply val_at_alloc_new. }
  assert (forall k, val_at (alloc {[ "accesses" := PyInt 0; "hits" := PyInt 0 ]} w0)
                      (S (length (dicts w))) k =
    ({[ "accesses" := PyInt 0; "hits" := PyInt 0 ]} : Dict) !! k) as Hnew.
  { intros k. rewrite <- Hlen. apply val_at_alloc_new. }
  unfold counts, policy_counts, fresh_cache, int_at.
  cbn [Cache.stats Cache.policy ReplacementPolicy.stats].
  rewrite !val_at_set_stdout, !Hnew.
  rewrite !val_at_alloc_old by lia. rewrite !Hold.
  repeat split.
Qed.

Lemma fresh_cache_wf config name w :
  CacheConfig.block_size_bytes config <> 0 ->
  1 <= CacheConfig.num_sets config ->
  well_formed (fresh_cache config name w).
Proof.
  intros Hbs Hns. split; simpl; [done|done| |lia].
  unfold len. rewrite length_replicate. lia.
Qed.

Lemma config_init_eq kb bs assoc w :
  bs <> 0 ->
  CacheConfig.__init__ kb bs assoc w =
    (set_stdout (fun out => (out ++ [ConfigLine kb bs assoc])
                              ++ [ConfigDerivedLine (kb * 1024 / bs)
                                    (if assoc =? 0 then 1 else kb * 1024 / bs / assoc)]) w,
     Ok (fresh_config kb bs assoc)).
Proof.
  intros Hbs. unfold CacheConfig.__init__, fresh_config, floordiv.
  destruct (Z.eqb_spec bs 0); [done|].
  rewrite bind_unfold, lift_unfold.
  destruct (Z.eqb_spec assoc 0); reflexivity.
Qed.

Lemma config_init_zero kb assoc w :
  CacheConfig.__init__ kb 0 assoc w = (w, Raise ZeroDivisionError).
Proof. reflexivity. Qed.

Lemma build_ok kb bs assoc name w :
  bs <> 0 ->
  exists w0 w',
    build kb bs assoc name w =
      (w', Ok (fresh_cache (fresh_config kb bs assoc) name w0)) /\
    counts w' (fresh_cache (fresh_config kb bs assoc) name w0) 0 0 0 0 0 0.
Proof.
  intros Hbs. unfold build. mstep (config_init_eq kb bs assoc w Hbs).
  eexists. apply init_ok.
Qed.

End CacheLemmas.

(** ** The set invariant *)

Lemma NoDup_list_insert (l : list Z) (i : nat) (x : Z) :
  NoDup l -> x ∉ l -> NoDup (<[i := x]> l).
Proof.
  revert i. induction l as [|y l IH]; intros i Hnd Hx; [done|].
  apply NoDup_cons in Hnd as [Hy Hnd].
  apply not_elem_of_cons in Hx as [Hxy Hx].
  destruct i as [|i]; simpl.
  - apply NoDup_cons. done.
  - apply NoDup_cons. split; [|by apply IH].
    intros Hin. apply list_elem_of_lookup in Hin as [j Hj].
    destruct (decide (j = i)) as [->|Hne].
    + rewrite list_lookup_insert_eq in Hj; [congruence|].
      apply lookup_lt_Some in Hj. by rewrite length_insert in Hj.
    + rewrite list_lookup_insert_ne in Hj by done.
      apply Hy. apply list_elem_of_lookup. by exists j.
Qed.

Lemma decided_set_ok c blocks tag assoc d :
  decided c blocks tag assoc d -> set_ok assoc blocks -> set_ok assoc (fst d).
Proof.
  unfold set_ok, len.
  intros [pre post ? -> Hpre| ? ? | Hin Hlt | x rest ? Hin Hle -> | i x ? Hin Hle Hi]
    [Hlen Hnd]; simpl.
  - assert ((pre ++ post) ++ [tag] ≡ₚ pre ++ tag :: post) as Hperm.
    { rewrite <- app_assoc. apply Permutation_app_head.
      symmetry. apply Permutation_cons_append. }
    split.
    + by rewrite (Permutation_length Hperm).
    + by rewrite Hperm.
  - done.
  - split.
    + unfold len in Hlt. rewrite length_app. simpl. lia.
    + apply NoDup_app. split; [done|]. split; [|apply NoDup_singleton].
      intros y Hy Hy'. apply list_elem_of_singleton in Hy'. by subst.
  - apply NoDup_cons in Hnd as [_ Hnd].
    apply not_elem_of_cons in Hin as [_ Hin]. split.
    + rewrite length_app. simpl in *. lia.
    + apply NoDup_app. split; [done|]. split; [|apply NoDup_singleton].
      intros y Hy Hy'. apply list_elem_of_singleton in Hy'. by subst.
  - split.
    + by rewrite length_insert.
    + by apply NoDup_list_insert.
Qed.

Lemma target_lookup c address :
  well_formed c -> Cache.sets c !! Z.to_nat (set_index_of c address) = Some (target c address).
Proof.
  intros Hwf. pose proof (set_index_in_range c address Hwf) as Hi.
  destruct (lookup_lt_is_Some_2 (Cache.sets c) (Z.to_nat (set_index_of c address)))
    as [s Hs].
  { unfold len in Hi. lia. }
  unfold target. by rewrite Hs.
Qed.

Lemma stepped_wf c address d log : well_formed c -> well_formed (stepped c address d log).
Proof.
  intros [Hbs Hns Hlen Hal]. split; simpl; [done|done| |done].
  unfold len in *. by rewrite length_insert.
Qed.

Lemma stepped_sets_ok c address d log :
  well_formed c -> sets_ok c ->
  decided (ReplacementPolicy.cls_of (Cache.policy c)) (target c address)
    (tag_of c address) (CacheConfig.associativity (Cache.config c)) d ->
  sets_ok (stepped c address d log).
Proof.
  intros Hwf Hok Hdec. unfold sets_ok, stepped. simpl.
  apply Forall_insert; [done|].
  eapply decided_set_ok; [done|].
  eapply Forall_lookup_1; [exact Hok|]. by apply target_lookup.
Qed.

Lemma decided_obs_law c address d :
  decided (ReplacementPolicy.cls_of (Cache.policy c)) (target c address)
    (tag_of c address) (CacheConfig.associativity (Cache.config c)) d ->
  obs_law (mkObs (fst (snd d)) (snd (snd d)) (had_spare c address)).
Proof.
  intros Hdec. destruct (decided_shape _ _ _ _ _ Hdec) as [[Hr He]|[Hr He]].
  - by left.
  - right. split; [done|]. simpl. unfold evicted in He. rewrite He.
    unfold had_spare.
    destruct (Z.ltb_spec (len (target c address))
                (CacheConfig.associativity (Cache.config c))); split; try done; lia.
Qed.

Lemma count_nonneg f obs : 0 <= count f obs.
Proof. induction obs as [|o obs IH]; simpl; [lia|]. destruct (f o); lia. Qed.

Lemma count_le_length f obs : count f obs <= len obs.
Proof.
  unfold len. induction obs as [|o obs IH]; simpl; [lia|]. destruct (f o); lia.
Qed.

(** Evictions are the misses that found their set full. *)
Lemma count_evictions obs :
  Forall obs_law obs ->
  count obs_evicts obs = count obs_miss obs - count obs_spare_miss obs /\
  count obs_hit obs + count obs_miss obs = len obs.
Proof.
  unfold len. induction 1 as [|o obs Ho _ [IH1 IH2]]; simpl; [done|].
  unfold obs_evicts, obs_miss, obs_hit, obs_spare_miss, obs_miss in *.
  destruct Ho as [[-> ->]|[-> Hiff]]; simpl.
  - lia.
  - destruct (obs_replaced o) as [v|], (obs_spare o); simpl.
    + assert (true = false) by (apply Hiff; by eexists). done.
    + lia.
    + lia.
    + assert (is_Some (@None Z)) as [? ?] by (by apply Hiff). done.
Qed.

(** ** Traces *)

Lemma counts_cast w c a h m r pa ph a' h' m' r' pa' ph' :
  counts w c a h m r pa ph ->
  a = a' -> h = h' -> m = m' -> r = r' -> pa = pa' -> ph = ph' ->
  counts w c a' h' m' r' pa' ph'.
Proof. by intros ? -> -> -> -> -> ->. Qed.

Section RunLemmas.
Context {R : PyRuntime}.

(** Any trace on a well-formed cache with at least one way per set: the
    loop returns, the cache stays well-formed, the counters are the
    tallies of what was observed, and a property [I] of the instance that
    every decided step preserves still holds. *)
Lemma observe_ok (I : Cache.t -> Prop) trace :
  (forall c address d log,
     well_formed c -> I c ->
     decided (ReplacementPolicy.cls_of (Cache.policy c)) (target c address)
       (tag_of c address) (CacheConfig.associativity (Cache.config c)) d ->
     I (stepped c address d log)) ->
  forall c w a h m r pa ph,
  well_formed c -> 1 <= CacheConfig.associativity (Cache.config c) ->
  I c -> counts w c a h m r pa ph ->
  exists w' c' obs,
    observe c trace w = (w', Ok (c', obs)) /\
    well_formed c' /\ I c' /\
    Cache.config c' = Cache.config c /\
    Cache.stats c' = Cache.stats c /\
    Cache.policy c' = Cache.policy c /\
    length obs = length trace /\
    Forall obs_law obs /\
    counts w' c' (a + len trace)
      (h + count obs_hit obs) (m + count obs_miss obs)
      (r + count obs_evicts obs)
      (pa + len trace) (ph + count obs_hit obs).
Proof.
  intros HI.
  induction trace as [|address trace IH]; intros c w a h m r pa ph Hwf Hassoc Hok Hc.
  - exists w, c, []. simpl. split_and!; try done.
    eapply counts_cast; [exact Hc|unfold len; simpl; lia..].
  - destruct (access_ok c w address a h m r pa ph Hwf (or_introl Hassoc) Hc)
      as (w1 & d & log & Hacc & Hdec & Hc1).
    pose proof (stepped_wf c address d log Hwf) as Hwf1.
    pose proof (HI c address d log Hwf Hok Hdec) as Hok1.
    destruct (IH (stepped c address d log) w1 _ _ _ _ _ _ Hwf1 Hassoc Hok1 Hc1)
      as (w2 & c2 & obs & Hobs & Hwf2 & Hok2 & Hcfg & Hst & Hpol & Hlen & Hlaw & Hc2).
    pose proof (decided_obs_law c address d Hdec) as Ho.
    exists w2, c2, (mkObs (fst (snd d)) (snd (snd d)) (had_spare c address) :: obs).
    split.
    { simpl. mstep Hacc. destruct d as [blocks [res repl]]. simpl.
      mstep Hobs. reflexivity. }
    split; [done|]. split; [done|]. split; [done|]. split; [done|].
    split; [done|]. split; [simpl; lia|]. split; [by constructor|].
    eapply counts_cast; [exact Hc2|unfold len; simpl length; try lia..].
    all: simpl count; unfold obs_hit, obs_miss, obs_evicts, is_hit, evicted in *;
      simpl in *; destruct Ho as [[Hr He]|[Hr He]]; simpl in *;
      rewrite ?Hr, ?He; simpl; try lia.
    destruct (snd (snd d)); lia.
Qed.

(** [run] is [observe] with the observations cut down to the results. *)
Lemma run_observe trace : forall c w,
  run c trace w =
  match observe c trace w with
  | (w', Ok (c', obs)) => (w', Ok (c', obs_result <$> obs))
  | (w', Raise e) => (w', Raise e)
  end.
Proof.
  induction trace as [|address trace IH]; intros c w; [done|].
  simpl. unfold Cache.access. rewrite !bind_unfold.
  destruct (Cache.access_locals c address w) as [w1 [[c1 [res repl]]|e]]; [|done].
  rewrite ret_unfold, !bind_unfold, IH.
  destruct (observe c1 trace w1) as [w2 [[c2 obs]|e]]; done.
Qed.

End RunLemmas.

(** ** The decisions of LRU and FIFO as functions *)

Section PolicyOutcomes.
Context {R : PyRuntime}.

Lemma LRU_access_outcome p blocks tag assoc w a h :
  policy_counts w p a h ->
  exists w' h',
    policy_counts w' p (a + 1) h' /\
    LRUPolicy.access p blocks tag assoc w = (w', lru_outcome blocks tag assoc).
Proof.
  intros Hc. unfold LRUPolicy.access, lru_outcome.
  mstep (base_access_ok p blocks tag assoc w a h Hc).
  pose proof (counted_post p w a h ([], ("MISS", None)) Hc eq_refl) as (Hc1 & _).
  pose proof (hit_counted_post p w a h ([], ("HIT", None)) Hc eq_refl) as (Hc2 & _).
  simpl in Hc1, Hc2.
  destruct (contains tag blocks).
  - rewrite bind_unfold, lift_unfold.
    destruct (list_remove tag blocks) as [b|e]; [|by eauto].
    mstep (hit_counted p w a h Hc). by eauto.
  - destruct (len blocks <? assoc); [by eauto|].
    rewrite bind_unfold, lift_unfold.
    destruct (list_pop0 blocks) as [[x rest]|e]; by eauto.
Qed.

Lemma FIFO_access_outcome p blocks tag assoc w a h :
  policy_counts w p a h ->
  exists w' h',
    policy_counts w' p (a + 1) h' /\
    FIFOPolicy.access p blocks tag assoc w = (w', fifo_outcome blocks tag assoc).
Proof.
  intros Hc. unfold FIFOPolicy.access, fifo_outcome.
  mstep (base_access_ok p blocks tag assoc w a h Hc).
  pose proof (counted_post p w a h ([], ("MISS", None)) Hc eq_refl) as (Hc1 & _).
  pose proof (hit_counted_post p w a h ([], ("HIT", None)) Hc eq_refl) as (Hc2 & _).
  simpl in Hc1, Hc2.
  destruct (contains tag blocks).
  - mstep (hit_counted p w a h Hc). by eauto.
  - destruct (len blocks <? assoc); [by eauto|].
    rewrite bind_unfold, lift_unfold.
    destruct (list_pop0 blocks) as [[x rest]|e]; by eauto.
Qed.

End PolicyOutcomes.

Lemma policy_run_nil {R : PyRuntime} access blocks assoc w :
  policy_run access blocks [] assoc w = (w, Ok (blocks, [])).
Proof. reflexivity. Qed.

Lemma policy_run_cons {R : PyRuntime} access blocks tag tags assoc w w' d :
  access blocks tag assoc w = (w', Ok d) ->
  policy_run access blocks (tag :: tags) assoc w =
  match policy_run access (fst d) tags assoc w' with
  | (w'', Ok (blocks', results)) => (w'', Ok (blocks', fst (snd d) :: results))
  | (w'', Raise e) => (w'', Raise e)
  end.
Proof.
  intros H. cbn [policy_run]. mstep H. destruct d as [b [res repl]].
  rewrite bind_unfold. cbn [fst snd].
  by destruct (policy_run access b tags assoc w') as [w'' [[b' rs]|e]].
Qed.

Lemma contains_true (x : Z) (l : list Z) : x ∈ l -> contains x l = true.
Proof. intros H. unfold contains. by rewrite bool_decide_eq_true. Qed.

Lemma contains_false (x : Z) (l : list Z) : x ∉ l -> contains x l = false.
Proof. intros H. unfold contains. by rewrite bool_decide_eq_false. Qed.

(** ** Accesses of a set without ways *)

Section NoWay.
Context {R : PyRuntime}.

Lemma policy_access_no_way p tag assoc w a h :
  policy_counts w p a h -> assoc <= 0 ->
  exists w',
    Cache.policy_access p [] tag assoc w =
      (w', Raise (no_way_exn (ReplacementPolicy.cls_of p))).
Proof.
  intros Hc Hassoc. unfold Cache.policy_access, no_way_exn.
  destruct (ReplacementPolicy.cls_of p).
  - destruct (LRU_access_outcome p [] tag assoc w a h Hc) as (w' & h' & _ & ->).
    exists w'. unfold lru_outcome. rewrite contains_false by apply not_elem_of_nil.
    by destruct (Z.ltb_spec (len (@nil Z)) assoc); [unfold len in *; simpl in *; lia|].
  - destruct (FIFO_access_outcome p [] tag assoc w a h Hc) as (w' & h' & _ & ->).
    exists w'. unfold fifo_outcome. rewrite contains_false by apply not_elem_of_nil.
    by destruct (Z.ltb_spec (len (@nil Z)) assoc); [unfold len in *; simpl in *; lia|].
  - unfold RandomPolicy.access.
    mstep (base_access_ok p [] tag assoc w a h Hc).
    rewrite contains_false by apply not_elem_of_nil.
    destruct (Z.ltb_spec (len (@nil Z)) assoc); [unfold len in *; simpl in *; lia|].
    eexists. reflexivity.
Qed.

Lemma access_locals_no_way c w address a h m r pa ph :
  well_formed c -> CacheConfig.associativity (Cache.config c) <= 0 ->
  target c address = [] -> counts w c a h m r pa ph ->
  exists w',
    Cache.access_locals c address w =
      (w', Raise (no_way_exn (ReplacementPolicy.cls_of (Cache.policy c)))).
Proof.
  intros Hwf Hassoc Hempty Hc. unfold Cache.access_locals.
  mstep (dict_iadd1_int _ _ _ _ (proj1 Hc)).
  apply (counts_bump_accesses _ _ _ _ _ _ _ _ Hwf) in Hc.
  mstep (get_set_index_ok c address
           (poke (Cache.stats c) "accesses" (PyInt (a + 1)) w) Hwf).
  mstep (get_tag_ok c address
           (poke (Cache.stats c) "accesses" (PyInt (a + 1)) w) Hwf).
  set (w1 := poke (Cache.stats c) "accesses" (PyInt (a + 1)) w) in *.
  assert (exists w2,
    (if Cache.debug_mode c
     then print (AccessDebugLine address (set_index_of c address) (tag_of c address))
     else mret tt) w1 = (w2, Ok tt) /\ counts w2 c (a + 1) h m r pa ph)
    as (w2 & Hdbg & Hc2).
  { destruct (Cache.debug_mode c); eexists; (split; [reflexivity|exact Hc]). }
  mstep Hdbg.
  mstep (lift_ok _ _ w2 (target_getitem c address Hwf)).
  rewrite Hempty.
  destruct (policy_access_no_way (Cache.policy c) (tag_of c address)
              (CacheConfig.associativity (Cache.config c)) w2 pa ph)
    as (w3 & Hraise); [apply Hc2|done|].
  exists w3. by rewrite (bind_raise _ _ _ _ _ Hraise).
Qed.

Lemma access_no_way c w address a h m r pa ph :
  well_formed c -> CacheConfig.associativity (Cache.config c) <= 0 ->
  target c address = [] -> counts w c a h m r pa ph ->
  snd (Cache.access c address w) =
    Raise (no_way_exn (ReplacementPolicy.cls_of (Cache.policy c))).
Proof.
  intros Hwf Hassoc Hempty Hc.
  destruct (access_locals_no_way c w address a h m r pa ph Hwf Hassoc Hempty Hc)
    as (w' & Hraise).
  unfold Cache.access. by rewrite (bind_raise _ _ _ _ _ Hraise).
Qed.

(** One access of a well-formed cache with at least one way per set
    returns "HIT" or "MISS". *)
Lemma access_returns c w address a h m r pa ph :
  well_formed c -> 1 <= CacheConfig.associativity (Cache.config c) ->
  counts w c a h m r pa ph ->
  exists w' c' result,
    Cache.access c address w = (w', Ok (c', result)) /\
    (result = "HIT" \/ result = "MISS").
Proof.
  intros Hwf Hassoc Hc.
  destruct (access_ok c w address a h m r pa ph Hwf (or_introl Hassoc) Hc)
    as (w' & d & log & Hacc & Hdec & _).
  exists w', (stepped c address d log), (fst (snd d)). split.
  - unfold Cache.access. mstep Hacc. by destruct d as [b [res repl]].
  - destruct (decided_shape _ _ _ _ _ Hdec) as [[-> _]|[-> _]]; auto.
Qed.

(** Whatever the number of ways: when the loop over a trace returns on a
    well-formed cache, the cache is still well-formed, the counters are the
    tallies of what was observed, and a property [I] of the instance that
    every decided step preserves still holds. *)
Lemma observe_sound (I : Cache.t -> Prop) trace :
  (forall c address d log,
     well_formed c -> I c ->
     decided (ReplacementPolicy.cls_of (Cache.policy c)) (target c address)
       (tag_of c address) (CacheConfig.associativity (Cache.config c)) d ->
     I (stepped c address d log)) ->
  forall c w a h m r pa ph w' c' obs,
  well_formed c -> I c -> counts w c a h m r pa ph ->
  observe c trace w = (w', Ok (c', obs)) ->
  well_formed c' /\ I c' /\
  Cache.config c' = Cache.config c /\
  Cache.stats c' = Cache.stats c /\
  Cache.policy c' = Cache.policy c /\
  length obs = length trace /\
  Forall obs_law obs /\
  counts w' c' (a + len trace)
    (h + count obs_hit obs) (m + count obs_miss obs)
    (r + count obs_evicts obs)
    (pa + len trace) (ph + count obs_hit obs).
Proof.
  intros HI.
  induction trace as [|address trace IH];
    intros c w a h m r pa ph w' c' obs Hwf Hok Hc Hrun.
  - injection Hrun as <- <- <-. split_and!; try done.
    eapply counts_cast; [exact Hc|unfold len; simpl; lia..].
  - cbn [observe] in Hrun.
    destruct (decide (1 <= CacheConfig.associativity (Cache.config c)
                      \/ target c address <> [])) as [Hcap|Hcap].
    + destruct (access_ok c w address a h m r pa ph Hwf Hcap Hc)
        as (w1 & d & log & Hacc & Hdec & Hc1).
      rewrite (bind_ok _ _ _ _ _ Hacc) in Hrun.
      destruct d as [blocks [res repl]]. cbn [snd] in Hrun.
      rewrite bind_unfold in Hrun.
      destruct (observe (stepped c address (blocks, (res, repl)) log) trace w1)
        as [w2 [[c2 obs2]|e]] eqn:Hobs; [|done].
      injection Hrun as <- <- <-.
      pose proof (stepped_wf c address (blocks, (res, repl)) log Hwf) as Hwf1.
      pose proof (HI c address _ log Hwf Hok Hdec) as Hok1.
      destruct (IH _ _ _ _ _ _ _ _ _ _ _ Hwf1 Hok1 Hc1 Hobs)
        as (Hwf2 & Hok2 & Hcfg & Hst & Hpol & Hlen & Hlaw & Hc2).
      pose proof (decided_obs_law c address _ Hdec) as Ho.
      split; [done|]. split; [done|]. split; [done|]. split; [done|].
      split; [done|]. split; [simpl; lia|]. split; [by constructor|].
      eapply counts_cast; [exact Hc2|unfold len; simpl length; try lia..].
      all: simpl count; unfold obs_hit, obs_miss, obs_evicts, is_hit, evicted in *;
        simpl in *; destruct Ho as [[Hr He]|[Hr He]]; simpl in *;
        rewrite ?Hr, ?He; simpl; try lia.
      destruct repl; lia.
    + assert (CacheConfig.associativity (Cache.config c) <= 0) as Hassoc by lia.
      assert (target c address = []) as Hempty.
      { destruct (target c address); [done|]. exfalso. apply Hcap. by right. }
      destruct (access_locals_no_way c w address a h m r pa ph Hwf Hassoc Hempty Hc)
        as (w1 & Hraise).
      by rewrite (bind_raise _ _ _ _ _ Hraise) in Hrun.
Qed.

(** When [run] returns, [observe] returns the observations behind its
    results. *)
Lemma run_returns_observe trace c w w' c' results :
  run c trace w = (w', Ok (c', results)) ->
  exists obs,
    observe c trace w = (w', Ok (c', obs)) /\ results = obs_result <$> obs.
Proof.
  rewrite run_observe.
  destruct (observe c trace w) as [w2 [[c2 obs]|e]]; [|done].
  intros [= <- <- <-]. by exists obs.
Qed.

End NoWay.

Lemma fresh_target_empty {R : PyRuntime} config name w address :
  target (fresh_cache config name w) address = [].
Proof.
  unfold target, fresh_cache. simpl.
  destruct (replicate _ _ !! _) as [s|] eqn:E; [|done].
  apply lookup_replicate in E as [-> _]. done.
Qed.

(** ** Freshly built caches *)

Lemma fresh_sets_ok {R : PyRuntime} config name w :
  0 <= CacheConfig.associativity config -> sets_ok (fresh_cache config name w).
Proof.
  intros Hassoc. unfold sets_ok, fresh_cache. simpl.
  apply Forall_replicate. split; [done|apply NoDup_nil_2].
Qed.

Lemma valid_config_wf {R : PyRuntime} kb bs assoc name w :
  valid_config kb bs assoc ->
  well_formed (fresh_cache (fresh_config kb bs assoc) name w).
Proof.
  intros (Hkb & Hbs & Hassoc). apply fresh_cache_wf; simpl; [lia|].
  destruct (Z.eqb_spec assoc 0); [lia|].
  assert (0 < kb * 1024 / bs / assoc); [|lia].
  apply Z.div_str_pos. lia.
Qed.

(** ** The statistics *)

Lemma ratio_bounds h a :
  0 <= h <= a -> 0 < a -> (0 <= inject_Z h / inject_Z a <= 1)%Q.
Proof.
  intros Hh Ha.
  assert (0 < inject_Z a)%Q as Hpos by (rewrite <- (Zlt_Qlt 0); lia).
  split.
  - apply Qle_shift_div_l; [done|]. rewrite Qmult_0_l, <- (Zle_Qle 0). lia.
  - apply Qle_shift_div_r; [done|]. rewrite Qmult_1_l, <- Zle_Qle. lia.
Qed.

Lemma percent_bounds x : (0 <= x <= 1)%Q -> (0 <= x * inject_Z 100 <= 100)%Q.
Proof.
  intros [H0 H1]. split.
  - apply Qmult_le_0_compat; [done|]. discriminate.
  - apply Qle_trans with (1 * inject_Z 100)%Q; [|discriminate].
    apply Qmult_le_compat_r; [done|]. discriminate.
Qed.

Lemma Qeq_bool_inject_pos a : 0 < a -> Qeq_bool (inject_Z a) 0 = false.
Proof.
  intros Ha. destruct (Qeq_bool (inject_Z a) 0) eqn:E; [|reflexivity].
  apply Qeq_bool_iff in E. apply (inject_Z_injective a 0) in E. lia.
Qed.

Section StatsLemmas.
Context {R : PyRuntime}.

Lemma hit_rate_bounds {L : RoundLaw R} h a :
  0 <= h <= a -> 0 < a ->
  (0 <= fround (fround (inject_Z h / inject_Z a) * inject_Z 100) <= 100)%Q.
Proof.
  intros Hh Ha. destruct (ratio_bounds h a Hh Ha) as [H0 H1].
  apply fround_mono in H0, H1. rewrite fround_0 in H0. rewrite fround_1 in H1.
  destruct (percent_bounds _ (conj H0 H1)) as [H2 H3].
  apply fround_mono in H2, H3. rewrite fround_0 in H2. rewrite fround_100 in H3.
  done.
Qed.

Lemma get_stats_ok c w a h m r pa ph :
  counts w c a h m r pa ph ->
  Cache.get_stats c w = (alloc (stats_dict c a h m r) w, Ok (length (dicts w))).
Proof.
  intros (Ha & Hh & Hm & Hr & _). unfold Cache.get_stats.
  mstep (dict_getitem_int _ _ _ _ Ha).
  cbn [py_gt0]. rewrite (bind_ok _ _ w w (0 <? a)) by done.
  assert ((if 0 <? a
           then hits ← dict_getitem (Cache.stats c) "hits";
                q ← lift (py_truediv hits (PyInt a));
                mret (PyFloat (float_mul_int q 100))
           else mret (PyInt 0)) w = (w, Ok (hit_rate_of h a))) as Hrate.
  { unfold hit_rate_of. destruct (Z.ltb_spec 0 a) as [Hpos|_]; [|done].
    mstep (dict_getitem_int _ _ _ _ Hh).
    unfold py_truediv. cbn [to_Q]. by rewrite Qeq_bool_inject_pos. }
  mstep Hrate.
  mstep (dict_getitem_int _ _ _ _ Hh).
  mstep (dict_getitem_int _ _ _ _ Hm).
  mstep (dict_getitem_int _ _ _ _ Hr).
  reflexivity.
Qed.

(** Writing through the address [get_stats] returned does not reach the
    counters of the cache. *)
Lemma counts_poke_snapshot c w d k v a h m r pa ph :
  counts w c a h m r pa ph ->
  counts (poke (length (dicts w)) k v (alloc d w)) c a h m r pa ph.
Proof.
  intros Hc.
  assert (forall l k' z, int_at w l k' = Some z ->
            int_at (poke (length (dicts w)) k v (alloc d w)) l k' = Some z) as Hkeep.
  { intros l k' z Hz. pose proof (int_at_lt _ _ _ _ Hz) as Hl.
    rewrite int_at_poke_ne; [|rewrite length_alloc; lia|left; lia].
    by rewrite int_at_alloc_old. }
  destruct Hc as (Ha & Hh & Hm & Hr & Hpa & Hph).
  unfold counts, policy_counts. split_and!; by apply Hkeep.
Qed.

End StatsLemmas.

(** * The claims *)

Section Claims.
Context {R : PyRuntime}.

(** C3. [LRUPolicy.access]: on a hit the tag leaves its position and is
    appended at the end, nothing is evicted; on a miss with spare capacity
    the tag is appended, nothing is evicted; on a miss at capacity the tag
    at position 0 is removed and reported, and the tag is appended.  On a
    2-way set that starts empty, the tags [A, B, A, C] give
    miss, miss, hit, miss and leave exactly [A] and [C] resident. *)
Theorem lru_decide p w a h blocks tag assoc :
  policy_counts w p a h ->
  (forall pre post, blocks = pre ++ tag :: post -> tag ∉ pre ->
     snd (LRUPolicy.access p blocks tag assoc w)
     = Ok ((pre ++ post) ++ [tag], ("HIT", None))) /\
  (tag ∉ blocks -> len blocks < assoc ->
     snd (LRUPolicy.access p blocks tag assoc w)
     = Ok (blocks ++ [tag], ("MISS", None))) /\
  (forall x rest, tag ∉ blocks -> assoc <= len blocks -> blocks = x :: rest ->
     snd (LRUPolicy.access p blocks tag assoc w)
     = Ok (rest ++ [tag], ("MISS", Some x))) /\
  (forall A B C, A <> B -> A <> C -> B <> C ->
     snd (policy_run (LRUPolicy.access p) [] [A; B; A; C] 2 w)
     = Ok ([A; C], ["MISS"; "MISS"; "HIT"; "MISS"])).
Proof.
  intros Hc.
  destruct (LRU_access_outcome p blocks tag assoc w a h Hc) as (w' & h' & _ & Heq).
  split_and!.
  - intros pre post -> Hpre. rewrite Heq. unfold lru_outcome.
    rewrite contains_true by set_solver. by rewrite list_remove_first.
  - intros Hin Hlen. rewrite Heq. unfold lru_outcome.
    rewrite contains_false by done.
    by destruct (Z.ltb_spec (len blocks) assoc); [|lia].
  - intros x rest Hin Hlen ->. rewrite Heq. unfold lru_outcome.
    rewrite contains_false by done.
    by destruct (Z.ltb_spec (len (x :: rest)) assoc); [lia|].
  - intros A B C HAB HAC HBC. clear Heq.
    destruct (LRU_access_outcome p [] A 2 w a h Hc) as (w1 & h1 & Hc1 & H1).
    destruct (LRU_access_outcome p [A] B 2 w1 _ _ Hc1) as (w2 & h2 & Hc2 & H2).
    destruct (LRU_access_outcome p [A; B] A 2 w2 _ _ Hc2) as (w3 & h3 & Hc3 & H3).
    destruct (LRU_access_outcome p [B; A] C 2 w3 _ _ Hc3) as (w4 & h4 & Hc4 & H4).
    unfold lru_outcome in H1, H2, H3, H4.
    rewrite contains_false in H1 by apply not_elem_of_nil.
    rewrite contains_false in H2
      by (intros Hin; apply list_elem_of_singleton in Hin; congruence).
    rewrite contains_true in H3 by apply list_elem_of_here.
    rewrite contains_false in H4
      by (rewrite !not_elem_of_cons; split_and!;
          [congruence|congruence|apply not_elem_of_nil]).
    simpl in H1, H2, H3, H4. rewrite decide_True in H3 by done.
    rewrite (policy_run_cons _ _ _ _ _ _ _ _ H1). cbn [fst snd].
    rewrite (policy_run_cons _ _ _ _ _ _ _ _ H2). cbn [fst snd].
    rewrite (policy_run_cons _ _ _ _ _ _ _ _ H3). cbn [fst snd].
    rewrite (policy_run_cons _ _ _ _ _ _ _ _ H4). cbn [fst snd].
    by rewrite policy_run_nil.
Qed.

(** C4. [FIFOPolicy.access]: a hit leaves the set as it is and evicts
    nothing; a miss with spare capacity appends the tag and evicts
    nothing; a miss at capacity removes the tag at position 0, reports it
    and appends the tag.  On a 2-way set that starts empty, the tags
    [A, B, A, C] give miss, miss, hit, miss and leave exactly [B] and [C]
    resident. *)
Theorem fifo_decide p w a h blocks tag assoc :
  policy_counts w p a h ->
  (tag ∈ blocks ->
     snd (FIFOPolicy.access p blocks tag assoc w) = Ok (blocks, ("HIT", None))) /\
  (tag ∉ blocks -> len blocks < assoc ->
     snd (FIFOPolicy.access p blocks tag assoc w)
     = Ok (blocks ++ [tag], ("MISS", None))) /\
  (forall x rest, tag ∉ blocks -> assoc <= len blocks -> blocks = x :: rest ->
     snd (FIFOPolicy.access p blocks tag assoc w)
     = Ok (rest ++ [tag], ("MISS", Some x))) /\
  (forall A B C, A <> B -> A <> C -> B <> C ->
     snd (policy_run (FIFOPolicy.access p) [] [A; B; A; C] 2 w)
     = Ok ([B; C], ["MISS"; "MISS"; "HIT"; "MISS"])).
Proof.
  intros Hc.
  destruct (FIFO_access_outcome p blocks tag assoc w a h Hc) as (w' & h' & _ & Heq).
  split_and!.
  - intros Hin. rewrite Heq. unfold fifo_outcome. by rewrite contains_true.
  - intros Hin Hlen. rewrite Heq. unfold fifo_outcome.
    rewrite contains_false by done.
    by destruct (Z.ltb_spec (len blocks) assoc); [|lia].
  - intros x rest Hin Hlen ->. rewrite Heq. unfold fifo_outcome.
    rewrite contains_false by done.
    by destruct (Z.ltb_spec (len (x :: rest)) assoc); [lia|].
  - intros A B C HAB HAC HBC. clear Heq.
    destruct (FIFO_access_outcome p [] A 2 w a h Hc) as (w1 & h1 & Hc1 & H1).
    destruct (FIFO_access_outcome p [A] B 2 w1 _ _ Hc1) as (w2 & h2 & Hc2 & H2).
    destruct (FIFO_access_outcome p [A; B] A 2 w2 _ _ Hc2) as (w3 & h3 & Hc3 & H3).
    destruct (FIFO_access_outcome p [A; B] C 2 w3 _ _ Hc3) as (w4 & h4 & Hc4 & H4).
    unfold fifo_outcome in H1, H2, H3, H4.
    rewrite contains_false in H1 by apply not_elem_of_nil.
    rewrite contains_false in H2
      by (intros Hin; apply list_elem_of_singleton in Hin; congruence).
    rewrite contains_true in H3 by apply list_elem_of_here.
    rewrite contains_false in H4
      by (rewrite !not_elem_of_cons; split_and!;
          [congruence|congruence|apply not_elem_of_nil]).
    simpl in H1, H2, H3, H4.
    rewrite (policy_run_cons _ _ _ _ _ _ _ _ H1). cbn [fst snd].
    rewrite (policy_run_cons _ _ _ _ _ _ _ _ H2). cbn [fst snd].
    rewrite (policy_run_cons _ _ _ _ _ _ _ _ H3). cbn [fst snd].
    rewrite (policy_run_cons _ _ _ _ _ _ _ _ H4). cbn [fst snd].
    by rewrite policy_run_nil.
Qed.

(** C6. A valid configuration is constructed with [num_sets >= 1];
    [num_sets] is 1 when [associativity] is the fully-associative
    sentinel 0 and [num_blocks // associativity] otherwise, where
    [num_blocks = cache_size_bytes // block_size_bytes]. *)
Theorem config_num_sets kb bs assoc w :
  valid_config kb bs assoc ->
  exists w' config,
    CacheConfig.__init__ kb bs assoc w = (w', Ok config) /\
    CacheConfig.cache_size_bytes config = kb * 1024 /\
    CacheConfig.num_blocks config = CacheConfig.cache_size_bytes config / bs /\
    1 <= CacheConfig.num_sets config /\
    (assoc = 0 -> CacheConfig.num_sets config = 1) /\
    (assoc <> 0 ->
       CacheConfig.num_sets config = CacheConfig.num_blocks config / assoc).
Proof.
  intros (Hkb & Hbs & Hassoc).
  rewrite config_init_eq by lia. eexists _, _. split; [reflexivity|].
  unfold fresh_config. cbn. split_and!; try done.
  - destruct (Z.eqb_spec assoc 0); [lia|].
    assert (0 < kb * 1024 / bs / assoc); [|lia].
    apply Z.div_str_pos. lia.
  - by intros ->.
  - intros Hne. by destruct (Z.eqb_spec assoc 0).
Qed.

(** C2, as the code has it.  [CacheConfig.__init__] checks none of its
    arguments: it raises only [ZeroDivisionError], and only for
    [block_size_bytes = 0]; for all other arguments, negative ones
    included, it returns the configuration with the derived fields, and
    [Cache.__init__] builds a cache from it. *)
Theorem config_unchecked kb bs assoc name w :
  snd (CacheConfig.__init__ kb bs assoc w) =
    (if bs =? 0 then Raise ZeroDivisionError
     else Ok (CacheConfig.mk kb bs assoc (kb * 1024) (kb * 1024 / bs)
                (if assoc =? 0 then 1 else kb * 1024 / bs / assoc))) /\
  match snd (build kb bs assoc name w) with
  | Ok cache =>
      bs <> 0 /\
      Cache.config cache =
        CacheConfig.mk kb bs assoc (kb * 1024) (kb * 1024 / bs)
          (if assoc =? 0 then 1 else kb * 1024 / bs / assoc)
  | Raise e => bs = 0 /\ e = ZeroDivisionError
  end.
Proof.
  destruct (Z.eqb_spec bs 0) as [->|Hbs].
  - done.
  - split; [by rewrite config_init_eq|].
    destruct (build_ok kb bs assoc name w Hbs) as (w0 & w' & -> & _).
    done.
Qed.

(** C5, as the code has it.  [get_address_breakdown] returns
    [(set_index, tag)] with [block_number = address // block_size_bytes],
    [set_index = block_number % num_sets] and
    [tag = block_number // num_sets]; the result depends on nothing but
    the configuration and the address; the call leaves every dictionary
    and the random generator as they were and appends one line to the
    console; and [Cache._get_set_index] and [Cache._get_tag] return the
    same two numbers, printing nothing. *)
Theorem address_breakdown_deterministic config address w :
  CacheConfig.block_size_bytes config <> 0 ->
  CacheConfig.num_sets config <> 0 ->
  let block_number := address / CacheConfig.block_size_bytes config in
  let set_index := block_number mod CacheConfig.num_sets config in
  let tag := block_number / CacheConfig.num_sets config in
  CacheConfig.get_address_breakdown config address w =
    (set_stdout (fun out => out ++ [BreakdownLine address block_number set_index tag]) w,
     Ok (set_index, tag)) /\
  (forall w2,
     snd (CacheConfig.get_address_breakdown config address w2) =
     snd (CacheConfig.get_address_breakdown config address w)) /\
  (forall cache, Cache.config cache = config ->
     Cache._get_set_index cache address w = (w, Ok set_index) /\
     Cache._get_tag cache address w = (w, Ok tag)).
Proof.
  intros Hbs Hns block_number set_index tag.
  assert (forall w0, CacheConfig.get_address_breakdown config address w0 =
    (set_stdout (fun out => out ++ [BreakdownLine address block_number set_index tag]) w0,
     Ok (set_index, tag))) as Heq.
  { intros w0. unfold CacheConfig.get_address_breakdown, floordiv, pymod.
    destruct (Z.eqb_spec (CacheConfig.block_size_bytes config) 0); [done|].
    rewrite bind_unfold, lift_unfold.
    destruct (Z.eqb_spec (CacheConfig.num_sets config) 0); [done|].
    reflexivity. }
  split_and!.
  - apply Heq.
  - intros w2. by rewrite !Heq.
  - intros cache <-. unfold Cache._get_set_index, Cache._get_tag, floordiv, pymod.
    destruct (Z.eqb_spec (CacheConfig.block_size_bytes (Cache.config cache)) 0);
      [done|].
    rewrite !bind_unfold, !lift_unfold.
    by destruct (Z.eqb_spec (CacheConfig.num_sets (Cache.config cache)) 0).
Qed.

(** C10. [Cache.__init__] returns for every configuration and every
    selector string; the policy it installs is FIFO exactly when the
    upper-cased selector is "FIFO", Random exactly when it is "RANDOM",
    and LRU in every other case, so with "LRU" and with every
    unrecognised selector; for selectors made of ASCII characters the
    upper-casing is that of the letters a-z, and two such selectors that
    differ only in the case of their letters install the same policy. *)
Theorem policy_selection {L : UpperLaw R} config name w :
  exists w' cache,
    Cache.__init__ config name w = (w', Ok cache) /\
    let cls := ReplacementPolicy.cls_of (Cache.policy cache) in
    (cls = ReplacementPolicy.LRU \/ cls = ReplacementPolicy.FIFO \/
     cls = ReplacementPolicy.Random) /\
    (cls = ReplacementPolicy.FIFO <-> str_upper name = "FIFO") /\
    (cls = ReplacementPolicy.Random <-> str_upper name = "RANDOM") /\
    (cls = ReplacementPolicy.LRU <->
       str_upper name <> "FIFO" /\ str_upper name <> "RANDOM") /\
    (is_ascii name = true ->
       (cls = ReplacementPolicy.FIFO <-> string_map ascii_upper name = "FIFO") /\
       (cls = ReplacementPolicy.Random <-> string_map ascii_upper name = "RANDOM")) /\
    (forall name' w2,
       is_ascii name = true -> is_ascii name' = true ->
       string_map ascii_upper name' = string_map ascii_upper name ->
       exists w2' cache',
         Cache.__init__ config name' w2 = (w2', Ok cache') /\
         ReplacementPolicy.cls_of (Cache.policy cache') = cls).
Proof.
  destruct (init_ok config name w) as (w' & Hinit & _).
  exists w', (fresh_cache config name w). split; [done|].
  cbn [fresh_cache Cache.policy ReplacementPolicy.cls_of]. split_and!.
  - unfold selected. repeat case_match; auto.
  - unfold selected.
    destruct (String.eqb_spec (str_upper name) "LRU") as [->|?]; [done|].
    destruct (String.eqb_spec (str_upper name) "FIFO") as [->|?]; [done|].
    destruct (String.eqb_spec (str_upper name) "RANDOM") as [->|?]; done.
  - unfold selected.
    destruct (String.eqb_spec (str_upper name) "LRU") as [->|?]; [done|].
    destruct (String.eqb_spec (str_upper name) "FIFO") as [->|?]; [done|].
    destruct (String.eqb_spec (str_upper name) "RANDOM") as [->|?]; done.
  - unfold selected.
    destruct (String.eqb_spec (str_upper name) "LRU") as [->|?]; [done|].
    destruct (String.eqb_spec (str_upper name) "FIFO") as [->|?].
    { split; [done|]. by intros [? _]. }
    destruct (String.eqb_spec (str_upper name) "RANDOM") as [->|?]; [|done].
    split; [done|]. by intros [_ ?].
  - intros Hname. rewrite <- (str_upper_ascii name Hname). unfold selected.
    destruct (String.eqb_spec (str_upper name) "LRU") as [->|?]; [done|].
    destruct (String.eqb_spec (str_upper name) "FIFO") as [->|?]; [done|].
    destruct (String.eqb_spec (str_upper name) "RANDOM") as [->|?]; done.
  - intros name' w2 Hname Hname' Heq.
    destruct (init_ok config name' w2) as (w2' & Hinit' & _).
    exists w2', (fresh_cache config name' w2). split; [done|].
    cbn [fresh_cache Cache.policy ReplacementPolicy.cls_of].
    by rewrite (str_upper_ascii name), (str_upper_ascii name'), Heq.
Qed.

(** C1, where the code departs from it.  On a cache built from a valid
    configuration with the fully-associative sentinel [associativity = 0],
    with any policy selector, the first access raises for every address:
    [IndexError] under LRU and FIFO, [ValueError] under Random. *)
Theorem fully_associative_access_raises kb bs name address w :
  valid_config kb bs 0 ->
  exists w1 cache,
    build kb bs 0 name w = (w1, Ok cache) /\
    CacheConfig.num_sets (Cache.config cache) = 1 /\
    snd (Cache.access cache address w1) =
      Raise (match ReplacementPolicy.cls_of (Cache.policy cache) with
             | ReplacementPolicy.Random => ValueError
             | _ => IndexError
             end).
Proof.
  intros (Hkb & Hbs & _).
  destruct (build_ok kb bs 0 name w) as (w0 & w1 & Hbuild & Hc); [lia|].
  exists w1, (fresh_cache (fresh_config kb bs 0) name w0).
  split; [done|]. split; [done|].
  eapply access_no_way; [|done| |exact Hc].
  - apply fresh_cache_wf; simpl; lia.
  - apply fresh_target_empty.
Qed.

(** C7. On a well-formed cache, whatever its number of ways: whenever a
    trace of accesses has run to its end, the replacements counter has
    grown by the number of accesses on which the policy reported a replaced
    tag, which is the growth of the misses counter minus the number of
    misses that found spare capacity in their set.  With at least one way
    per set, every trace runs to its end. *)
Theorem replacements_counter c w trace a h m r pa ph :
  well_formed c -> counts w c a h m r pa ph ->
  (1 <= CacheConfig.associativity (Cache.config c) ->
   exists w' c' results, run c trace w = (w', Ok (c', results))) /\
  (forall w' c' results,
     run c trace w = (w', Ok (c', results)) ->
     exists obs misses' replacements',
       observe c trace w = (w', Ok (c', obs)) /\
       results = obs_result <$> obs /\
       int_at w' (Cache.stats c') "misses" = Some misses' /\
       int_at w' (Cache.stats c') "replacements" = Some replacements' /\
       misses' - m = count obs_miss obs /\
       replacements' - r = count obs_evicts obs /\
       replacements' - r = (misses' - m) - count obs_spare_miss obs).
Proof.
  intros Hwf Hc. split.
  - intros Hassoc.
    destruct (observe_ok (fun _ => True) trace (fun _ _ _ _ _ _ _ => I)
                c w a h m r pa ph Hwf Hassoc I Hc)
      as (w' & c' & obs & Hobs & _).
    exists w', c', (obs_result <$> obs). by rewrite run_observe, Hobs.
  - intros w' c' results Hrun.
    destruct (run_returns_observe trace c w w' c' results Hrun) as (obs & Hobs & ->).
    destruct (observe_sound (fun _ => True) trace (fun _ _ _ _ _ _ _ => I)
                c w a h m r pa ph w' c' obs Hwf I Hc Hobs)
      as (_ & _ & _ & _ & _ & _ & Hlaw & Hc').
    destruct (count_evictions obs Hlaw) as [Hev _].
    destruct Hc' as (_ & _ & Hm & Hr & _).
    exists obs, (m + count obs_miss obs), (r + count obs_evicts obs).
    split_and!; try done; lia.
Qed.

(** C9. On a cache built from a valid configuration with
    [associativity >= 1], with any policy selector, any trace of accesses
    runs to its end and leaves every set with at most [associativity]
    tags, no tag twice. *)
Theorem sets_invariant kb bs assoc name trace w :
  valid_config kb bs assoc -> 1 <= assoc ->
  exists w1 cache w2 cache' results,
    build kb bs assoc name w = (w1, Ok cache) /\
    run cache trace w1 = (w2, Ok (cache', results)) /\
    Forall (fun blocks => len blocks <= assoc /\ NoDup blocks)
      (Cache.sets cache').
Proof.
  intros Hvalid Hassoc.
  destruct (build_ok kb bs assoc name w) as (w0 & w1 & Hbuild & Hc).
  { destruct Hvalid as (_ & ? & _). lia. }
  pose proof (valid_config_wf kb bs assoc name w0 Hvalid) as Hwf.
  assert (sets_ok (fresh_cache (fresh_config kb bs assoc) name w0)) as Hfresh.
  { apply fresh_sets_ok. simpl. lia. }
  destruct (observe_ok sets_ok trace
              (fun c address d log => stepped_sets_ok c address d log)
              _ w1 _ _ _ _ _ _ Hwf Hassoc Hfresh Hc)
    as (w2 & c' & obs & Hobs & _ & Hok & Hcfg & _).
  exists w1, (fresh_cache (fresh_config kb bs assoc) name w0), w2, c',
    (obs_result <$> obs).
  split; [done|]. split; [by rewrite run_observe, Hobs|].
  unfold sets_ok in Hok. by rewrite Hcfg in Hok.
Qed.

(** C8, as the code has it.  On a cache built from a valid configuration,
    after any trace that has run to its end (with [associativity >= 1]
    every trace does), [get_stats] returns a new dictionary with exactly
    the keys "accesses", "hits", "misses", "hit_rate", "replacements" and
    "policy" (not "policy_name"); the hit rate is the integer 0 when there
    were no accesses and otherwise the float [hits / accesses * 100], which
    lies between 0 and 100; no dictionary that existed before the call has
    changed; and whatever is then written into the returned dictionary, the
    dictionaries that existed before stay as they were and the next
    [get_stats] reports the same statistics. *)
Theorem stats_snapshot {L : RoundLaw R} kb bs assoc name trace w :
  valid_config kb bs assoc ->
  exists w1 cache,
    build kb bs assoc name w = (w1, Ok cache) /\
    (1 <= assoc ->
     exists w2 cache' results, run cache trace w1 = (w2, Ok (cache', results))) /\
    forall w2 cache' results,
      run cache trace w1 = (w2, Ok (cache', results)) ->
      exists hits misses replacements,
        let accesses := len trace in
        let q :=
          fround (fround (inject_Z hits / inject_Z accesses) * inject_Z 100) in
        let snapshot : Dict :=
          {[ "accesses" := PyInt accesses;
             "hits" := PyInt hits;
             "misses" := PyInt misses;
             "hit_rate" := (if 0 <? accesses then PyFloat q else PyInt 0);
             "replacements" := PyInt replacements;
             "policy" := PyStr (ReplacementPolicy.name (Cache.policy cache')) ]} in
        Cache.get_stats cache' w2 =
          (mkWorld (dicts w2 ++ [snapshot]) (stdout w2) (entropy w2) (drawn w2),
           Ok (length (dicts w2))) /\
        0 <= hits /\ 0 <= misses /\ hits + misses = accesses /\
        (0 < accesses -> (0 <= q <= 100)%Q) /\
        (forall k v, exists w4,
           dict_setitem (length (dicts w2)) k v
             (mkWorld (dicts w2 ++ [snapshot]) (stdout w2) (entropy w2) (drawn w2))
           = (w4, Ok tt) /\
           (forall l, (l < length (dicts w2))%nat ->
                      dicts w4 !! l = dicts w2 !! l) /\
           exists w5,
             Cache.get_stats cache' w4 = (w5, Ok (length (dicts w4))) /\
             dicts w5 !! length (dicts w4) = Some snapshot).
Proof.
  intros Hvalid.
  destruct (build_ok kb bs assoc name w) as (w0 & w1 & Hbuild & Hc).
  { destruct Hvalid as (_ & ? & _). lia. }
  pose proof (valid_config_wf kb bs assoc name w0 Hvalid) as Hwf.
  exists w1, (fresh_cache (fresh_config kb bs assoc) name w0).
  split; [done|]. split.
  { intros Hassoc.
    destruct (observe_ok (fun _ => True) trace (fun _ _ _ _ _ _ _ => I)
                _ w1 _ _ _ _ _ _ Hwf Hassoc I Hc)
      as (w2 & c' & obs & Hobs & _).
    exists w2, c', (obs_result <$> obs). by rewrite run_observe, Hobs. }
  intros w2 c' results Hrun.
  destruct (run_returns_observe trace _ w1 w2 c' results Hrun) as (obs & Hobs & ->).
  destruct (observe_sound (fun _ => True) trace (fun _ _ _ _ _ _ _ => I)
              _ w1 _ _ _ _ _ _ w2 c' obs Hwf I Hc Hobs)
    as (_ & _ & _ & _ & _ & Hlen & Hlaw & Hc').
  destruct (count_evictions obs Hlaw) as [_ Hsum].
  assert (len obs = len trace) as Hlen' by (unfold len; lia).
  exists (count obs_hit obs), (count obs_miss obs), (count obs_evicts obs).
  rewrite !Z.add_0_l in Hc'.
  pose proof (get_stats_ok c' w2 _ _ _ _ _ _ Hc') as Hstats.
  cbv zeta. split; [exact Hstats|].
  pose proof (count_nonneg obs_hit obs). pose proof (count_nonneg obs_miss obs).
  split; [done|]. split; [done|]. split; [lia|].
  split; [intros Hpos; apply hit_rate_bounds; lia|].
  intros k v. eexists. split.
  { apply dict_setitem_eq. cbn. rewrite length_app. simpl. lia. }
  split.
  { intros l Hl. unfold poke. cbn.
    rewrite lookup_app_r, Nat.sub_diag by lia. cbn.
    rewrite list_lookup_insert_ne by lia.
    by rewrite lookup_app_l. }
  pose proof (counts_poke_snapshot c' w2 (stats_dict c' (len trace)
    (count obs_hit obs) (count obs_miss obs) (count obs_evicts obs)) k v
    _ _ _ _ _ _ Hc') as Hc4.
  eexists. split; [apply (get_stats_ok _ _ _ _ _ _ _ _ Hc4)|].
  apply lookup_alloc_new.
Qed.

End Claims.

(** * Further properties of the code *)

Section Further.
Context {R : PyRuntime}.

(** ** Inversion of computations *)


Lemma bind_ok_inv {A B} (m : M A) (f : A -> M B) w w' b :
  (m ≫= f) w = (w', Ok b) ->
  exists w1 a, m w = (w1, Ok a) /\ f a w1 = (w', Ok b).
Proof.
  rewrite bind_unfold. destruct (m w) as [w1 [a|e]]; [|done].
  intros H. by exists w1, a.
Qed.

Lemma bind_inv {A B} (m : M A) (f : A -> M B) w w' r :
  (m ≫= f) w = (w', r) ->
  (exists w1 a, m w = (w1, Ok a) /\ f a w1 = (w', r)) \/
  (exists e, m w = (w', Raise e) /\ r = Raise e).
Proof.
  rewrite bind_unfold. destruct (m w) as [w1 [a|e]].
  - intros H. left. by exists w1, a.
  - intros [= <- <-]. right. by exists e.
Qed.

Lemma frames_ret {A} L (a : A) : frames L (mret a : M A).
Proof. intros w w' r [= <- <-]. done. Qed.

Lemma frames_lift {A} L (x : result A) : frames L (lift x).
Proof. intros w w' r [= <- <-]. done. Qed.

Lemma frames_print L line : frames L (print line).
Proof. intros w w' r [= <- <-]. done. Qed.

Lemma frames_randint L a b : frames L (randint a b).
Proof.
  intros w w' r. unfold randint. destruct (b <? a); intros [= <- <-]; done.
Qed.

Lemma frames_new_dict L d : frames L (new_dict d).
Proof.
  intros w w' r [= <- <-]. simpl. split.
  - rewrite length_app. lia.
  - intros l _ Hl. by rewrite lookup_app_l.
Qed.

Lemma frames_getitem L l k : frames L (dict_getitem l k).
Proof.
  intros w w' r. unfold dict_getitem.
  destruct (dicts w !! l) as [d|]; [destruct (d !! k)|]; intros [= <- <-]; done.
Qed.

Lemma frames_setitem L l k v : l ∈ L -> frames L (dict_setitem l k v).
Proof.
  intros Hin w w' r. unfold dict_setitem.
  destruct (dicts w !! l) as [d|]; intros [= <- <-]; [|done]. simpl. split.
  - by rewrite length_insert.
  - intros l' Hl' _. apply list_lookup_insert_ne. intros ->. done.
Qed.

Lemma frames_bind {A B} L (m : M A) (f : A -> M B) :
  frames L m -> (forall a, frames L (f a)) -> frames L (m ≫= f).
Proof.
  intros Hm Hf w w' r H.
  destruct (bind_inv _ _ _ _ _ H) as [(w1 & a & H1 & H2)|(e & H1 & _)].
  - destruct (Hm _ _ _ H1) as [Hlen1 Hfr1]. destruct (Hf a _ _ _ H2) as [Hlen2 Hfr2].
    split; [lia|]. intros l Hl Hlt. rewrite Hfr2 by (done || lia). by apply Hfr1.
  - by apply (Hm _ _ _ H1).
Qed.

Lemma frames_weaken {A} L L' (m : M A) : L ⊆ L' -> frames L m -> frames L' m.
Proof.
  intros Hsub Hm w w' r H. destruct (Hm _ _ _ H) as [Hlen Hfr].
  split; [done|]. intros l Hl. apply Hfr. intros Hin. apply Hl. by apply Hsub.
Qed.


Lemma frames_iadd1 L l k : l ∈ L -> frames L (dict_iadd1 l k).
Proof.
  intros Hin. unfold dict_iadd1.
  apply frames_bind; [apply frames_getitem|]. intros v.
  apply frames_bind; [apply frames_lift|]. intros v'.
  by apply frames_setitem.
Qed.

Ltac frames_tac :=
  repeat first
    [ apply frames_ret | apply frames_lift | apply frames_print
    | apply frames_randint | apply frames_new_dict | apply frames_getitem
    | (apply frames_iadd1; by repeat constructor)
    | (apply frames_bind; [|intros ?])
    | match goal with
      | |- frames _ (if ?b then _ else _) => destruct b
      | |- frames _ (match ?x with _ => _ end) => destruct x
      | |- frames _ (let '(_, _) := ?x in _) => destruct x
      end ].

Lemma frames_policy_access p blocks tag assoc :
  frames [ReplacementPolicy.stats p] (Cache.policy_access p blocks tag assoc).
Proof.
  unfold Cache.policy_access, LRUPolicy.access, FIFOPolicy.access,
    RandomPolicy.access, ReplacementPolicy.access.
  destruct (ReplacementPolicy.cls_of p); frames_tac.
Qed.

Lemma frames_access_locals c address :
  frames [Cache.stats c; ReplacementPolicy.stats (Cache.policy c)]
    (Cache.access_locals c address).
Proof.
  unfold Cache.access_locals, Cache._get_set_index, Cache._get_tag.
  frames_tac.
  all: try (eapply frames_weaken; [|apply frames_policy_access];
            intros ? ?; by apply list_elem_of_further).
Qed.

Lemma list_remove_inv (x : Z) (l r : list Z) :
  list_remove x l = Ok r ->
  exists pre post, l = pre ++ x :: post /\ (x ∉ pre) /\ r = pre ++ post.
Proof.
  revert r. induction l as [|y l IH]; intros r; simpl; [done|].
  destruct (decide (y = x)) as [->|Hne].
  - intros [= <-]. exists [], l. split_and!; [done|apply not_elem_of_nil|done].
  - destruct (list_remove x l) as [r'|e]; [|done]. intros [= <-].
    destruct (IH r' eq_refl) as (pre & post & -> & Hpre & ->).
    exists (y :: pre), post. split_and!; [done| |done].
    apply not_elem_of_cons. split; [congruence|done].
Qed.

Lemma lift_ok_inv {A} (x : result A) w w' a :
  lift x w = (w', Ok a) -> x = Ok a /\ w' = w.
Proof. by intros [= -> ->]. Qed.

Lemma ret_ok_inv {A} (a b : A) w w' :
  (mret a : M A) w = (w', Ok b) -> a = b /\ w' = w.
Proof. by intros [= -> ->]. Qed.

Lemma list_getitem_inv {A} (l : list A) i x :
  list_getitem l i = Ok x -> exists k, list_index l i = Some k /\ l !! k = Some x.
Proof.
  unfold list_getitem. destruct (list_index l i) as [k|]; [|done].
  destruct (l !! k) as [y|] eqn:E; [|done]. intros [= <-]. by exists k.
Qed.

Lemma list_setitem_inv {A} (l l' : list A) i x :
  list_setitem l i x = Ok l' -> exists k, list_index l i = Some k /\ l' = <[k := x]> l.
Proof.
  unfold list_setitem. destruct (list_index l i) as [k|]; [|done].
  intros [= <-]. by exists k.
Qed.

Ltac minv H :=
  let w := fresh "w" in let a := fresh "a" in let H1 := fresh H in
  apply bind_ok_inv in H as (w & a & H1 & H).

(** Whenever a policy's [access] returns, what it returns is one of the
    decisions of [decided]. *)
Lemma policy_access_decided p blocks tag assoc w w' d :
  Cache.policy_access p blocks tag assoc w = (w', Ok d) ->
  decided (ReplacementPolicy.cls_of p) blocks tag assoc d.
Proof.
  unfold Cache.policy_access.
  destruct (ReplacementPolicy.cls_of p) eqn:Hcls; intros H.
  - unfold LRUPolicy.access in H. minv H.
    unfold contains in H. case_bool_decide as Hin.
    + minv H. apply lift_ok_inv in H1 as [Hrem ->].
      destruct (list_remove_inv _ _ _ Hrem) as (pre & post & -> & Hpre & ->).
      minv H. apply ret_ok_inv in H as [<- _].
      by apply decided_hit_refresh.
    + destruct (Z.ltb_spec (len blocks) assoc) as [Hlt|Hge].
      * apply ret_ok_inv in H as [<- _]. by apply decided_miss_spare.
      * minv H. apply lift_ok_inv in H1 as [Hpop ->].
        destruct blocks as [|x rest]; [done|]. injection Hpop as <-.
        apply ret_ok_inv in H as [<- _]. by eapply decided_miss_front.
  - unfold FIFOPolicy.access in H. minv H.
    unfold contains in H. case_bool_decide as Hin.
    + minv H. apply ret_ok_inv in H as [<- _]. by apply decided_hit_keep.
    + destruct (Z.ltb_spec (len blocks) assoc) as [Hlt|Hge].
      * apply ret_ok_inv in H as [<- _]. by apply decided_miss_spare.
      * minv H. apply lift_ok_inv in H1 as [Hpop ->].
        destruct blocks as [|x rest]; [done|]. injection Hpop as <-.
        apply ret_ok_inv in H as [<- _]. by eapply decided_miss_front.
  - unfold RandomPolicy.access in H. minv H.
    unfold contains in H. case_bool_decide as Hin.
    + minv H. apply ret_ok_inv in H as [<- _]. by apply decided_hit_keep.
    + destruct (Z.ltb_spec (len blocks) assoc) as [Hlt|Hge].
      * apply ret_ok_inv in H as [<- _]. by apply decided_miss_spare.
      * minv H. minv H. apply lift_ok_inv in H2 as [Hget ->].
        minv H. apply lift_ok_inv in H2 as [Hset ->].
        apply ret_ok_inv in H as [<- _].
        destruct (list_getitem_inv _ _ _ Hget) as (k & Hk & Hx).
        destruct (list_setitem_inv _ _ _ _ Hset) as (k' & Hk' & ->).
        assert (k' = k) as -> by congruence.
        by eapply decided_miss_victim.
Qed.

Lemma quiet_ret {A} (a : A) : quiet (mret a : M A).
Proof. by intros w w' r [= <- <-]. Qed.

Lemma quiet_lift {A} (x : result A) : quiet (lift x).
Proof. by intros w w' r [= <- <-]. Qed.

Lemma quiet_randint a b : quiet (randint a b).
Proof.
  intros w w' r. unfold randint. destruct (b <? a); intros [= <- <-]; done.
Qed.

Lemma quiet_new_dict d : quiet (new_dict d).
Proof. by intros w w' r [= <- <-]. Qed.

Lemma quiet_getitem l k : quiet (dict_getitem l k).
Proof.
  intros w w' r. unfold dict_getitem.
  destruct (dicts w !! l) as [d|]; [destruct (d !! k)|]; intros [= <- <-]; done.
Qed.

Lemma quiet_setitem l k v : quiet (dict_setitem l k v).
Proof.
  intros w w' r. unfold dict_setitem.
  destruct (dicts w !! l) as [d|]; intros [= <- <-]; done.
Qed.

Lemma quiet_bind {A B} (m : M A) (f : A -> M B) :
  quiet m -> (forall a, quiet (f a)) -> quiet (m ≫= f).
Proof.
  intros Hm Hf w w' r H.
  destruct (bind_inv _ _ _ _ _ H) as [(w1 & a & H1 & H2)|(e & H1 & _)].
  - rewrite (Hf a _ _ _ H2). by apply (Hm _ _ _ H1).
  - by apply (Hm _ _ _ H1).
Qed.

Lemma quiet_iadd1 l k : quiet (dict_iadd1 l k).
Proof.
  unfold dict_iadd1.
  apply quiet_bind; [apply quiet_getitem|]. intros v.
  apply quiet_bind; [apply quiet_lift|]. intros v'.
  apply quiet_setitem.
Qed.

Ltac quiet_tac :=
  repeat first
    [ apply quiet_ret | apply quiet_lift
    | apply quiet_randint | apply quiet_new_dict | apply quiet_getitem
    | apply quiet_iadd1
    | (apply quiet_bind; [|intros ?])
    | match goal with
      | |- quiet (if ?b then _ else _) => destruct b
      | |- quiet (match ?x with _ => _ end) => destruct x
      | |- quiet (let '(_, _) := ?x in _) => destruct x
      end ].

Lemma quiet_policy_access p blocks tag assoc :
  quiet (Cache.policy_access p blocks tag assoc).
Proof.
  unfold Cache.policy_access, LRUPolicy.access, FIFOPolicy.access,
    RandomPolicy.access, ReplacementPolicy.access.
  destruct (ReplacementPolicy.cls_of p); quiet_tac.
Qed.

Lemma floordiv_inv a b q : floordiv a b = Ok q -> b <> 0 /\ q = a / b.
Proof. unfold floordiv. destruct (Z.eqb_spec b 0); [done|]. by intros [= <-]. Qed.

Lemma pymod_inv a b q : pymod a b = Ok q -> b <> 0 /\ q = a mod b.
Proof. unfold pymod. destruct (Z.eqb_spec b 0); [done|]. by intros [= <-]. Qed.

(** Whenever [access] reaches its [return]: what it computed on the way. *)
Lemma access_locals_inv c address w w' c' res repl :
  Cache.access_locals c address w = (w', Ok (c', (res, repl))) ->
  CacheConfig.block_size_bytes (Cache.config c) <> 0 /\
  CacheConfig.num_sets (Cache.config c) <> 0 /\
  exists k blocks blocks' log,
    list_index (Cache.sets c) (set_index_of c address) = Some k /\
    Cache.sets c !! k = Some blocks /\
    decided (ReplacementPolicy.cls_of (Cache.policy c)) blocks (tag_of c address)
      (CacheConfig.associativity (Cache.config c)) (blocks', (res, repl)) /\
    c' = Cache.mk (Cache.config c) (Cache.stats c) (<[k := blocks']> (Cache.sets c))
           (Cache.policy c) (Cache.debug_mode c) log /\
    logged c address res (length (dicts w)) log w' /\
    stdout w' = stdout w ++
      (if Cache.debug_mode c then [debug_line c address] else []).
Proof.
  intros H. unfold Cache.access_locals in H.
  apply bind_ok_inv in H as (w1 & [] & Hacc & H).
  pose proof (quiet_iadd1 _ _ _ _ _ Hacc) as Hout1.
  destruct (frames_iadd1 [Cache.stats c] _ "accesses"
              ltac:(by left) _ _ _ Hacc) as [Hlen1 _].
  apply bind_ok_inv in H as (w2 & si & Hsi & H).
  unfold Cache._get_set_index in Hsi.
  apply bind_ok_inv in Hsi as (w2a & bn & Hbn & Hsi).
  apply lift_ok_inv in Hbn as [Hbn ->]. apply lift_ok_inv in Hsi as [Hsi ->].
  apply floordiv_inv in Hbn as [Hbs ->]. apply pymod_inv in Hsi as [Hns ->].
  apply bind_ok_inv in H as (w3 & tg & Htg & H).
  unfold Cache._get_tag in Htg.
  apply bind_ok_inv in Htg as (w3a & bn & Hbn & Htg).
  apply lift_ok_inv in Hbn as [Hbn ->]. apply lift_ok_inv in Htg as [Htg ->].
  apply floordiv_inv in Hbn as [_ ->]. apply floordiv_inv in Htg as [_ ->].
  fold (set_index_of c address) in *. fold (tag_of c address) in *.
  apply bind_ok_inv in H as (w4 & [] & Hdbg & H).
  assert (stdout w4 = stdout w ++
    (if Cache.debug_mode c
     then [AccessDebugLine address (set_index_of c address) (tag_of c address)]
     else [])) as Hout2.
  { destruct (Cache.debug_mode c).
    - injection Hdbg as <-. simpl. by rewrite Hout1.
    - injection Hdbg as <-. by rewrite app_nil_r. }
  assert (length (dicts w4) = length (dicts w1)) as Hlen2.
  { destruct (Cache.debug_mode c); by injection Hdbg as <-. }
  apply bind_ok_inv in H as (w5 & blocks & Hget & H).
  apply lift_ok_inv in Hget as [Hget ->].
  destruct (list_getitem_inv _ _ _ Hget) as (k & Hk & Hblocks).
  apply bind_ok_inv in H as (w6 & [blocks' [res0 repl0]] & Hpol & H).
  pose proof (policy_access_decided _ _ _ _ _ _ _ Hpol) as Hdec.
  pose proof (quiet_policy_access _ _ _ _ _ _ _ Hpol) as Hout3.
  destruct (frames_policy_access _ _ _ _ _ _ _ Hpol) as [Hlen3 _].
  apply bind_ok_inv in H as (w7 & [] & Htally & H).
  assert (stdout w7 = stdout w6) as Hout4.
  { match type of Htally with ?m _ = _ =>
      assert (quiet m) as Hq by quiet_tac end.
    apply (Hq _ _ _ Htally). }
  assert (length (dicts w6) <= length (dicts w7))%nat as Hlen4.
  { match type of Htally with ?m _ = _ =>
      assert (frames [Cache.stats c] m) as Hf by frames_tac end.
    apply (Hf _ _ _ Htally). }
  apply bind_ok_inv in H as (w8 & log & Hlog & H).
  apply ret_ok_inv in H as [Heq ->].
  injection Heq as <- <- <-.
  split; [done|]. split; [done|].
  exists k, blocks, blocks', log. split; [done|]. split; [done|]. split; [done|].
  split.
  { unfold Cache.store_set. by rewrite Hk. }
  destruct (Z.ltb_spec (len (Cache.access_log c)) 1000) as [Hlt|Hge].
  - apply bind_ok_inv in Hlog as (w9 & e & He & Hlog).
    injection He as <- <-. apply ret_ok_inv in Hlog as [<- ->].
    split.
    + left. split; [done|]. exists (length (dicts w7)).
      split; [done|]. split; [lia|]. cbn.
      rewrite lookup_app_r by lia. by rewrite Nat.sub_diag.
    + cbn. by rewrite Hout4, Hout3, Hout2.
  - apply ret_ok_inv in Hlog as [<- ->]. split; [by right|].
    by rewrite Hout4, Hout3, Hout2.
Qed.

(** ** What one access decides *)

Lemma decided_resident c blocks tag assoc d :
  decided c blocks tag assoc d ->
  (fst (snd d) = "HIT" <-> tag ∈ blocks) /\
  (fst (snd d) = "MISS" <-> tag ∉ blocks) /\
  tag ∈ fst d.
Proof.
  assert (forall l : list Z, tag ∈ l ++ [tag]) as Hlast.
  { intros l. apply elem_of_app. right. by left. }
  destruct 1 as [pre post Hc Hb Hpre | Hc Hin | Hnin Hlen
                | x rest Hc Hnin Hlen Hb | i x Hc Hnin Hlen Hi]; cbn.
  - assert (tag ∈ blocks) as Hin.
    { subst. apply elem_of_app. right. by left. }
    split; [by split|]. split; [|done]. split; [done|]. intros Hn. by destruct Hn.
  - split; [by split|]. split; [|done]. split; [done|]. intros Hn. by destruct Hn.
  - split; [|by split]. split; [done|]. intros Hn. by destruct Hnin.
  - split; [|by split]. split; [done|]. intros Hn. by destruct Hnin.
  - split; [|split; [done|]]. { split; [done|]. intros Hn. by destruct Hnin. }
    apply list_elem_of_lookup. exists i.
    apply list_lookup_insert_eq. by eapply lookup_lt_Some.
Qed.

Lemma insert_victim_perm (blocks : list Z) i x tag :
  blocks !! i = Some x -> x :: <[i := tag]> blocks ≡ₚ tag :: blocks.
Proof.
  intros Hi.
  rewrite <- (take_drop_middle blocks i x Hi) at 2.
  rewrite insert_take_drop by (by eapply lookup_lt_Some).
  rewrite !Permutation_middle. apply Permutation_app_head, perm_swap.
Qed.

Lemma decided_perm c blocks tag assoc d :
  decided c blocks tag assoc d ->
  match snd d with
  | (_, Some x) => x ∈ blocks /\ x :: fst d ≡ₚ tag :: blocks
  | (res, None) =>
      if String.eqb res "HIT" then fst d ≡ₚ blocks else fst d ≡ₚ tag :: blocks
  end.
Proof.
  destruct 1; subst; cbn.
  - rewrite (Permutation_app_comm (pre ++ post) [tag]). cbn.
    apply Permutation_middle.
  - done.
  - symmetry. apply Permutation_cons_append.
  - split; [by left|]. rewrite <- (Permutation_cons_append rest tag).
    apply perm_swap.
  - split; [by eapply list_elem_of_lookup_2|]. by apply insert_victim_perm.
Qed.

(** ** One access, returning *)

Lemma access_total c w address a h m r pa ph :
  well_formed c ->
  1 <= CacheConfig.associativity (Cache.config c) ->
  counts w c a h m r pa ph ->
  exists w' d log,
    Cache.access c address w = (w', Ok (stepped c address d log, fst (snd d))) /\
    decided (ReplacementPolicy.cls_of (Cache.policy c)) (target c address)
      (tag_of c address) (CacheConfig.associativity (Cache.config c)) d /\
    counts w' (stepped c address d log) (a + 1)
      (if is_hit d then h + 1 else h)
      (if is_hit d then m else m + 1)
      (if is_hit d then r
       else match evicted d with Some _ => r + 1 | None => r end)
      (pa + 1) (if is_hit d then ph + 1 else ph).
Proof.
  intros Hwf Hassoc Hc.
  destruct (access_ok c w address a h m r pa ph Hwf (or_introl Hassoc) Hc)
    as (w' & d & log & Hacc & Hdec & Hc').
  exists w', d, log. split; [|done].
  unfold Cache.access. rewrite (bind_ok _ _ _ _ _ Hacc).
  by destruct d as [blocks [res repl]].
Qed.

Lemma target_stepped_same c a a' d log :
  well_formed c -> set_index_of c a' = set_index_of c a ->
  target (stepped c a d log) a' = fst d.
Proof.
  intros Hwf Heq. unfold target. cbn.
  change (set_index_of (stepped c a d log) a') with (set_index_of c a').
  rewrite Heq, list_lookup_insert_eq; [done|].
  pose proof (set_index_in_range c a Hwf). unfold len in *. lia.
Qed.

Lemma target_stepped_other c a a' d log :
  well_formed c -> set_index_of c a' <> set_index_of c a ->
  target (stepped c a d log) a' = target c a'.
Proof.
  intros Hwf Hne. unfold target. cbn.
  change (set_index_of (stepped c a d log) a') with (set_index_of c a').
  rewrite list_lookup_insert_ne; [done|].
  pose proof (set_index_in_range c a Hwf).
  pose proof (set_index_in_range c a' Hwf). lia.
Qed.

(** ** The address mapping *)

(** X1. [Cache._get_set_index] and [Cache._get_tag] split the block number
    of an address without loss: with a positive block size and at least one
    set, the set index lies in [0, num_sets), [tag * num_sets + set_index]
    is the block number [address // block_size_bytes], and the address lies
    in the block of that number. *)
Theorem address_mapping_round_trip c address w :
  0 < CacheConfig.block_size_bytes (Cache.config c) ->
  1 <= CacheConfig.num_sets (Cache.config c) ->
  exists s t,
    Cache._get_set_index c address w = (w, Ok s) /\
    Cache._get_tag c address w = (w, Ok t) /\
    0 <= s < CacheConfig.num_sets (Cache.config c) /\
    t * CacheConfig.num_sets (Cache.config c) + s =
      address / CacheConfig.block_size_bytes (Cache.config c) /\
    (t * CacheConfig.num_sets (Cache.config c) + s)
      * CacheConfig.block_size_bytes (Cache.config c) <= address
    < (t * CacheConfig.num_sets (Cache.config c) + s + 1)
      * CacheConfig.block_size_bytes (Cache.config c).
Proof.
  intros Hbs Hns.
  exists (set_index_of c address), (tag_of c address).
  unfold Cache._get_set_index, Cache._get_tag, floordiv, pymod, set_index_of, tag_of.
  rewrite !bind_unfold, !lift_unfold.
  destruct (Z.eqb_spec (CacheConfig.block_size_bytes (Cache.config c)) 0); [lia|].
  destruct (Z.eqb_spec (CacheConfig.num_sets (Cache.config c)) 0); [lia|].
  split; [done|]. split; [done|].
  set (bs := CacheConfig.block_size_bytes (Cache.config c)) in *.
  set (ns := CacheConfig.num_sets (Cache.config c)) in *.
  assert (address / bs / ns * ns + (address / bs) mod ns = address / bs) as Hblock.
  { pose proof (Z.div_mod (address / bs) ns). lia. }
  split; [apply Z.mod_pos_bound; lia|]. split; [done|].
  rewrite Hblock.
  pose proof (Z.div_mod address bs). pose proof (Z.mod_pos_bound address bs). lia.
Qed.

(** X2. Two addresses are given the same set index and the same tag
    exactly when they lie in the same block. *)
Theorem same_line_iff_same_block c a1 a2 w :
  CacheConfig.block_size_bytes (Cache.config c) <> 0 ->
  CacheConfig.num_sets (Cache.config c) <> 0 ->
  (snd (Cache._get_set_index c a1 w) = snd (Cache._get_set_index c a2 w) /\
   snd (Cache._get_tag c a1 w) = snd (Cache._get_tag c a2 w)) <->
  a1 / CacheConfig.block_size_bytes (Cache.config c) =
  a2 / CacheConfig.block_size_bytes (Cache.config c).
Proof.
  intros Hbs Hns.
  unfold Cache._get_set_index, Cache._get_tag, floordiv, pymod.
  rewrite !bind_unfold, !lift_unfold.
  destruct (Z.eqb_spec (CacheConfig.block_size_bytes (Cache.config c)) 0); [lia|].
  destruct (Z.eqb_spec (CacheConfig.num_sets (Cache.config c)) 0); [lia|].
  cbn.
  set (bs := CacheConfig.block_size_bytes (Cache.config c)) in *.
  set (ns := CacheConfig.num_sets (Cache.config c)) in *.
  split.
  - intros [[= Hs] [= Ht]].
    rewrite (Z.div_mod (a1 / bs) ns), (Z.div_mod (a2 / bs) ns) by done.
    by rewrite Hs, Ht.
  - by intros ->.
Qed.

(** ** More ways than blocks *)

(** X3. A configuration whose associativity exceeds its number of blocks
    is accepted by both constructors and gives a cache with zero sets; every
    access of that cache raises [ZeroDivisionError], after the accesses
    counter was incremented. *)
Theorem oversized_associativity_raises kb bs assoc name address w :
  bs <> 0 -> assoc <> 0 -> kb * 1024 / bs / assoc = 0 ->
  exists w1 cache w2,
    build kb bs assoc name w = (w1, Ok cache) /\
    Cache.sets cache = [] /\
    Cache.access cache address w1 = (w2, Raise ZeroDivisionError) /\
    int_at w2 (Cache.stats cache) "accesses" = Some 1 /\
    int_at w2 (Cache.stats cache) "hits" = Some 0 /\
    int_at w2 (Cache.stats cache) "misses" = Some 0.
Proof.
  intros Hbs Hassoc Hzero.
  destruct (build_ok kb bs assoc name w Hbs) as (w0 & w1 & Hbuild & Hc).
  set (cache := fresh_cache (fresh_config kb bs assoc) name w0) in *.
  assert (CacheConfig.num_sets (Cache.config cache) = 0) as Hns.
  { cbn. by destruct (Z.eqb_spec assoc 0). }
  exists w1, cache, (poke (Cache.stats cache) "accesses" (PyInt (0 + 1)) w1).
  split; [done|]. split.
  { unfold cache, fresh_cache. cbn [Cache.sets].
    change (CacheConfig.num_sets (fresh_config kb bs assoc))
      with (CacheConfig.num_sets (Cache.config cache)).
    by rewrite Hns. }
  destruct Hc as (Ha & Hh & Hm & _).
  pose proof (int_at_lt _ _ _ _ Ha) as Hlt.
  split.
  { unfold Cache.access, Cache.access_locals.
    rewrite bind_unfold. rewrite bind_unfold.
    rewrite (dict_iadd1_int _ _ _ _ Ha).
    unfold Cache._get_set_index. rewrite !bind_unfold, !lift_unfold.
    unfold floordiv, pymod. rewrite Hns.
    change (CacheConfig.block_size_bytes (Cache.config cache)) with bs.
    by destruct (Z.eqb_spec bs 0). }
  split; [by apply int_at_poke_eq|].
  split; (rewrite int_at_poke_ne; [done|done|by right]).
Qed.

Lemma list_getitem_nil {A} (i : Z) : list_getitem (@nil A) i = Raise IndexError.
Proof. unfold list_getitem. by destruct (list_index [] i). Qed.

(** X4. A configuration that gives a negative number of sets (a negative
    associativity, or a negative size with a positive associativity) is
    accepted by both constructors and gives a cache without sets; every
    access of that cache raises [IndexError], after the accesses counter
    was incremented. *)
Theorem negative_sets_access_raises kb bs assoc name address w :
  bs <> 0 -> assoc <> 0 -> kb * 1024 / bs / assoc < 0 ->
  exists w1 cache w2,
    build kb bs assoc name w = (w1, Ok cache) /\
    Cache.sets cache = [] /\
    Cache.access cache address w1 = (w2, Raise IndexError) /\
    int_at w2 (Cache.stats cache) "accesses" = Some 1 /\
    int_at w2 (Cache.stats cache) "hits" = Some 0 /\
    int_at w2 (Cache.stats cache) "misses" = Some 0.
Proof.
  intros Hbs Hassoc Hneg.
  destruct (build_ok kb bs assoc name w Hbs) as (w0 & w1 & Hbuild & Hc).
  set (cache := fresh_cache (fresh_config kb bs assoc) name w0) in *.
  assert (CacheConfig.num_sets (Cache.config cache) = kb * 1024 / bs / assoc) as Hns.
  { cbn. by destruct (Z.eqb_spec assoc 0). }
  assert (Cache.sets cache = []) as Hsets.
  { unfold cache, fresh_cache. cbn [Cache.sets].
    change (CacheConfig.num_sets (fresh_config kb bs assoc))
      with (CacheConfig.num_sets (Cache.config cache)).
    rewrite Hns. by replace (Z.to_nat (kb * 1024 / bs / assoc)) with 0%nat by lia. }
  exists w1, cache, (poke (Cache.stats cache) "accesses" (PyInt (0 + 1)) w1).
  split; [done|]. split; [done|].
  destruct Hc as (Ha & Hh & Hm & _).
  pose proof (int_at_lt _ _ _ _ Ha) as Hlt.
  split.
  { set (w2 := poke (Cache.stats cache) "accesses" (PyInt (0 + 1)) w1).
    assert (Cache._get_set_index cache address w2 =
            (w2, Ok (set_index_of cache address))) as Hsi.
    { unfold Cache._get_set_index, floordiv, pymod. rewrite Hns.
      change (CacheConfig.block_size_bytes (Cache.config cache)) with bs.
      rewrite bind_unfold, lift_unfold.
      destruct (Z.eqb_spec bs 0); [done|]. rewrite lift_unfold.
      destruct (Z.eqb_spec (kb * 1024 / bs / assoc) 0); [lia|].
      unfold set_index_of. by rewrite Hns. }
    assert (Cache._get_tag cache address w2 = (w2, Ok (tag_of cache address)))
      as Htag.
    { unfold Cache._get_tag, floordiv. rewrite Hns.
      change (CacheConfig.block_size_bytes (Cache.config cache)) with bs.
      rewrite bind_unfold, lift_unfold.
      destruct (Z.eqb_spec bs 0); [done|]. rewrite lift_unfold.
      destruct (Z.eqb_spec (kb * 1024 / bs / assoc) 0); [lia|].
      unfold tag_of. by rewrite Hns. }
    unfold Cache.access, Cache.access_locals.
    rewrite bind_unfold.
    rewrite (bind_ok _ _ _ _ _ (dict_iadd1_int _ _ _ _ Ha)).
    fold w2. rewrite (bind_ok _ _ _ _ _ Hsi), (bind_ok _ _ _ _ _ Htag).
    change (Cache.debug_mode cache) with false. cbn iota.
    rewrite (bind_ok _ _ w2 w2 tt) by done.
    rewrite Hsets. by rewrite bind_unfold, lift_unfold, list_getitem_nil. }
  split; [by apply int_at_poke_eq|].
  split; (rewrite int_at_poke_ne; [done|done|by right]).
Qed.

(** ** Hits and misses *)

(** X5. An access returns ["HIT"] exactly when the tag of the address is
    resident in the set the address maps to, and ["MISS"] otherwise; either
    way the tag is resident in that set afterwards. *)
Theorem access_hit_iff_resident c w address a h m r pa ph :
  well_formed c ->
  1 <= CacheConfig.associativity (Cache.config c) ->
  counts w c a h m r pa ph ->
  exists w' c' res,
    Cache.access c address w = (w', Ok (c', res)) /\
    (res = "HIT" <-> tag_of c address ∈ target c address) /\
    (res = "MISS" <-> tag_of c address ∉ target c address) /\
    tag_of c address ∈ target c' address.
Proof.
  intros Hwf Hassoc Hc.
  destruct (access_total c w address a h m r pa ph Hwf Hassoc Hc)
    as (w' & d & log & Hacc & Hdec & _).
  destruct (decided_resident _ _ _ _ _ Hdec) as (Hhit & Hmiss & Hin).
  exists w', (stepped c address d log), (fst (snd d)).
  split; [done|]. split; [done|]. split; [done|].
  change (tag_of (stepped c address d log) address) with (tag_of c address).
  by rewrite target_stepped_same.
Qed.

(** X6. An access changes no set but the one the address maps to, and
    leaves the configuration, the policy instance, the debug flag and the
    number of sets as they were. *)
Theorem access_touches_one_set c w address a h m r pa ph :
  well_formed c ->
  1 <= CacheConfig.associativity (Cache.config c) ->
  counts w c a h m r pa ph ->
  exists w' c' res,
    Cache.access c address w = (w', Ok (c', res)) /\
    Cache.config c' = Cache.config c /\
    Cache.stats c' = Cache.stats c /\
    Cache.policy c' = Cache.policy c /\
    Cache.debug_mode c' = Cache.debug_mode c /\
    length (Cache.sets c') = length (Cache.sets c) /\
    forall k, Z.of_nat k <> set_index_of c address ->
              Cache.sets c' !! k = Cache.sets c !! k.
Proof.
  intros Hwf Hassoc Hc.
  destruct (access_total c w address a h m r pa ph Hwf Hassoc Hc)
    as (w' & d & log & Hacc & _).
  exists w', (stepped c address d log), (fst (snd d)).
  split; [done|]. cbn. split_and!; try done.
  - by rewrite length_insert.
  - intros k Hk. apply list_lookup_insert_ne.
    pose proof (set_index_in_range c address Hwf). lia.
Qed.

(** X7. What an access does to the tags of the targeted set, under every
    policy: a hit permutes them; a miss without replacement adds the tag of
    the address; a miss with replacement reports a tag that was resident
    and exchanges it for the tag of the address. *)
Theorem access_exchanges_one_tag c w address a h m r pa ph :
  well_formed c ->
  1 <= CacheConfig.associativity (Cache.config c) ->
  counts w c a h m r pa ph ->
  exists w' c' res repl,
    Cache.access_locals c address w = (w', Ok (c', (res, repl))) /\
    match repl with
    | Some x =>
        res = "MISS" /\ x ∈ target c address /\ x <> tag_of c address /\
        x :: target c' address ≡ₚ tag_of c address :: target c address
    | None =>
        if String.eqb res "HIT" then target c' address ≡ₚ target c address
        else target c' address ≡ₚ tag_of c address :: target c address
    end.
Proof.
  intros Hwf Hassoc Hc.
  destruct (access_ok c w address a h m r pa ph Hwf (or_introl Hassoc) Hc)
    as (w' & d & log & Hacc & Hdec & _).
  exists w', (stepped c address d log), (fst (snd d)), (snd (snd d)).
  split; [by destruct d as [? [? ?]]|].
  rewrite target_stepped_same by done.
  pose proof (decided_perm _ _ _ _ _ Hdec) as Hperm.
  destruct (decided_resident _ _ _ _ _ Hdec) as (_ & Hmiss & _).
  destruct (decided_shape _ _ _ _ _ Hdec) as [[Hres Hev]|[Hres Hev]];
    destruct d as [blocks' [res [x|]]]; cbn in *; try done.
  destruct Hperm as [Hin Hperm]. split; [done|]. split; [done|]. split; [|done].
  intros ->. by apply Hmiss in Hres.
Qed.

(** ** The eviction of [RandomPolicy] *)

(** X8. On a miss in a full set [RandomPolicy.access] draws one number,
    overwrites the way at the drawn position with the new tag and reports
    the tag that was there; the other ways keep their positions.  On a hit
    or a miss with spare capacity it draws nothing. *)
Theorem random_evicts_drawn_way p blocks tag assoc w a h :
  policy_counts w p a h -> blocks <> [] ->
  let i := Z.to_nat (entropy w (drawn w) mod len blocks) in
  exists w' d,
    RandomPolicy.access p blocks tag assoc w = (w', Ok d) /\
    if contains tag blocks || (len blocks <? assoc)
    then drawn w' = drawn w
    else exists x,
      blocks !! i = Some x /\ d = (<[i := tag]> blocks, ("MISS", Some x)) /\
      drawn w' = S (drawn w).
Proof.
  intros Hc Hne i. unfold RandomPolicy.access.
  mstep (base_access_ok p blocks tag assoc w a h Hc).
  destruct (contains tag blocks) eqn:Hin; cbn [orb].
  - mstep (hit_counted p w a h Hc). eexists _, _. split; reflexivity.
  - destruct (Z.ltb_spec (len blocks) assoc) as [Hlen|Hlen].
    + eexists _, _. split; reflexivity.
    + assert (1 <= len blocks) as Hpos.
      { destruct blocks; [done|]. unfold len. simpl. lia. }
      unfold randint at 1. rewrite bind_unfold.
      destruct (Z.ltb_spec (len blocks - 1) 0) as [?|_]; [lia|].
      cbn [entropy drawn poke set_dicts].
      replace (len blocks - 1 - 0 + 1) with (len blocks) by lia.
      rewrite Z.add_0_l.
      pose proof (Z.mod_pos_bound (entropy w (drawn w)) (len blocks)) as Hi.
      destruct (list_getitem_in_range blocks (entropy w (drawn w) mod len blocks))
        as (x & Hx & Hget); [lia|].
      rewrite bind_unfold, lift_unfold, Hget.
      rewrite list_setitem_in_range by lia. rewrite bind_unfold, lift_unfold.
      eexists _, _. split; [reflexivity|]. exists x. by split.
Qed.

(** ** Invariants of traces *)

(** Whenever [access] reaches its [return] on a well-formed cache: the
    instance it leaves, the decision it took, the log and the console. *)
Lemma access_locals_stepped c address w w' c' res repl :
  well_formed c ->
  Cache.access_locals c address w = (w', Ok (c', (res, repl))) ->
  exists d log,
    c' = stepped c address d log /\ snd d = (res, repl) /\
    decided (ReplacementPolicy.cls_of (Cache.policy c)) (target c address)
      (tag_of c address) (CacheConfig.associativity (Cache.config c)) d /\
    logged c address res (length (dicts w)) log w' /\
    stdout w' = stdout w ++
      (if Cache.debug_mode c then [debug_line c address] else []).
Proof.
  intros Hwf H.
  destruct (access_locals_inv _ _ _ _ _ _ _ H)
    as (_ & _ & k & blocks & blocks' & log & Hk & Hblocks & Hdec & -> & Hlog & Hout).
  rewrite list_index_in_range in Hk by by apply set_index_in_range.
  injection Hk as <-.
  rewrite target_lookup in Hblocks by done. injection Hblocks as <-.
  by exists (blocks', (res, repl)), log.
Qed.

Lemma observe_invariant (J : World -> Cache.t -> list Z -> list Obs -> Prop) :
  preserved J ->
  forall trace c w done obs0 w' c' obs,
    well_formed c -> J w c done obs0 ->
    observe c trace w = (w', Ok (c', obs)) ->
    J w' c' (done ++ trace) (obs0 ++ obs).
Proof.
  intros Hstep. induction trace as [|address trace IH];
    intros c w done obs0 w' c' obs Hwf HJ Hobs.
  - cbn in Hobs. injection Hobs as <- <- <-. by rewrite !app_nil_r.
  - cbn [observe] in Hobs.
    apply bind_ok_inv in Hobs as (w1 & [c1 [res repl]] & Hacc & Hobs).
    apply bind_ok_inv in Hobs as (w2 & [c2 obs2] & Hrest & Hobs).
    injection Hobs as <- <- <-.
    destruct (access_locals_stepped _ _ _ _ _ _ _ Hwf Hacc)
      as (d & log & -> & Hd & Hdec & Hlog & Hout).
    rewrite <- Hd in Hacc.
    replace res with (fst (snd d)) in Hlog by by rewrite Hd.
    pose proof (Hstep _ _ _ _ _ _ _ _ Hwf HJ Hacc Hdec Hlog Hout) as HJ1.
    pose proof (IH _ _ _ _ _ _ _ (stepped_wf c address d log Hwf) HJ1 Hrest) as HJ2.
    rewrite <- !app_assoc in HJ2. cbn in HJ2.
    destruct d as [blocks [res' repl']]. cbn in Hd. injection Hd as -> ->.
    exact HJ2.
Qed.

(** Traces run to their end on a well-formed cache with at least one way
    per set, and every invariant of single accesses holds at the end. *)
Lemma observe_total (J : World -> Cache.t -> list Z -> list Obs -> Prop) trace
    c w a h m r pa ph :
  preserved J ->
  well_formed c -> 1 <= CacheConfig.associativity (Cache.config c) ->
  counts w c a h m r pa ph -> J w c [] [] ->
  exists w' c' obs,
    observe c trace w = (w', Ok (c', obs)) /\
    run c trace w = (w', Ok (c', obs_result <$> obs)) /\
    J w' c' trace obs /\
    well_formed c' /\
    Cache.config c' = Cache.config c /\
    Cache.stats c' = Cache.stats c /\
    Cache.policy c' = Cache.policy c /\
    length obs = length trace /\
    Forall obs_law obs /\
    counts w' c' (a + len trace)
      (h + count obs_hit obs) (m + count obs_miss obs)
      (r + count obs_evicts obs)
      (pa + len trace) (ph + count obs_hit obs).
Proof.
  intros Hstep Hwf Hassoc Hc HJ.
  destruct (observe_ok (fun _ => True) trace (fun _ _ _ _ _ _ _ => I)
              c w a h m r pa ph Hwf Hassoc I Hc)
    as (w' & c' & obs & Hobs & Hwf' & _ & Hrest).
  exists w', c', obs. split; [done|]. split; [by rewrite run_observe, Hobs|].
  split; [|done].
  apply (observe_invariant J Hstep trace c w [] [] w' c' obs Hwf HJ Hobs).
Qed.

Lemma count_app f obs1 obs2 : count f (obs1 ++ obs2) = count f obs1 + count f obs2.
Proof. induction obs1 as [|o obs1 IH]; cbn; [done|]. rewrite IH. lia. Qed.

(** ** Occupancy *)

Lemma occupancy_insert (sets : list (list Z)) k old new :
  sets !! k = Some old ->
  foldr (fun blocks n => len blocks + n) 0 (<[k := new]> sets) =
  foldr (fun blocks n => len blocks + n) 0 sets - len old + len new.
Proof.
  revert k. induction sets as [|s sets IH]; intros [|k] Hk; try done.
  - injection Hk as ->. cbn [foldr]. change (<[0%nat := new]> (old :: sets)) with (new :: sets).
    cbn [foldr]. lia.
  - change (<[S k := new]> (s :: sets)) with (s :: <[k := new]> sets).
    cbn [foldr]. rewrite (IH k Hk). lia.
Qed.

Lemma occupancy_stepped c address d log :
  well_formed c ->
  occupancy (stepped c address d log) =
  occupancy c - len (target c address) + len (fst d).
Proof.
  intros Hwf. unfold occupancy. cbn [stepped Cache.sets].
  by apply occupancy_insert, target_lookup.
Qed.

Lemma decided_len c blocks tag assoc d :
  decided c blocks tag assoc d ->
  len (fst d) =
  len blocks + (if String.eqb (fst (snd d)) "MISS" then 1 else 0)
             - (match snd (snd d) with Some _ => 1 | None => 0 end).
Proof.
  unfold len. destruct 1; subst; cbn; rewrite ?length_app, ?length_insert; cbn;
    rewrite ?length_app; cbn; lia.
Qed.

Lemma occupancy_fresh config name w : occupancy (fresh_cache config name w) = 0.
Proof.
  unfold occupancy. cbn [fresh_cache Cache.sets].
  induction (Z.to_nat (CacheConfig.num_sets config)) as [|n IH]; [done|].
  cbn. by rewrite IH.
Qed.

(** X9. After any trace on a cache built from a valid configuration with
    at least one way per set, the number of tags resident in the cache is
    the misses counter minus the replacements counter, and there were no
    more replacements than misses. *)
Theorem occupancy_is_misses_minus_replacements kb bs assoc name trace w :
  valid_config kb bs assoc -> 1 <= assoc ->
  exists w1 cache w2 cache' results misses replacements,
    build kb bs assoc name w = (w1, Ok cache) /\
    run cache trace w1 = (w2, Ok (cache', results)) /\
    int_at w2 (Cache.stats cache') "misses" = Some misses /\
    int_at w2 (Cache.stats cache') "replacements" = Some replacements /\
    occupancy cache' = misses - replacements /\
    0 <= replacements <= misses.
Proof.
  intros Hvalid Hassoc.
  destruct (build_ok kb bs assoc name w) as (w0 & w1 & Hbuild & Hc).
  { destruct Hvalid as (_ & ? & _). lia. }
  pose proof (valid_config_wf kb bs assoc name w0 Hvalid) as Hwf.
  set (cache := fresh_cache (fresh_config kb bs assoc) name w0) in *.
  destruct (observe_total
    (fun _ c _ obs => occupancy c = count obs_miss obs - count obs_evicts obs)
    trace cache w1 0 0 0 0 0 0) as (w2 & c' & obs & _ & Hrun & HJ & _ & _ & _ & _ & _ & Hlaw & Hc');
    try done.
  - intros w0' c address w' d log done obs Hwf0 HJ _ Hdec _ _.
    rewrite occupancy_stepped, HJ, !count_app, (decided_len _ _ _ _ _ Hdec) by done.
    cbn. unfold obs_miss, obs_evicts. cbn.
    destruct (String.eqb (fst (snd d)) "MISS"); destruct (snd (snd d)); lia.
  - unfold cache. by rewrite occupancy_fresh.
  - destruct Hc' as (_ & _ & Hm & Hr & _).
    destruct (count_evictions obs Hlaw) as [Hev _].
    exists w1, cache, w2, c', (obs_result <$> obs),
      (0 + count obs_miss obs), (0 + count obs_evicts obs).
    split_and!; try done; try lia.
    + apply count_nonneg.
    + pose proof (count_nonneg obs_spare_miss obs). lia.
Qed.

(** ** The hit rate of the policy *)

Lemma Qeq_bool_inject_ne a : a <> 0 -> Qeq_bool (inject_Z a) 0 = false.
Proof.
  intros Ha. destruct (Qeq_bool (inject_Z a) 0) eqn:E; [|reflexivity].
  apply Qeq_bool_iff in E. by apply (inject_Z_injective a 0) in E.
Qed.

Lemma get_hit_rate_ok p w a h :
  policy_counts w p a h ->
  ReplacementPolicy.get_hit_rate p w =
    (w, Ok (PyFloat (if a =? 0 then 0%Q
                     else fround (fround (inject_Z h / inject_Z a) * inject_Z 100)))).
Proof.
  intros [Ha Hh]. unfold ReplacementPolicy.get_hit_rate.
  mstep (dict_getitem_int _ _ _ _ Ha). cbn [py_eq0].
  destruct (Z.eqb_spec a 0) as [->|Hne]; [done|].
  mstep (dict_getitem_int _ _ _ _ Hh).
  mstep (dict_getitem_int _ _ _ _ Ha).
  unfold py_truediv. cbn [to_Q]. by rewrite Qeq_bool_inject_ne.
Qed.

(** X10. After any trace on a cache built from a valid configuration with
    at least one way per set, the policy's own counters equal the cache's:
    both count [len trace] accesses and the same hits.
    [ReplacementPolicy.get_hit_rate] returns the float
    [hits / accesses * 100] that [Cache.get_stats] stores under "hit_rate";
    after no access at all it returns the float 0.0 where [get_stats]
    stores the integer 0. *)
Theorem policy_hit_rate_agrees kb bs assoc name trace w :
  valid_config kb bs assoc -> 1 <= assoc ->
  exists w1 cache w2 cache' results hits rate w3 snapshot,
    build kb bs assoc name w = (w1, Ok cache) /\
    run cache trace w1 = (w2, Ok (cache', results)) /\
    int_at w2 (Cache.stats cache') "accesses" = Some (len trace) /\
    int_at w2 (ReplacementPolicy.stats (Cache.policy cache')) "accesses"
      = Some (len trace) /\
    int_at w2 (Cache.stats cache') "hits" = Some hits /\
    int_at w2 (ReplacementPolicy.stats (Cache.policy cache')) "hits" = Some hits /\
    ReplacementPolicy.get_hit_rate (Cache.policy cache') w2 = (w2, Ok (PyFloat rate)) /\
    Cache.get_stats cache' w2 = (w3, Ok snapshot) /\
    val_at w3 snapshot "hit_rate" =
      Some (if len trace =? 0 then PyInt 0 else PyFloat rate) /\
    (len trace = 0 -> rate = 0%Q).
Proof.
  intros Hvalid Hassoc.
  destruct (build_ok kb bs assoc name w) as (w0 & w1 & Hbuild & Hc).
  { destruct Hvalid as (_ & ? & _). lia. }
  pose proof (valid_config_wf kb bs assoc name w0 Hvalid) as Hwf.
  set (cache := fresh_cache (fresh_config kb bs assoc) name w0) in *.
  destruct (observe_total (fun _ _ _ _ => True) trace cache w1 0 0 0 0 0 0)
    as (w2 & c' & obs & _ & Hrun & _ & _ & _ & _ & _ & _ & _ & Hc'); try done.
  rewrite !Z.add_0_l in Hc'.
  pose proof Hc' as (Ha & Hh & _ & _ & Hpa & Hph).
  pose proof (get_hit_rate_ok _ _ _ _ (conj Hpa Hph)) as Hrate.
  pose proof (get_stats_ok _ _ _ _ _ _ _ _ Hc') as Hstats.
  eexists w1, cache, w2, c', _, _, _, _, _.
  split; [done|]. split; [exact Hrun|].
  split; [done|]. split; [done|]. split; [done|]. split; [done|].
  split; [exact Hrate|]. split; [exact Hstats|]. split.
  - rewrite val_at_alloc_new. unfold stats_dict, hit_rate_of.
    rewrite lookup_insert_ne by done. rewrite lookup_insert_ne by done.
    rewrite lookup_insert_ne by done. rewrite lookup_insert_eq.
    assert (0 <= len trace) by (unfold len; lia).
    destruct (Z.eqb_spec (len trace) 0) as [->|Hne]; [done|].
    by destruct (Z.ltb_spec 0 (len trace)); [|lia].
  - by intros ->.
Qed.

(** ** The access log *)

Lemma not_elem_of_pair (l a b : nat) : l <> a -> l <> b -> l ∉ [a; b].
Proof.
  intros Ha Hb Hin. apply elem_of_cons in Hin as [->|Hin]; [done|].
  by apply list_elem_of_singleton in Hin.
Qed.

Lemma set_index_of_config c c' address :
  Cache.config c' = Cache.config c -> set_index_of c' address = set_index_of c address.
Proof. unfold set_index_of. by intros ->. Qed.

Lemma tag_of_config c c' address :
  Cache.config c' = Cache.config c -> tag_of c' address = tag_of c address.
Proof. unfold tag_of. by intros ->. Qed.

(** X11. On a cache built from a valid configuration with at least one way
    per set, [access] logs the first 1000 accesses of a trace and no more:
    afterwards the log has [min(len trace, 1000)] entries, and its [i]-th
    entry is a dictionary of its own holding the address, the set index
    and the result of the [i]-th access. *)
Theorem access_log_records kb bs assoc name trace w :
  valid_config kb bs assoc -> 1 <= assoc ->
  exists w1 cache w2 cache' results,
    build kb bs assoc name w = (w1, Ok cache) /\
    run cache trace w1 = (w2, Ok (cache', results)) /\
    length (Cache.access_log cache') = Nat.min (length trace) 1000 /\
    forall i entry, Cache.access_log cache' !! i = Some entry ->
      exists address res,
        trace !! i = Some address /\ results !! i = Some res /\
        dicts w2 !! entry =
          Some (log_entry address (set_index_of cache address) res).
Proof.
  intros Hvalid Hassoc.
  destruct (build_ok kb bs assoc name w) as (w0 & w1 & Hbuild & Hc).
  { destruct Hvalid as (_ & ? & _). lia. }
  pose proof (valid_config_wf kb bs assoc name w0 Hvalid) as Hwf.
  set (cache := fresh_cache (fresh_config kb bs assoc) name w0) in *.
  pose (J := fun (w : World) (c : Cache.t) (done : list Z) (obs : list Obs) =>
    (Cache.stats c < length (dicts w))%nat /\
    (ReplacementPolicy.stats (Cache.policy c) < length (dicts w))%nat /\
    length obs = length done /\
    length (Cache.access_log c) = Nat.min (length done) 1000 /\
    forall i e, Cache.access_log c !! i = Some e ->
      (e < length (dicts w))%nat /\ e <> Cache.stats c /\
      e <> ReplacementPolicy.stats (Cache.policy c) /\
      exists a o, done !! i = Some a /\ obs !! i = Some o /\
        dicts w !! e = Some (log_entry a (set_index_of c a) (obs_result o))).
  destruct (observe_total J trace cache w1 0 0 0 0 0 0)
    as (w2 & c' & obs & _ & Hrun & HJ & _ & Hcfg & _); try done.
  - intros w3 c address w' d log done obs Hwf3 (Hs & Hp & Hlen & Hlog & Hent)
      Hacc Hdec Hlogged Hout.
    destruct (frames_access_locals c address _ _ _ Hacc) as [Hgrow Hframe].
    assert (forall i e, Cache.access_log c !! i = Some e ->
      (e < length (dicts w'))%nat /\ e <> Cache.stats c /\
      e <> ReplacementPolicy.stats (Cache.policy c) /\
      exists a o, (done ++ [address]) !! i = Some a /\
        (obs ++ [mkObs (fst (snd d)) (snd (snd d)) (had_spare c address)]) !! i
          = Some o /\
        dicts w' !! e = Some (log_entry a (set_index_of c a) (obs_result o)))
      as Hold.
    { intros i e Hi.
      destruct (Hent i e Hi) as (He & Hne1 & Hne2 & a0 & o & Ha0 & Ho & Hdict).
      split; [lia|]. split; [done|]. split; [done|].
      exists a0, o. split; [by apply lookup_app_l_Some|].
      split; [by apply lookup_app_l_Some|].
      rewrite Hframe; [done|by apply not_elem_of_pair|done]. }
    unfold J. cbn [stepped Cache.stats Cache.policy Cache.access_log].
    split; [lia|]. split; [lia|].
    split; [rewrite !length_app; cbn; lia|].
    destruct Hlogged as [(Hlt & entry & -> & Hge & Hentry)|(Hfull & ->)].
    + unfold len in Hlt. split; [rewrite !length_app; cbn; lia|].
      intros i e Hi. apply lookup_app_Some in Hi as [Hi|[Hi1 Hi2]].
      * by apply Hold.
      * destruct (i - length (Cache.access_log c))%nat eqn:E; [|done].
        injection Hi2 as <-.
        assert (i = length done) as -> by lia.
        split; [by eapply lookup_lt_Some|]. split; [lia|]. split; [lia|].
        eexists _, _. split; [by apply list_lookup_middle|].
        split; [by apply list_lookup_middle|]. done.
    + unfold len in Hfull. split; [rewrite !length_app; cbn; lia|]. exact Hold.
  - destruct Hc as (Ha & _ & _ & _ & Hpa & _).
    unfold J. split; [by eapply int_at_lt|]. split; [by eapply int_at_lt|].
    split; [done|]. split; [done|]. intros i e Hi. done.
  - destruct HJ as (_ & _ & _ & Hlen & Hent).
    exists w1, cache, w2, c', (obs_result <$> obs).
    split; [done|]. split; [done|]. split; [done|].
    intros i e Hi. destruct (Hent i e Hi) as (_ & _ & _ & a0 & o & Ha0 & Ho & Hdict).
    exists a0, (obs_result o). split; [done|].
    split; [by rewrite list_lookup_fmap, Ho|].
    by rewrite <- (set_index_of_config cache c' a0 Hcfg).
Qed.

(** ** The footprint of accesses *)

Lemma frames_access c address :
  frames [Cache.stats c; ReplacementPolicy.stats (Cache.policy c)]
    (Cache.access c address).
Proof.
  unfold Cache.access. apply frames_bind; [apply frames_access_locals|].
  intros [c' [res repl]]. apply frames_ret.
Qed.

Lemma access_keeps_identity c address w w' c' res :
  Cache.access c address w = (w', Ok (c', res)) ->
  Cache.config c' = Cache.config c /\ Cache.stats c' = Cache.stats c /\
  Cache.policy c' = Cache.policy c /\ Cache.debug_mode c' = Cache.debug_mode c.
Proof.
  unfold Cache.access. intros H.
  apply bind_ok_inv in H as (w1 & [c1 [res1 repl1]] & Hacc & H).
  injection H as <- <- <-.
  destruct (access_locals_inv _ _ _ _ _ _ _ Hacc)
    as (_ & _ & k & blocks & blocks' & log & _ & _ & _ & -> & _).
  done.
Qed.

Lemma frames_run trace : forall c,
  frames [Cache.stats c; ReplacementPolicy.stats (Cache.policy c)] (run c trace).
Proof.
  induction trace as [|address trace IH]; intros c; [apply frames_ret|].
  intros w w' r Hrun. cbn [run] in Hrun.
  destruct (bind_inv _ _ _ _ _ Hrun) as [(w1 & [c1 res] & Hacc & Hrest)|(e & Hacc & _)];
    [|by apply (frames_access c address _ _ _ Hacc)].
  destruct (frames_access c address _ _ _ Hacc) as [Hlen1 Hframe1].
  destruct (access_keeps_identity _ _ _ _ _ _ Hacc) as (_ & Hs & Hp & _).
  assert (frames [Cache.stats c; ReplacementPolicy.stats (Cache.policy c)]
            ('(cache, results) ← run c1 trace; mret (cache, res :: results)))
    as Hf.
  { apply frames_bind; [rewrite <- Hs, <- Hp; apply IH|].
    intros [c2 results]. apply frames_ret. }
  destruct (Hf _ _ _ Hrest) as [Hlen2 Hframe2].
  split; [lia|]. intros l Hl Hlt.
  rewrite Hframe2 by (done || lia). by apply Hframe1.
Qed.

(** X12. However a trace of accesses ends, with a result or with an
    exception, it has deleted no dictionary and has written to no
    dictionary that existed before other than the cache's [stats] and the
    policy's [stats]. *)
Theorem accesses_write_only_their_counters c trace w w' r l :
  run c trace w = (w', r) ->
  l <> Cache.stats c -> l <> ReplacementPolicy.stats (Cache.policy c) ->
  (l < length (dicts w))%nat ->
  (length (dicts w) <= length (dicts w'))%nat /\ dicts w' !! l = dicts w !! l.
Proof.
  intros Hrun Hs Hp Hl.
  destruct (frames_run trace c _ _ _ Hrun) as [Hlen Hframe].
  split; [done|]. apply Hframe; [by apply not_elem_of_pair|done].
Qed.

(** X13. The dictionary [get_stats] returned is not touched by later
    accesses: whatever trace runs afterwards and however it ends, the
    dictionary still holds the statistics of the moment it was taken. *)
Theorem snapshot_outlives_accesses c w a h m r pa ph trace :
  counts w c a h m r pa ph ->
  exists w1 snapshot,
    Cache.get_stats c w = (w1, Ok snapshot) /\
    dicts w1 !! snapshot = Some (stats_dict c a h m r) /\
    forall w2 res,
      run c trace w1 = (w2, res) ->
      dicts w2 !! snapshot = Some (stats_dict c a h m r).
Proof.
  intros Hc. pose proof (get_stats_ok c w a h m r pa ph Hc) as Hstats.
  destruct Hc as (Ha & _ & _ & _ & Hpa & _).
  apply int_at_lt in Ha, Hpa.
  eexists _, _. split; [exact Hstats|].
  split; [apply lookup_alloc_new|].
  intros w2 res Hrun.
  destruct (frames_run trace c _ _ _ Hrun) as [_ Hframe].
  rewrite Hframe; [apply lookup_alloc_new|apply not_elem_of_pair; lia|].
  rewrite length_alloc. lia.
Qed.

(** ** Debug mode *)

Lemma debug_line_config c c' address :
  Cache.config c' = Cache.config c -> debug_line c' address = debug_line c address.
Proof. unfold debug_line, set_index_of, tag_of. by intros ->. Qed.

Lemma run_console c w trace a h m r pa ph :
  well_formed c -> 1 <= CacheConfig.associativity (Cache.config c) ->
  counts w c a h m r pa ph ->
  exists w' c' results,
    run c trace w = (w', Ok (c', results)) /\
    Cache.debug_mode c' = Cache.debug_mode c /\
    stdout w' = stdout w ++
      (if Cache.debug_mode c then debug_line c <$> trace else []).
Proof.
  intros Hwf Hassoc Hc.
  pose (J := fun (w' : World) (c' : Cache.t) (done : list Z) (_ : list Obs) =>
    Cache.config c' = Cache.config c /\
    Cache.debug_mode c' = Cache.debug_mode c /\
    stdout w' = stdout w ++
      (if Cache.debug_mode c then debug_line c <$> done else [])).
  destruct (observe_total J trace c w a h m r pa ph)
    as (w' & c' & obs & _ & Hrun & (_ & Hmode & Hout) & _); try done.
  - intros w3 c3 address w4 d log done obs Hwf3 (Hcfg & Hmode & Hout3) _ _ _ Hout.
    unfold J. cbn [stepped Cache.config Cache.debug_mode].
    split; [done|]. split; [done|].
    rewrite Hout, Hout3, Hmode, (debug_line_config c c3 address Hcfg).
    rewrite <- app_assoc. f_equal.
    destruct (Cache.debug_mode c); [by rewrite fmap_app|done].
  - unfold J. split; [done|]. split; [done|].
    destruct (Cache.debug_mode c); cbn; by rewrite app_nil_r.
  - by exists w', c', (obs_result <$> obs).
Qed.

(** X14. After [debug_on] every access of a trace prints one line, in the
    order of the trace, with the address, the set index and the tag; after
    [debug_off] the accesses print nothing.  The accesses leave the flag
    as the toggle set it. *)
Theorem debug_mode_prints_each_access c w trace (on : bool) a h m r pa ph :
  well_formed c -> 1 <= CacheConfig.associativity (Cache.config c) ->
  counts w c a h m r pa ph ->
  exists w1 c1 w2 c2 results,
    (if on then Cache.debug_on c else Cache.debug_off c) w = (w1, Ok c1) /\
    run c1 trace w1 = (w2, Ok (c2, results)) /\
    Cache.debug_mode c2 = on /\
    stdout w2 = stdout w ++
      (if on then DebugOnLine :: (debug_line c <$> trace) else [DebugOffLine]).
Proof.
  intros Hwf Hassoc Hc.
  set (c1 := Cache.mk (Cache.config c) (Cache.stats c) (Cache.sets c)
               (Cache.policy c) on (Cache.access_log c)).
  set (w1 := set_stdout
               (fun out => out ++ [if on then DebugOnLine else DebugOffLine]) w).
  assert (well_formed c1) as Hwf1 by by destruct Hwf.
  assert (counts w1 c1 a h m r pa ph) as Hc1.
  { destruct Hc as (? & ? & ? & ? & ? & ?).
    unfold counts, policy_counts, w1. cbn [Cache.stats Cache.policy c1].
    by rewrite !int_at_set_stdout. }
  destruct (run_console c1 w1 trace a h m r pa ph Hwf1 Hassoc Hc1)
    as (w2 & c2 & results & Hrun & Hmode & Hout).
  exists w1, c1, w2, c2, results.
  split; [by destruct on|]. split; [done|]. split; [done|].
  rewrite Hout. cbn [c1 w1 Cache.debug_mode stdout set_stdout].
  rewrite <- app_assoc.
  destruct on; reflexivity.
Qed.

(** ** First and repeated touches *)

Lemma decided_subset c blocks tag assoc d t :
  decided c blocks tag assoc d -> t ∈ fst d -> t = tag \/ t ∈ blocks.
Proof.
  intros Hdec Ht. pose proof (decided_perm _ _ _ _ _ Hdec) as Hperm.
  destruct d as [blocks' [res [x|]]]; cbn in *.
  - destruct Hperm as [_ Hperm]. apply elem_of_cons.
    rewrite <- Hperm. by right.
  - destruct (String.eqb res "HIT").
    + right. by rewrite <- Hperm.
    + apply elem_of_cons. by rewrite <- Hperm.
Qed.

Lemma same_line_same_block c a1 a2 :
  1 <= CacheConfig.num_sets (Cache.config c) ->
  Z.to_nat (set_index_of c a1) = Z.to_nat (set_index_of c a2) ->
  tag_of c a1 = tag_of c a2 ->
  a1 / CacheConfig.block_size_bytes (Cache.config c) =
  a2 / CacheConfig.block_size_bytes (Cache.config c).
Proof.
  unfold set_index_of, tag_of. intros Hns Hset Htag.
  set (bs := CacheConfig.block_size_bytes (Cache.config c)) in *.
  set (ns := CacheConfig.num_sets (Cache.config c)) in *.
  pose proof (Z.mod_pos_bound (a1 / bs) ns).
  pose proof (Z.mod_pos_bound (a2 / bs) ns).
  apply Z2Nat.inj in Hset; [|lia|lia].
  rewrite (Z.div_mod (a1 / bs) ns), (Z.div_mod (a2 / bs) ns) by lia.
  by rewrite Hset, Htag.
Qed.

Lemma observe_first_touch c trace w w' c' obs :
  well_formed c -> Forall (fun blocks => blocks = []) (Cache.sets c) ->
  observe c trace w = (w', Ok (c', obs)) ->
  forall i address o,
    trace !! i = Some address -> obs !! i = Some o ->
    (forall j earlier, (j < i)%nat -> trace !! j = Some earlier ->
       earlier / CacheConfig.block_size_bytes (Cache.config c)
       <> address / CacheConfig.block_size_bytes (Cache.config c)) ->
    obs_result o = "MISS".
Proof.
  intros Hwf Hempty Hobs.
  pose (J := fun (_ : World) (c1 : Cache.t) (done : list Z) (obs : list Obs) =>
    Cache.config c1 = Cache.config c /\
    length obs = length done /\
    (forall k blocks t, Cache.sets c1 !! k = Some blocks -> t ∈ blocks ->
       exists a', a' ∈ done /\ Z.to_nat (set_index_of c a') = k /\
                  tag_of c a' = t) /\
    (forall i a o, done !! i = Some a -> obs !! i = Some o ->
       (forall j a', (j < i)%nat -> done !! j = Some a' ->
          a' / CacheConfig.block_size_bytes (Cache.config c)
          <> a / CacheConfig.block_size_bytes (Cache.config c)) ->
       obs_result o = "MISS")).
  assert (preserved J) as Hstep.
  { intros w3 c3 address w4 d log done obs3 Hwf3 (Hcfg & Hlen & Hres & Hfirst)
      _ Hdec _ _.
    pose proof (set_index_in_range c3 address Hwf3) as Hrange.
    unfold J. cbn [stepped Cache.config Cache.sets].
    split; [done|]. split; [rewrite !length_app; cbn; lia|]. split.
    + intros k blocks t Hk Ht.
      destruct (decide (k = Z.to_nat (set_index_of c3 address))) as [->|Hne].
      * rewrite list_lookup_insert_eq in Hk by (unfold len in Hrange; lia).
        injection Hk as <-.
        destruct (decided_subset _ _ _ _ _ _ Hdec Ht) as [->|Hin].
        -- exists address. split; [apply elem_of_app; right; by left|].
           by rewrite (set_index_of_config c c3), (tag_of_config c c3).
        -- destruct (Hres _ _ _ (target_lookup c3 address Hwf3) Hin)
             as (a' & Ha' & Hset & Htag).
           exists a'. split; [apply elem_of_app; by left|done].
      * rewrite list_lookup_insert_ne in Hk by done.
        destruct (Hres _ _ _ Hk Ht) as (a' & Ha' & Hset & Htag).
        exists a'. split; [apply elem_of_app; by left|done].
    + intros i a0 o Hi Ho Hfresh.
      destruct (decide (i < length done)%nat) as [Hlt|Hge].
      * rewrite lookup_app_l in Hi by done. rewrite lookup_app_l in Ho by lia.
        apply (Hfirst i a0 o Hi Ho). intros j a' Hj Ha'.
        apply (Hfresh j a' Hj). by apply lookup_app_l_Some.
      * assert (i = length done) as ->.
        { apply lookup_lt_Some in Hi. rewrite length_app in Hi. cbn in Hi. lia. }
        rewrite list_lookup_middle in Hi by done. injection Hi as <-.
        rewrite list_lookup_middle in Ho by done. injection Ho as <-.
        cbn [obs_result].
        destruct (decided_resident _ _ _ _ _ Hdec) as (_ & Hmiss & _).
        apply Hmiss. intros Hin.
        destruct (Hres _ _ _ (target_lookup c3 address Hwf3) Hin)
          as (a' & Ha' & Hset & Htag).
        apply list_elem_of_lookup_1 in Ha' as [j Hj].
        apply (Hfresh j a'); [by eapply lookup_lt_Some|by apply lookup_app_l_Some|].
        apply same_line_same_block.
        -- by destruct Hwf.
        -- by rewrite Hset, (set_index_of_config c c3).
        -- by rewrite Htag, (tag_of_config c c3). }
  assert (J w c [] []) as Hinit.
  { unfold J. split; [done|]. split; [done|]. split.
    - intros k blocks t Hk Ht.
      rewrite Forall_forall in Hempty.
      rewrite (Hempty blocks) in Ht by by eapply list_elem_of_lookup_2.
      by apply not_elem_of_nil in Ht.
    - intros i a0 o Hi. done. }
  destruct (observe_invariant J Hstep trace c w [] [] w' c' obs Hwf Hinit Hobs)
    as (_ & _ & _ & Hfirst).
  exact Hfirst.
Qed.

Lemma observe_next_touch c trace w w' c' obs :
  well_formed c ->
  observe c trace w = (w', Ok (c', obs)) ->
  forall i a a' o,
    trace !! i = Some a -> trace !! S i = Some a' -> obs !! S i = Some o ->
    a / CacheConfig.block_size_bytes (Cache.config c)
    = a' / CacheConfig.block_size_bytes (Cache.config c) ->
    obs_result o = "HIT".
Proof.
  intros Hwf Hobs.
  pose (J := fun (_ : World) (c1 : Cache.t) (done : list Z) (obs : list Obs) =>
    Cache.config c1 = Cache.config c /\
    length obs = length done /\
    (forall a, last done = Some a -> tag_of c a ∈ target c1 a) /\
    (forall i a a' o,
       done !! i = Some a -> done !! S i = Some a' -> obs !! S i = Some o ->
       a / CacheConfig.block_size_bytes (Cache.config c)
       = a' / CacheConfig.block_size_bytes (Cache.config c) ->
       obs_result o = "HIT")).
  assert (preserved J) as Hstep.
  { intros w3 c3 address w4 d log done obs3 Hwf3 (Hcfg & Hlen & Hlast & Hnext)
      _ Hdec _ _.
    destruct (decided_resident _ _ _ _ _ Hdec) as (Hhit & _ & Hin).
    unfold J. cbn [stepped Cache.config].
    split; [done|]. split; [rewrite !length_app; cbn; lia|]. split.
    + intros a Ha. rewrite last_snoc in Ha. injection Ha as <-.
      rewrite target_stepped_same by done.
      by rewrite <- (tag_of_config c c3).
    + intros i a a' o Hi Hi' Ho Hblock.
      destruct (decide (S i < length done)%nat) as [Hlt|Hge].
      * rewrite lookup_app_l in Hi by lia. rewrite lookup_app_l in Hi' by done.
        rewrite lookup_app_l in Ho by lia. by apply (Hnext i a a' o).
      * assert (S i = length done) as Heq.
        { apply lookup_lt_Some in Hi'. rewrite length_app in Hi'. cbn in Hi'. lia. }
        rewrite Heq in Hi', Ho.
        rewrite list_lookup_middle in Hi' by done. injection Hi' as <-.
        rewrite list_lookup_middle in Ho by done. injection Ho as <-.
        rewrite lookup_app_l in Hi by lia.
        assert (last done = Some a) as Hla.
        { rewrite last_lookup. by replace (pred (length done)) with i by lia. }
        specialize (Hlast a Hla). cbn [obs_result]. apply Hhit.
        assert (set_index_of c3 address = set_index_of c3 a) as Hset.
        { rewrite !(set_index_of_config c c3) by done.
          unfold set_index_of. by rewrite Hblock. }
        assert (tag_of c3 address = tag_of c a) as Htag.
        { rewrite (tag_of_config c c3) by done. unfold tag_of. by rewrite Hblock. }
        rewrite Htag. unfold target in *. by rewrite Hset. }
  assert (J w c [] []) as Hinit.
  { unfold J. split; [done|]. split; [done|]. split; [done|].
    intros i a a' o Hi. done. }
  destruct (observe_invariant J Hstep trace c w [] [] w' c' obs Hwf Hinit Hobs)
    as (_ & _ & _ & Hnext).
  exact Hnext.
Qed.

Lemma observe_returns c w trace a h m r pa ph :
  well_formed c -> 1 <= CacheConfig.associativity (Cache.config c) ->
  counts w c a h m r pa ph ->
  exists w' c' obs,
    observe c trace w = (w', Ok (c', obs)) /\
    run c trace w = (w', Ok (c', obs_result <$> obs)) /\
    length obs = length trace.
Proof.
  intros Hwf Hassoc Hc.
  destruct (observe_total (fun _ _ _ _ => True) trace c w a h m r pa ph)
    as (w' & c' & obs & Hobs & Hrun & _ & _ & _ & _ & _ & Hlen & _); try done.
  by exists w', c', obs.
Qed.

(** X15. On a cache built from a valid configuration with at least one way
    per set, an access to a block that no earlier access of the trace has
    touched misses: the cache never hits on a block it has not been asked
    for before. *)
Theorem first_touch_misses kb bs assoc name trace w :
  valid_config kb bs assoc -> 1 <= assoc ->
  exists w1 cache w2 cache' results,
    build kb bs assoc name w = (w1, Ok cache) /\
    run cache trace w1 = (w2, Ok (cache', results)) /\
    length results = length trace /\
    forall i address,
      trace !! i = Some address ->
      (forall j earlier, (j < i)%nat -> trace !! j = Some earlier ->
                         earlier / bs <> address / bs) ->
      results !! i = Some "MISS".
Proof.
  intros Hvalid Hassoc.
  destruct (build_ok kb bs assoc name w) as (w0 & w1 & Hbuild & Hc).
  { destruct Hvalid as (_ & ? & _). lia. }
  pose proof (valid_config_wf kb bs assoc name w0 Hvalid) as Hwf.
  set (cache := fresh_cache (fresh_config kb bs assoc) name w0) in *.
  destruct (observe_returns cache w1 trace 0 0 0 0 0 0 Hwf Hassoc Hc)
    as (w2 & c' & obs & Hobs & Hrun & Hlen).
  exists w1, cache, w2, c', (obs_result <$> obs).
  split; [done|]. split; [done|]. split; [by rewrite length_fmap|].
  intros i address Hi Hfresh.
  destruct (lookup_lt_is_Some_2 obs i) as [o Ho].
  { rewrite Hlen. by eapply lookup_lt_Some. }
  rewrite list_lookup_fmap, Ho. cbn. f_equal.
  apply (observe_first_touch cache trace w1 w2 c' obs Hwf) with (i := i) (address := address);
    try done.
  apply Forall_forall. intros blocks Hin.
  apply list_elem_of_lookup_1 in Hin as [k Hk].
  by apply lookup_replicate in Hk as [-> _].
Qed.

(** X16. On every well-formed cache with at least one way per set, under
    every policy, an access to the block that the access just before it
    touched hits. *)
Theorem next_touch_hits c w trace a h m r pa ph :
  well_formed c -> 1 <= CacheConfig.associativity (Cache.config c) ->
  counts w c a h m r pa ph ->
  exists w' c' results,
    run c trace w = (w', Ok (c', results)) /\
    length results = length trace /\
    forall i address address',
      trace !! i = Some address -> trace !! S i = Some address' ->
      address / CacheConfig.block_size_bytes (Cache.config c)
      = address' / CacheConfig.block_size_bytes (Cache.config c) ->
      results !! S i = Some "HIT".
Proof.
  intros Hwf Hassoc Hc.
  destruct (observe_returns c w trace a h m r pa ph Hwf Hassoc Hc)
    as (w' & c' & obs & Hobs & Hrun & Hlen).
  exists w', c', (obs_result <$> obs).
  split; [done|]. split; [by rewrite length_fmap|].
  intros i address address' Hi Hi' Hblock.
  destruct (lookup_lt_is_Some_2 obs (S i)) as [o Ho].
  { rewrite Hlen. by eapply lookup_lt_Some. }
  rewrite list_lookup_fmap, Ho. cbn. f_equal.
  by apply (observe_next_touch c trace w w' c' obs Hwf Hobs i address address' o).
Qed.

(** ** Working sets that fit *)

Lemma tags_of_set_intro c trace a :
  a ∈ trace -> tag_of c a ∈ tags_of_set c trace (set_index_of c a).
Proof.
  intros Ha. unfold tags_of_set. rewrite elem_of_remove_dups.
  apply list_elem_of_fmap_2. by apply list_elem_of_filter.
Qed.

Lemma tags_of_set_app_l c done rest s :
  (length (tags_of_set c done s) <= length (tags_of_set c (done ++ rest) s))%nat.
Proof.
  apply submseteq_length, NoDup_submseteq; [apply NoDup_remove_dups|].
  intros t Ht. unfold tags_of_set in *. rewrite elem_of_remove_dups in Ht.
  rewrite elem_of_remove_dups, filter_app, fmap_app.
  apply elem_of_app. by left.
Qed.

Lemma fits_app_l c done rest : fits c (done ++ rest) -> fits c done.
Proof.
  unfold fits. intros Hfits. apply Forall_app in Hfits as [Hfits _].
  eapply Forall_impl; [exact Hfits|]. intros a Ha. cbn in Ha.
  pose proof (tags_of_set_app_l c done rest (set_index_of c a)).
  unfold len in *. lia.
Qed.

Lemma set_index_to_nat_inj c a1 a2 :
  1 <= CacheConfig.num_sets (Cache.config c) ->
  Z.to_nat (set_index_of c a1) = Z.to_nat (set_index_of c a2) ->
  set_index_of c a1 = set_index_of c a2.
Proof.
  unfold set_index_of. intros Hns Heq.
  set (bs := CacheConfig.block_size_bytes (Cache.config c)) in *.
  set (ns := CacheConfig.num_sets (Cache.config c)) in *.
  pose proof (Z.mod_pos_bound (a1 / bs) ns).
  pose proof (Z.mod_pos_bound (a2 / bs) ns).
  apply Z2Nat.inj in Heq; lia.
Qed.

Lemma observe_fits c trace w w' c' obs :
  well_formed c -> Forall (fun blocks => blocks = []) (Cache.sets c) ->
  observe c trace w = (w', Ok (c', obs)) ->
  fits c trace ->
  Forall (fun o => obs_replaced o = None) obs /\
  forall i j a a' o,
    (j < i)%nat -> trace !! j = Some a' -> trace !! i = Some a ->
    obs !! i = Some o ->
    a' / CacheConfig.block_size_bytes (Cache.config c)
    = a / CacheConfig.block_size_bytes (Cache.config c) ->
    obs_result o = "HIT".
Proof.
  intros Hwf Hempty Hobs.
  pose (J := fun (_ : World) (c1 : Cache.t) (done : list Z) (obs : list Obs) =>
    Cache.config c1 = Cache.config c /\
    length obs = length done /\
    (fits c done ->
     (forall k blocks, Cache.sets c1 !! k = Some blocks ->
        NoDup blocks /\
        forall t, t ∈ blocks ->
          exists a', a' ∈ done /\ Z.to_nat (set_index_of c a') = k /\
                     tag_of c a' = t) /\
     (forall a', a' ∈ done -> tag_of c a' ∈ target c1 a') /\
     Forall (fun o => obs_replaced o = None) obs /\
     (forall i j a a' o,
        (j < i)%nat -> done !! j = Some a' -> done !! i = Some a ->
        obs !! i = Some o ->
        a' / CacheConfig.block_size_bytes (Cache.config c)
        = a / CacheConfig.block_size_bytes (Cache.config c) ->
        obs_result o = "HIT"))).
  assert (preserved J) as Hstep.
  { intros w3 c3 address w4 d log done obs3 Hwf3 (Hcfg & Hlen & HJ) _ Hdec _ _.
    unfold J. cbn [stepped Cache.config Cache.sets].
    split; [done|]. split; [rewrite !length_app; cbn; lia|].
    intros Hfits.
    destruct (HJ (fits_app_l c done [address] Hfits))
      as (Hres & Htouched & Hnone & Hhit).
    pose proof (set_index_in_range c3 address Hwf3) as Hrange.
    pose proof (target_lookup c3 address Hwf3) as Htarget.
    assert (1 <= CacheConfig.num_sets (Cache.config c)) as Hns by by destruct Hwf.
    destruct (Hres _ _ Htarget) as [Hnd Hfrom].
    destruct (decided_resident _ _ _ _ _ Hdec) as (Hishit & Hismiss & Hnew).
    pose proof (decided_perm _ _ _ _ _ Hdec) as Hperm.
    (* nothing is replaced *)
    assert (snd (snd d) = None) as Hkeep.
    { destruct (decided_shape _ _ _ _ _ Hdec) as [[_ Hev]|[Hmiss Hev]]; [done|].
      destruct (snd (snd d)) as [x|] eqn:Hx; [exfalso|done].
      apply Hev; [by eexists|].
      apply Hismiss in Hmiss.
      assert (NoDup (tag_of c3 address :: target c3 address)) as Hnd'
        by by apply NoDup_cons.
      assert (tag_of c3 address :: target c3 address
              ⊆+ tags_of_set c (done ++ [address]) (set_index_of c address))
        as Hsub.
      { apply NoDup_submseteq; [done|]. intros t Ht.
        apply elem_of_cons in Ht as [->|Ht].
        - rewrite (tag_of_config c c3) by done. apply tags_of_set_intro.
          apply elem_of_app. right. by left.
        - destruct (Hfrom t Ht) as (a' & Ha' & Hset & <-).
          rewrite (set_index_of_config c c3) in Hset by done.
          rewrite <- (set_index_to_nat_inj c a' address Hns Hset).
          apply tags_of_set_intro. apply elem_of_app. by left. }
      apply submseteq_length in Hsub. cbn in Hsub.
      unfold fits in Hfits. apply Forall_app in Hfits as [_ Hfits].
      apply Forall_inv in Hfits.
      rewrite Hcfg. unfold len in *. lia. }
    assert (forall t, t ∈ fst d <-> t = tag_of c3 address \/ t ∈ target c3 address)
      as Hmem.
    { intros t. destruct d as [blocks' [res repl]]. cbn in *. subst repl.
      destruct (String.eqb res "HIT") eqn:Hres'.
      - apply String.eqb_eq in Hres'. subst res. rewrite Hperm.
        split; [by right|]. intros [->|Ht]; [by apply Hishit|done].
      - rewrite Hperm. apply elem_of_cons. }
    assert (NoDup (fst d)) as Hnd1.
    { destruct d as [blocks' [res repl]]. cbn in *. subst repl.
      destruct (String.eqb res "HIT") eqn:Hres'.
      - by rewrite Hperm.
      - rewrite Hperm. apply NoDup_cons. split; [|done].
        apply Hismiss. destruct (decided_shape _ _ _ _ _ Hdec) as [[Hh _]|[Hm _]];
          cbn in *; [|done]. subst res. done. }
    split; [|split; [|split]].
    - intros k blocks Hk.
      destruct (decide (k = Z.to_nat (set_index_of c3 address))) as [->|Hne].
      + rewrite list_lookup_insert_eq in Hk by (unfold len in Hrange; lia).
        injection Hk as <-. split; [done|].
        intros t Ht. apply Hmem in Ht as [->|Ht].
        * exists address. split; [apply elem_of_app; right; by left|].
          by rewrite (set_index_of_config c c3), (tag_of_config c c3).
        * destruct (Hfrom t Ht) as (a' & Ha' & Hset & Htag).
          exists a'. split; [apply elem_of_app; by left|done].
      + rewrite list_lookup_insert_ne in Hk by done.
        destruct (Hres _ _ Hk) as [Hndk Hfromk]. split; [done|].
        intros t Ht. destruct (Hfromk t Ht) as (a' & Ha' & Hset & Htag).
        exists a'. split; [apply elem_of_app; by left|done].
    - intros a' Ha'. apply elem_of_app in Ha' as [Ha'|Ha'].
      + specialize (Htouched a' Ha').
        destruct (decide (set_index_of c3 a' = set_index_of c3 address)) as [Heq|Hne].
        * rewrite target_stepped_same by done. apply Hmem. right.
          unfold target in *. by rewrite <- Heq.
        * by rewrite target_stepped_other.
      + apply list_elem_of_singleton in Ha' as ->.
        rewrite target_stepped_same by done.
        by rewrite <- (tag_of_config c c3).
    - apply Forall_app_2; [done|]. by apply Forall_cons_2.
    - intros i j a a' o Hj Ha' Ha Ho Hblock.
      destruct (decide (i < length done)%nat) as [Hlt|Hge].
      + rewrite lookup_app_l in Ha by done. rewrite lookup_app_l in Ha' by lia.
        rewrite lookup_app_l in Ho by lia. by apply (Hhit i j a a' o).
      + assert (i = length done) as ->.
        { apply lookup_lt_Some in Ha. rewrite length_app in Ha. cbn in Ha. lia. }
        rewrite list_lookup_middle in Ha by done. injection Ha as <-.
        rewrite list_lookup_middle in Ho by done. injection Ho as <-.
        rewrite lookup_app_l in Ha' by done.
        cbn [obs_result]. apply Hishit.
        specialize (Htouched a' (list_elem_of_lookup_2 _ _ _ Ha')).
        assert (set_index_of c3 address = set_index_of c3 a') as Hset.
        { rewrite !(set_index_of_config c c3) by done.
          unfold set_index_of. by rewrite Hblock. }
        assert (tag_of c3 address = tag_of c a') as Htag.
        { rewrite (tag_of_config c c3) by done. unfold tag_of. by rewrite Hblock. }
        rewrite Htag. unfold target in *. by rewrite Hset. }
  assert (J w c [] []) as Hinit.
  { unfold J. split; [done|]. split; [done|]. intros _. split; [|split; [|split]].
    - intros k blocks Hk. rewrite Forall_forall in Hempty.
      rewrite (Hempty blocks) by by eapply list_elem_of_lookup_2.
      split; [apply NoDup_nil_2|]. intros t Ht. by apply not_elem_of_nil in Ht.
    - intros a' Ha'. by apply not_elem_of_nil in Ha'.
    - done.
    - intros i j a a' o _ Hj. done. }
  destruct (observe_invariant J Hstep trace c w [] [] w' c' obs Hwf Hinit Hobs)
    as (_ & _ & HJ).
  intros Hfits. destruct (HJ Hfits) as (_ & _ & Hnone & Hhit). by split.
Qed.

Lemma count_evicts_none obs :
  Forall (fun o => obs_replaced o = None) obs -> count obs_evicts obs = 0.
Proof.
  induction 1 as [|o obs Ho _ IH]; [done|].
  cbn. unfold obs_evicts at 1. by rewrite Ho, IH.
Qed.

(** X17. When no set of a cache that starts empty is asked to hold more
    distinct tags than it has ways, the trace runs without a single
    replacement under every policy, and every access to a block that an
    earlier access touched hits: all misses are first touches. *)
Theorem fitting_trace_only_misses_first_touches c w trace a h m r pa ph :
  well_formed c -> 1 <= CacheConfig.associativity (Cache.config c) ->
  counts w c a h m r pa ph ->
  Forall (fun blocks => blocks = []) (Cache.sets c) ->
  fits c trace ->
  exists w' c' results,
    run c trace w = (w', Ok (c', results)) /\
    int_at w' (Cache.stats c') "replacements" = Some r /\
    forall i j address earlier,
      (j < i)%nat -> trace !! j = Some earlier -> trace !! i = Some address ->
      earlier / CacheConfig.block_size_bytes (Cache.config c)
      = address / CacheConfig.block_size_bytes (Cache.config c) ->
      results !! i = Some "HIT".
Proof.
  intros Hwf Hassoc Hc Hempty Hfits.
  destruct (observe_total (fun _ _ _ _ => True) trace c w a h m r pa ph)
    as (w' & c' & obs & Hobs & Hrun & _ & _ & _ & _ & _ & Hlen & _ & Hc');
    try done.
  destruct (observe_fits c trace w w' c' obs Hwf Hempty Hobs Hfits)
    as [Hnone Hhit].
  exists w', c', (obs_result <$> obs). split; [done|]. split.
  - destruct Hc' as (_ & _ & _ & Hr & _).
    by rewrite (count_evicts_none obs Hnone), Z.add_0_r in Hr.
  - intros i j address earlier Hj Hearlier Hi Hblock.
    destruct (lookup_lt_is_Some_2 obs i) as [o Ho].
    { rewrite Hlen. by eapply lookup_lt_Some. }
    rewrite list_lookup_fmap, Ho. cbn. f_equal.
    by apply (Hhit i j address earlier o).
Qed.

(** ** What LRU keeps *)

Lemma lastn_all {A} n (l : list A) : (length l <= n)%nat -> lastn n l = l.
Proof. intros H. unfold lastn. by replace (length l - n)%nat with 0%nat by lia. Qed.

Lemma lastn_app {A} n (l1 l2 : list A) : length l2 = n -> lastn n (l1 ++ l2) = l2.
Proof.
  intros H. unfold lastn. rewrite length_app.
  replace (length l1 + length l2 - n)%nat with (length l1) by lia.
  by rewrite drop_app_length.
Qed.

Lemma lastn_kept {A} n (l1 l2 : list A) :
  length l2 = Nat.min n (length (l1 ++ l2)) -> lastn n (l1 ++ l2) = l2.
Proof.
  rewrite length_app. intros H. unfold lastn. rewrite length_app.
  replace (length l1 + length l2 - n)%nat with (length l1) by lia.
  by rewrite drop_app_length.
Qed.

Lemma lastn_split {A} n (l : list A) :
  exists older, l = older ++ lastn n l /\
                length (lastn n l) = Nat.min n (length l).
Proof.
  exists (take (length l - n) l). unfold lastn. split.
  - by rewrite take_drop.
  - rewrite length_drop. lia.
Qed.

Lemma filter_ne_id (t : Z) (l : list Z) : t ∉ l -> filter (fun x => x <> t) l = l.
Proof.
  induction l as [|x l IH]; [done|]. intros Hnin.
  apply not_elem_of_cons in Hnin as [Hne Hnin].
  rewrite filter_cons_True by done. by rewrite IH.
Qed.

Lemma filter_ne_middle (t : Z) (pre post : list Z) :
  t ∉ pre -> t ∉ post ->
  filter (fun x => x <> t) (pre ++ t :: post) = pre ++ post.
Proof.
  intros Hpre Hpost. rewrite filter_app, filter_cons_False by (by intros ?).
  by rewrite !filter_ne_id.
Qed.

Lemma recency_step_NoDup (order : list Z) t :
  NoDup order -> NoDup (filter (fun x => x <> t) order ++ [t]).
Proof.
  intros Hnd. apply NoDup_app. split; [by apply NoDup_filter|]. split.
  - intros x Hx Hin. apply list_elem_of_singleton in Hin as ->.
    by apply list_elem_of_filter in Hx as [Hne _].
  - apply NoDup_singleton.
Qed.

(** One decision of LRU, in terms of the order of last uses. *)
Lemma lru_step_recency (order : list Z) n t d :
  NoDup order -> (1 <= n)%nat ->
  decided ReplacementPolicy.LRU (lastn n order) t (Z.of_nat n) d ->
  fst d = lastn n (filter (fun x => x <> t) order ++ [t]).
Proof.
  intros Hnd Hn Hdec.
  destruct (lastn_split n order) as (older & Horder & Hlen).
  remember (lastn n order) as kept eqn:Hkept. clear Hkept.
  destruct Hdec as [pre post _ Hb Hpre | Hc _ | Hnin Hfew
                   | x rest _ Hnin Hfull Hb | i x Hc _ _ _]; try done; cbn [fst].
  - subst order kept.
    apply NoDup_app in Hnd as (_ & Hdisj & Hnd).
    apply NoDup_app in Hnd as (_ & _ & Hnd). apply NoDup_cons in Hnd as [Hpost _].
    assert (t ∉ older) as Hold.
    { intros Hin. apply (Hdisj t Hin). apply elem_of_app. right. by left. }
    rewrite filter_app, (filter_ne_id t older Hold), filter_ne_middle by done.
    rewrite <- !app_assoc.
    symmetry. apply (lastn_kept n older (pre ++ post ++ [t])).
    rewrite !length_app in Hlen. cbn in Hlen.
    rewrite !length_app. cbn. lia.
  - unfold len in Hfew.
    assert (older = []) as ->.
    { destruct older; [done|]. rewrite Horder, length_app in Hlen. cbn in Hlen. lia. }
    cbn in Horder. subst order. rewrite filter_ne_id by done.
    symmetry. apply lastn_all. rewrite length_app. cbn. lia.
  - unfold len in Hfull.
    assert (length kept = n) as Hkept by lia.
    subst order kept.
    rewrite filter_app, (filter_ne_id t (x :: rest) Hnin).
    rewrite <- app_assoc. cbn.
    symmetry.
    rewrite (cons_middle x (filter (fun y => y <> t) older) (rest ++ [t])).
    rewrite (app_assoc (filter (fun y => y <> t) older) [x] (rest ++ [t])).
    apply lastn_app.
    cbn in Hkept. rewrite length_app. cbn. lia.
Qed.

Lemma lru_run_recency p n tags : forall order w a h,
  (1 <= n)%nat -> NoDup order -> policy_counts w p a h ->
  exists w' results,
    policy_run (LRUPolicy.access p) (lastn n order) tags (Z.of_nat n) w =
      (w', Ok (lastn n (recency order tags), results)) /\
    length results = length tags /\
    forall i t, tags !! i = Some t ->
      results !! i =
        Some (if bool_decide (t ∈ lastn n (recency order (take i tags)))
              then "HIT" else "MISS").
Proof.
  induction tags as [|t tags IH]; intros order w a h Hn Hnd Hc.
  - exists w, []. split; [done|]. split; [done|]. intros i t Hi. done.
  - destruct (LRU_access_ok p (lastn n order) t (Z.of_nat n) w a h Hc)
      as (w1 & d & Hacc & Hdec & Hpost); [right; lia|].
    destruct Hpost as (Hc1 & _).
    pose proof (lru_step_recency order n t d Hnd Hn Hdec) as Hfst.
    destruct (IH _ w1 _ _ Hn (recency_step_NoDup order t Hnd) Hc1)
      as (w2 & results & Hrun & Hlen & Hres).
    exists w2, (fst (snd d) :: results).
    rewrite (policy_run_cons _ _ _ _ _ _ _ _ Hacc), Hfst, Hrun.
    split; [done|]. split; [cbn; lia|].
    intros [|i] t' Hi.
    + injection Hi as <-. cbn.
      destruct (decided_resident _ _ _ _ _ Hdec) as (Hhit & Hmiss & _).
      case_bool_decide as Hin; f_equal; [by apply Hhit|by apply Hmiss].
    + cbn in Hi |- *. by apply Hres.
Qed.

(** X18. [LRUPolicy.access], run over any sequence of tags on a set that
    starts empty, keeps exactly the [associativity] most recently used
    distinct tags, the least recently used first; and a use hits exactly
    when its tag is among the [associativity] most recently used distinct
    tags of the uses before it. *)
Theorem lru_keeps_most_recent p tags assoc w a h :
  policy_counts w p a h -> 1 <= assoc ->
  exists w' results,
    policy_run (LRUPolicy.access p) [] tags assoc w =
      (w', Ok (lastn (Z.to_nat assoc) (recency [] tags), results)) /\
    length results = length tags /\
    forall i t, tags !! i = Some t ->
      results !! i =
        Some (if bool_decide
                   (t ∈ lastn (Z.to_nat assoc) (recency [] (take i tags)))
              then "HIT" else "MISS").
Proof.
  intros Hc Hassoc.
  destruct (lru_run_recency p (Z.to_nat assoc) tags [] w a h)
    as (w' & results & Hrun & Hrest); [lia|apply NoDup_nil_2|done|].
  exists w', results. split; [|done].
  rewrite Z2Nat.id in Hrun by lia. exact Hrun.
Qed.

Lemma lastn_mono {A} (n n' : nat) (l : list A) x :
  (n <= n')%nat -> x ∈ lastn n l -> x ∈ lastn n' l.
Proof.
  intros Hn. unfold lastn.
  replace (length l - n)%nat
    with ((length l - n') + ((length l - n) - (length l - n')))%nat by lia.
  rewrite <- drop_drop. apply subseteq_drop.
Qed.

(** X19. LRU has no anomaly: on the same sequence of tags, a set with more
    ways holds every tag that a set with fewer ways holds, and hits on
    every use on which the smaller set hits. *)
Theorem lru_more_ways_never_hurt p tags assoc assoc' w a h :
  policy_counts w p a h -> 1 <= assoc -> assoc <= assoc' ->
  exists w1 blocks results w2 blocks' results',
    policy_run (LRUPolicy.access p) [] tags assoc w = (w1, Ok (blocks, results)) /\
    policy_run (LRUPolicy.access p) [] tags assoc' w = (w2, Ok (blocks', results')) /\
    (forall t, t ∈ blocks -> t ∈ blocks') /\
    (forall i, results !! i = Some "HIT" -> results' !! i = Some "HIT").
Proof.
  intros Hc Hassoc Hle.
  destruct (lru_run_recency p (Z.to_nat assoc) tags [] w a h)
    as (w1 & results & Hrun & Hlen & Hres); [lia|apply NoDup_nil_2|done|].
  destruct (lru_run_recency p (Z.to_nat assoc') tags [] w a h)
    as (w2 & results' & Hrun' & Hlen' & Hres'); [lia|apply NoDup_nil_2|done|].
  rewrite Z2Nat.id in Hrun, Hrun' by lia. cbn [lastn length drop] in Hrun, Hrun'.
  eexists _, _, _, _, _, _. split; [exact Hrun|]. split; [exact Hrun'|]. split.
  - intros t. apply lastn_mono. lia.
  - intros i Hi.
    destruct (lookup_lt_is_Some_2 tags i) as [t Ht].
    { rewrite <- Hlen. by eapply lookup_lt_Some. }
    rewrite (Hres i t Ht) in Hi. rewrite (Hres' i t Ht).
    case_bool_decide as Hin; [|done].
    rewrite bool_decide_eq_true_2; [done|].
    revert Hin. apply lastn_mono. lia.
Qed.

(** ** What FIFO keeps *)

(** One decision of FIFO, in terms of the sequence of tags that missed. *)
Lemma fifo_step_queue (arrived : list Z) n t d :
  (1 <= n)%nat ->
  decided ReplacementPolicy.FIFO (lastn n arrived) t (Z.of_nat n) d ->
  fst d = lastn n (arrived ++ missed [t] [fst (snd d)]).
Proof.
  intros Hn Hdec.
  destruct (lastn_split n arrived) as (older & Harr & Hlen).
  remember (lastn n arrived) as kept eqn:Hkept. clear Hkept.
  destruct Hdec as [pre post Hc _ _ | _ _ | Hnin Hfew
                   | x rest _ Hnin Hfull Hb | i x Hc _ _ _]; try done; cbn.
  - rewrite app_nil_r. subst arrived. symmetry. by apply lastn_kept.
  - unfold len in Hfew.
    assert (older = []) as ->.
    { destruct older; [done|]. rewrite Harr, length_app in Hlen. cbn in Hlen. lia. }
    cbn in Harr. subst arrived.
    symmetry. apply lastn_all. rewrite length_app. cbn. lia.
  - unfold len in Hfull.
    assert (length kept = n) as Hkept by lia.
    subst arrived kept. rewrite <- app_assoc. cbn.
    symmetry.
    rewrite (cons_middle x older (rest ++ [t])).
    rewrite (app_assoc older [x] (rest ++ [t])).
    apply lastn_app. cbn in Hkept. rewrite length_app. cbn. lia.
Qed.

Lemma fifo_run_queue p n tags : forall arrived w a h,
  (1 <= n)%nat -> policy_counts w p a h ->
  exists w' results,
    policy_run (FIFOPolicy.access p) (lastn n arrived) tags (Z.of_nat n) w =
      (w', Ok (lastn n (arrived ++ missed tags results), results)) /\
    length results = length tags.
Proof.
  induction tags as [|t tags IH]; intros arrived w a h Hn Hc.
  - exists w, []. cbn. by rewrite app_nil_r.
  - destruct (FIFO_access_ok p (lastn n arrived) t (Z.of_nat n) w a h Hc)
      as (w1 & d & Hacc & Hdec & Hpost); [right; lia|].
    destruct Hpost as (Hc1 & _).
    pose proof (fifo_step_queue arrived n t d Hn Hdec) as Hfst.
    destruct (IH (arrived ++ missed [t] [fst (snd d)]) w1 _ _ Hn Hc1)
      as (w2 & results & Hrun & Hlen).
    exists w2, (fst (snd d) :: results).
    rewrite (policy_run_cons _ _ _ _ _ _ _ _ Hacc), Hfst, Hrun.
    split; [|cbn; lia].
    rewrite <- app_assoc. cbn [missed].
    by destruct (String.eqb (fst (snd d)) "MISS").
Qed.

(** X20. [FIFOPolicy.access], run over any sequence of tags on a set that
    starts empty, keeps exactly the last [associativity] tags that missed,
    in the order in which they missed: hits change nothing, and tags leave
    in the order in which they came. *)
Theorem fifo_keeps_last_missed p tags assoc w a h :
  policy_counts w p a h -> 1 <= assoc ->
  exists w' results,
    policy_run (FIFOPolicy.access p) [] tags assoc w =
      (w', Ok (lastn (Z.to_nat assoc) (missed tags results), results)) /\
    length results = length tags.
Proof.
  intros Hc Hassoc.
  destruct (fifo_run_queue p (Z.to_nat assoc) tags [] w a h)
    as (w' & results & Hrun & Hlen); [lia|done|].
  exists w', results. split; [|done].
  rewrite Z2Nat.id in Hrun by lia. exact Hrun.
Qed.

(** ** One way per set *)

(** X21. With one way per set the policy makes no difference: on a set of
    at most one tag, [access] of every policy class leaves the accessed
    tag as the only resident one, hits exactly when it was resident, and
    on a miss reports the tag that was resident, if there was one. *)
Theorem direct_mapped_policies_agree p blocks tag w a h :
  policy_counts w p a h -> len blocks <= 1 ->
  exists w',
    Cache.policy_access p blocks tag 1 w =
      (w', Ok ([tag], if contains tag blocks then ("HIT", None)
                      else ("MISS", head blocks))).
Proof.
  intros Hc Hlen.
  destruct (policy_access_ok p blocks tag 1 w a h Hc) as (w' & d & Hacc & Hdec & _);
    [by right|].
  exists w'. rewrite Hacc. f_equal. f_equal. unfold len in Hlen.
  destruct Hdec as [pre post _ Hb Hpre | _ Hin | Hnin Hfew
                   | x rest _ Hnin Hfull Hb | i x _ Hnin Hfull Hi].
  - subst blocks. rewrite length_app in Hlen. cbn in Hlen.
    destruct pre; [|cbn in Hlen; lia]. destruct post; [|cbn in Hlen; lia].
    cbn. by rewrite contains_true by by left.
  - rewrite contains_true by done.
    destruct blocks as [|x [|y blocks]]; [by apply elem_of_nil in Hin| |cbn in Hlen; lia].
    by apply list_elem_of_singleton in Hin as ->.
  - rewrite contains_false by done. unfold len in Hfew.
    destruct blocks; [done|cbn in Hfew; lia].
  - rewrite contains_false by done. subst blocks.
    destruct rest; [done|cbn in Hlen; lia].
  - rewrite contains_false by done.
    destruct blocks as [|y [|z blocks]]; [done| |cbn in Hlen; lia].
    destruct i; [|done]. injection Hi as ->. done.
Qed.

End Further.

(** ** The generator of traces *)

Lemma gbind_unfold {A B} (m : G A) (f : A -> G B) (g : GenWorld) :
  (m ≫= f) g =
  match m g with
  | (g', Ok a) => f a g'
  | (g', Raise e) => (g', Raise e)
  end.
Proof. reflexivity. Qed.

Lemma gbind_ok {A B} (m : G A) (f : A -> G B) g g' a :
  m g = (g', Ok a) -> (m ≫= f) g = f a g'.
Proof. intros H. by rewrite gbind_unfold, H. Qed.

Lemma gbind_raise {A B} (m : G A) (f : A -> G B) g g' e :
  m g = (g', Raise e) -> (m ≫= f) g = (g', Raise e).
Proof. intros H. by rewrite gbind_unfold, H. Qed.

Lemma advance_0 w : advance 0 w = w.
Proof. destruct w. unfold advance. cbn. f_equal. lia. Qed.

Lemma advance_S n w : advance n (set_drawn S w) = advance (S n) w.
Proof. unfold advance. cbn. f_equal. lia. Qed.

Lemma draws_S w max_address n :
  draws w max_address (S n) =
  (entropy w (drawn w) mod (max_address + 1)) :: draws (set_drawn S w) max_address n.
Proof.
  unfold draws. cbn [seq fmap list_fmap]. rewrite Nat.add_0_r. f_equal.
  rewrite <- seq_shift, <- list_fmap_compose. apply list_fmap_ext.
  intros i x _. cbn. f_equal. f_equal. lia.
Qed.

Lemma length_draws w max_address n : length (draws w max_address n) = n.
Proof. unfold draws. by rewrite length_fmap, length_seq. Qed.

Lemma draws_in_range w max_address n :
  0 <= max_address -> Forall (fun x => 0 <= x <= max_address) (draws w max_address n).
Proof.
  intros Hmax. unfold draws. apply Forall_fmap, Forall_forall. intros i _. cbn.
  pose proof (Z.mod_pos_bound (entropy w (drawn w + i)) (max_address + 1)). lia.
Qed.

(** The comprehension [[random.randint(0, max_address) for _ in xs]]. *)
Lemma randints_loop {A} (xs : list A) max_address : forall trace g,
  0 <= max_address ->
  for_each xs
    (fun _ trace => x ← in_world (randint 0 max_address); mret (trace ++ [x]))
    trace g =
  (mkGenWorld (advance (length xs) (world g)) (trace_out g),
   Ok (trace ++ draws (world g) max_address (length xs))).
Proof.
  induction xs as [|x xs IH]; intros trace g Hmax.
  - cbn. rewrite advance_0, app_nil_r. by destruct g.
  - assert ((x ← in_world (randint 0 max_address); mret (trace ++ [x]) : G (list Z)) g =
            (mkGenWorld (set_drawn S (world g)) (trace_out g),
             Ok (trace ++ [entropy (world g) (drawn (world g)) mod (max_address + 1)])))
      as Hbody.
    { rewrite gbind_unfold. unfold in_world, randint.
      destruct (Z.ltb_spec max_address 0) as [?|_]; [lia|]. cbn.
      by rewrite Z.sub_0_r. }
    cbn [for_each length]. rewrite (gbind_ok _ _ _ _ _ Hbody).
    rewrite IH by done. cbn [world trace_out].
    by rewrite advance_S, draws_S, <- app_assoc.
Qed.

Lemma for_each_pure {A V} (xs : list A) (body : A -> V -> G V) (f : V -> A -> V) :
  forall v g,
  (forall x v, x ∈ xs -> body x v g = (g, Ok (f v x))) ->
  for_each xs body v g = (g, Ok (foldl f v xs)).
Proof.
  induction xs as [|x xs IH]; intros v g Hbody; [done|].
  cbn [for_each foldl]. rewrite gbind_unfold, Hbody by by left.
  apply IH. intros y v' Hy. apply Hbody. by right.
Qed.

Lemma foldl_snoc_fmap {A B} (f : A -> B) (xs : list A) : forall acc,
  foldl (fun acc x => acc ++ [f x]) acc xs = acc ++ (f <$> xs).
Proof.
  induction xs as [|x xs IH]; intros acc; cbn; [by rewrite app_nil_r|].
  by rewrite IH, <- app_assoc.
Qed.

Lemma foldl_append_const {A B} (l : list B) (xs : list A) : forall acc,
  foldl (fun acc _ => acc ++ l) acc xs = acc ++ concat (replicate (length xs) l).
Proof.
  induction xs as [|x xs IH]; intros acc; cbn; [by rewrite app_nil_r|].
  by rewrite IH, <- app_assoc.
Qed.

Lemma length_range n : length (range n) = Z.to_nat n.
Proof. apply length_seqZ. Qed.

Lemma elem_of_range i n : i ∈ range n <-> 0 <= i < n.
Proof. unfold range. rewrite elem_of_seqZ. lia. Qed.

(** In [looping] the modulo changes no address. *)
Lemma looping_modulo_idle i loop_size stride :
  stride <> 0 -> 0 <= i < loop_size ->
  pymod (i * stride) (loop_size * stride) = Ok (i * stride).
Proof.
  intros Hstride Hi. unfold pymod.
  destruct (Z.eqb_spec (loop_size * stride) 0) as [Hz|Hnz]; [nia|].
  f_equal. apply Z.mod_small_iff; [done|]. nia.
Qed.

Lemma looping_ok self loop_size loops stride g :
  stride <> 0 ->
  TraceGenerator.looping self loop_size loops stride g =
    (mkGenWorld (world g) (trace_out g ++ [LoopingLine loops loop_size]),
     Ok (TraceGenerator.mk (TraceGenerator.generated_traces self + 1),
         concat (replicate (Z.to_nat loops) (sweep loop_size stride)))).
Proof.
  intros Hstride.
  unfold TraceGenerator.looping. rewrite gbind_unfold. cbn [say].
  rewrite gbind_unfold.
  rewrite (for_each_pure (range loops) _
             (fun acc _ => acc ++ sweep loop_size stride)).
  - by rewrite foldl_append_const, length_range.
  - intros loop trace _.
    rewrite (for_each_pure (range loop_size) _
               (fun acc i => acc ++ [i * stride])).
    + by rewrite foldl_snoc_fmap.
    + intros i acc Hi. apply elem_of_range in Hi.
      rewrite gbind_unfold. unfold in_world.
      by rewrite lift_unfold, looping_modulo_idle.
Qed.

(** X22. [looping] returns [loops] repetitions of one and the same sweep
    [0, stride, ..., (loop_size - 1) * stride], which is the trace
    [sequential(0, loop_size, stride)] returns: with a stride other than 0
    the modulo in its body changes no address.  It prints one line and
    counts one generated trace. *)
Theorem looping_repeats_one_sweep self loop_size loops stride g :
  stride <> 0 ->
  TraceGenerator.looping self loop_size loops stride g =
    (mkGenWorld (world g) (trace_out g ++ [LoopingLine loops loop_size]),
     Ok (TraceGenerator.mk (TraceGenerator.generated_traces self + 1),
         concat (replicate (Z.to_nat loops) (sweep loop_size stride)))) /\
  snd (TraceGenerator.sequential self 0 loop_size stride g) =
    Ok (TraceGenerator.mk (TraceGenerator.generated_traces self + 1),
        sweep loop_size stride).
Proof.
  intros Hstride. split; [by apply looping_ok|reflexivity].
Qed.

(** X23. With stride 0, at least one loop and a loop of at least one
    access, [looping] raises [ZeroDivisionError], having printed its line;
    no trace is counted. *)
Theorem looping_zero_stride_raises self loop_size loops g :
  0 < loops -> 0 < loop_size ->
  TraceGenerator.looping self loop_size loops 0 g =
    (mkGenWorld (world g) (trace_out g ++ [LoopingLine loops loop_size]),
     Raise ZeroDivisionError).
Proof.
  intros Hloops Hsize. unfold TraceGenerator.looping, range.
  rewrite gbind_unfold. cbn [say]. rewrite gbind_unfold.
  rewrite (seqZ_cons 0 loops) by done. cbn [for_each]. rewrite gbind_unfold.
  rewrite (seqZ_cons 0 loop_size) by done. cbn [for_each]. rewrite gbind_unfold.
  rewrite gbind_unfold. unfold in_world. rewrite lift_unfold. cbn [fst snd].
  unfold pymod. by rewrite Z.mul_0_r.
Qed.

Lemma random_ok self max_address count g :
  0 <= max_address ->
  TraceGenerator.random self max_address count g =
    (mkGenWorld (advance (Z.to_nat count) (world g))
       (trace_out g ++ [RandomLine count max_address]),
     Ok (TraceGenerator.mk (TraceGenerator.generated_traces self + 1),
         draws (world g) max_address (Z.to_nat count))).
Proof.
  intros Hmax.
  unfold TraceGenerator.random, TraceGenerator.randints.
  rewrite gbind_unfold. cbn [say]. rewrite gbind_unfold.
  rewrite randints_loop by done. cbn [world trace_out].
  by rewrite length_range.
Qed.

Lemma random_raises self max_address count g :
  max_address < 0 -> 0 < count ->
  snd (TraceGenerator.random self max_address count g) = Raise ValueError.
Proof.
  intros Hmax Hcount.
  unfold TraceGenerator.random, TraceGenerator.randints, range.
  rewrite gbind_unfold. cbn [say]. rewrite gbind_unfold.
  rewrite (seqZ_cons 0 count) by done. cbn [for_each].
  rewrite gbind_unfold, gbind_unfold. unfold in_world, randint.
  by destruct (Z.ltb_spec max_address 0) as [_|?]; [|lia].
Qed.

Lemma random_empty self max_address count g :
  count <= 0 ->
  snd (TraceGenerator.random self max_address count g) =
    Ok (TraceGenerator.mk (TraceGenerator.generated_traces self + 1), []).
Proof.
  intros Hcount.
  unfold TraceGenerator.random, TraceGenerator.randints, range.
  rewrite gbind_unfold. cbn [say]. rewrite gbind_unfold.
  by rewrite seqZ_nil.
Qed.

(** X24. [random] returns [count] addresses, each in
    [0 .. max_address]: the next [count] numbers of the generator, reduced
    to that range.  It prints one line and counts one generated trace; with
    a negative [max_address] and a positive [count] it raises
    [ValueError]. *)
Theorem random_trace_in_range self max_address count g :
  (0 <= max_address ->
   TraceGenerator.random self max_address count g =
     (mkGenWorld (advance (Z.to_nat count) (world g))
        (trace_out g ++ [RandomLine count max_address]),
      Ok (TraceGenerator.mk (TraceGenerator.generated_traces self + 1),
          draws (world g) max_address (Z.to_nat count))) /\
   length (draws (world g) max_address (Z.to_nat count)) = Z.to_nat count /\
   Forall (fun x => 0 <= x <= max_address)
     (draws (world g) max_address (Z.to_nat count))) /\
  (max_address < 0 -> 0 < count ->
   snd (TraceGenerator.random self max_address count g) = Raise ValueError).
Proof.
  split.
  - intros Hmax. split; [by apply random_ok|].
    split; [apply length_draws|by apply draws_in_range].
  - apply random_raises.
Qed.

(** X25. A generator constructed with a seed produces the same random
    trace whatever the state of the random module was before: the trace is
    determined by the seed, [max_address] and [count]. *)
Theorem seed_reproducible {Seed : PySeed} seed max_address count g1 g2 :
  snd ((self ← TraceGenerator.__init__ seed;
        TraceGenerator.random self max_address count) g1) =
  snd ((self ← TraceGenerator.__init__ seed;
        TraceGenerator.random self max_address count) g2).
Proof.
  assert (forall g,
    (self ← TraceGenerator.__init__ seed;
     TraceGenerator.random self max_address count) g =
    TraceGenerator.random (TraceGenerator.mk 0) max_address count
      (mkGenWorld (mkWorld (dicts (world g)) (stdout (world g)) (seeded seed) 0)
         (trace_out g))) as Hinit by done.
  rewrite !Hinit.
  destruct (Z.le_gt_cases 0 max_address) as [Hmax|Hmax].
  - by rewrite !random_ok.
  - destruct (Z.le_gt_cases count 0) as [Hcount|Hcount].
    + by rewrite !random_empty.
    + by rewrite !random_raises.
Qed.

(** ** Shuffling *)

Lemma insert_perm {A} (l : list A) i x y :
  l !! i = Some x -> x :: <[i := y]> l ≡ₚ y :: l.
Proof.
  intros Hi.
  rewrite <- (take_drop_middle l i x Hi) at 2.
  rewrite insert_take_drop by (by eapply lookup_lt_Some).
  rewrite !Permutation_middle. apply Permutation_app_head, perm_swap.
Qed.

Lemma list_swap_perm {A} (x : list A) (i j : Z) :
  0 <= j -> j <= i -> i < len x ->
  exists x', list_swap x i j = Ok x' /\ x' ≡ₚ x /\ length x' = length x.
Proof.
  intros Hj Hji Hi. unfold list_swap.
  destruct (list_getitem_in_range x j) as (xj & Hxj & ->); [lia|].
  destruct (list_getitem_in_range x i) as (xi & Hxi & ->); [lia|].
  rewrite list_setitem_in_range by lia.
  rewrite list_setitem_in_range by (unfold len in *; rewrite length_insert; lia).
  eexists. split; [reflexivity|]. split; [|by rewrite !length_insert].
  destruct (decide (Z.to_nat i = Z.to_nat j)) as [Heq|Hne].
  - rewrite Heq in *. rewrite list_insert_insert_eq.
    replace xi with xj by congruence. by rewrite list_insert_id.
  - apply (Permutation_cons_inv (a := xj)).
    rewrite insert_perm by by rewrite list_lookup_insert_ne.
    by rewrite insert_perm.
Qed.

Lemma shuffle_from_perm {A} i : forall (x : list A) w,
  (i < length x)%nat ->
  exists x', shuffle_from i x w = (advance i w, Ok x') /\ x' ≡ₚ x.
Proof.
  induction i as [|i IH]; intros x w Hi.
  - exists x. by rewrite advance_0.
  - cbn [shuffle_from]. unfold randbelow at 1. rewrite bind_unfold.
    pose proof (Z.mod_pos_bound (entropy w (drawn w)) (Z.of_nat (S i) + 1)
                  ltac:(lia)) as Hj.
    destruct (list_swap_perm x (Z.of_nat (S i))
                (entropy w (drawn w) mod (Z.of_nat (S i) + 1)))
      as (x1 & Hswap & Hperm & Hlen); [lia|lia|unfold len; lia|].
    rewrite bind_unfold, lift_unfold, Hswap.
    destruct (IH x1 (set_drawn S w)) as (x' & Hrest & Hperm'); [lia|].
    exists x'. rewrite Hrest, advance_S. split; [done|]. by rewrite Hperm'.
Qed.

Lemma shuffle_perm {A} (x : list A) w :
  exists x', shuffle x w = (advance (length x - 1) w, Ok x') /\ x' ≡ₚ x.
Proof.
  destruct x as [|a x]; [exists []; by rewrite advance_0|].
  apply shuffle_from_perm. cbn. lia.
Qed.

Lemma length_concat_replicate {A} n (l : list A) :
  length (concat (replicate n l)) = (n * length l)%nat.
Proof. induction n as [|n IH]; [done|]. cbn. rewrite length_app, IH. lia. Qed.

Lemma length_sweep loop_size stride : length (sweep loop_size stride) = Z.to_nat loop_size.
Proof. unfold sweep. by rewrite length_fmap, length_range. Qed.

(** X26. For a count of at least 0, [mixed] returns a permutation of a
    sequential sweep of [count // 3] addresses, [count // 3] random
    addresses of [0 .. 5000] and [count // 150] sweeps of 50 addresses; it
    prints three lines and counts three generated traces.  The trace has
    [2 * (count // 3) + 50 * (count // 150)] addresses, which is never more
    than [count], so that the final slice removes nothing, and is [count]
    only when [count] is a multiple of 150. *)
Theorem mixed_trace_composition self count g :
  0 <= count ->
  exists g' self' trace rand,
    TraceGenerator.mixed self count g = (g', Ok (self', trace)) /\
    TraceGenerator.generated_traces self'
      = TraceGenerator.generated_traces self + 3 /\
    trace_out g' = trace_out g ++
      [MixedLine count; SequentialLine (count / 3) 4;
       LoopingLine (count / 150) 50] /\
    length rand = Z.to_nat (count / 3) /\
    Forall (fun x => 0 <= x <= 5000) rand /\
    trace ≡ₚ sweep (count / 3) 4 ++ rand
             ++ concat (replicate (Z.to_nat (count / 150)) (sweep 50 4)) /\
    len trace = 2 * (count / 3) + 50 * (count / 150) /\
    len trace <= count /\
    (len trace = count <-> count mod 150 = 0).
Proof.
  intros Hcount. unfold TraceGenerator.mixed.
  rewrite gbind_unfold. cbn [say].
  rewrite gbind_unfold.
  unfold TraceGenerator.sequential at 1. rewrite gbind_unfold. cbn [say].
  cbn [mret G_ret]. cbn beta iota.
  rewrite gbind_unfold. unfold TraceGenerator.randints.
  rewrite randints_loop by lia. cbn [world trace_out]. rewrite length_range.
  rewrite gbind_unfold, looping_ok by done. cbn [world trace_out].
  cbn beta iota. rewrite gbind_unfold. unfold in_world. cbn [world trace_out].
  set (rand := draws (world g) 5000 (Z.to_nat (count / 3))).
  set (parts := ((fun i => 0 + i * 4) <$> range (count / 3)) ++ ([] ++ rand)
                ++ concat (replicate (Z.to_nat (count / 150)) (sweep 50 4))).
  destruct (shuffle_perm parts (advance (Z.to_nat (count / 3)) (world g)))
    as (trace & Hshuffle & Hperm).
  rewrite Hshuffle. cbn [fst snd].
  assert (length parts = Z.to_nat (2 * (count / 3) + 50 * (count / 150))) as Hlen.
  { unfold parts. rewrite !length_app, length_fmap, length_range.
    cbn [length]. unfold rand.
    rewrite length_draws, length_concat_replicate, length_sweep.
    pose proof (Z.div_pos count 3). pose proof (Z.div_pos count 150). lia. }
  assert (2 * (count / 3) + 50 * (count / 150) <= count /\
          (2 * (count / 3) + 50 * (count / 150) = count <-> count mod 150 = 0))
    as [Hle Hiff].
  { Z.to_euclidean_division_equations. lia. }
  assert (0 <= 2 * (count / 3) + 50 * (count / 150)) as Hnn.
  { pose proof (Z.div_pos count 3). pose proof (Z.div_pos count 150). lia. }
  assert (length trace = length parts) as Hlen' by by rewrite Hperm.
  assert (slice_to trace count = trace) as Hslice.
  { unfold slice_to. destruct (Z.leb_spec 0 count); [|lia].
    apply take_ge. lia. }
  rewrite Hslice.
  eexists _, _, trace, rand. split; [reflexivity|].
  cbn [TraceGenerator.generated_traces trace_out].
  split; [lia|]. split; [by rewrite <- !app_assoc|].
  split; [apply length_draws|]. split; [apply draws_in_range; lia|].
  split; [exact Hperm|].
  unfold len. rewrite Hlen', Hlen, Z2Nat.id by done. done.
Qed.

(** ** A sequential scan through a cache *)

Lemma scan_block m step k i :
  0 < step -> 0 < k ->
  (m * (step * k) + i * step) / (step * k) = m + i / k.
Proof.
  intros Hstep Hk. rewrite Z.div_add_l by lia. f_equal.
  rewrite (Z.mul_comm step k). apply Z.div_mul_cancel_r; lia.
Qed.

Lemma div_pred_same i k : 0 < k -> 0 <= i -> (i + 1) mod k <> 0 -> i / k = (i + 1) / k.
Proof.
  intros Hk Hi Hmod. symmetry.
  apply (Z.div_unique_pos i k ((i + 1) / k) ((i + 1) mod k - 1)).
  - pose proof (Z.mod_pos_bound (i + 1) k Hk). lia.
  - pose proof (Z.div_mod (i + 1) k). lia.
Qed.

Lemma div_lt_multiple j i k : 0 < k -> 0 <= j < i -> i mod k = 0 -> j / k <> i / k.
Proof.
  intros Hk Hj Hmod.
  pose proof (Z.div_mod i k). 
  assert (j / k < i / k); [|lia].
  apply Z.div_lt_upper_bound; lia.
Qed.

(** X27. The trace [sequential] returns, run through a freshly built
    cache: with a block size of [k] steps and a start at a block boundary,
    every [k]-th access, from the first on, misses and all others hit,
    whatever the policy, the size and the associativity of the cache. *)
Theorem sequential_scan_hit_pattern {R : PyRuntime}
    kb step k assoc name self m count g w :
  valid_config kb (step * k) assoc -> 1 <= assoc -> 0 < step -> 0 < k ->
  exists g' self' trace w1 cache w2 cache' results,
    TraceGenerator.sequential self (m * (step * k)) count step g
      = (g', Ok (self', trace)) /\
    build kb (step * k) assoc name w = (w1, Ok cache) /\
    run cache trace w1 = (w2, Ok (cache', results)) /\
    length results = Z.to_nat count /\
    forall i, (i < Z.to_nat count)%nat ->
      results !! i = Some (if Z.of_nat i mod k =? 0 then "MISS" else "HIT").
Proof.
  intros Hvalid Hassoc Hstep Hk.
  set (trace := (fun i => m * (step * k) + i * step) <$> range count).
  assert (forall i, (i < Z.to_nat count)%nat ->
            trace !! i = Some (m * (step * k) + Z.of_nat i * step)) as Hat.
  { intros i Hi. unfold trace, range.
    rewrite list_lookup_fmap, lookup_seqZ_lt by lia. done. }
  assert (length trace = Z.to_nat count) as Hlen.
  { unfold trace. by rewrite length_fmap, length_range. }
  destruct (build_ok kb (step * k) assoc name w) as (w0 & w1 & Hbuild & Hc).
  { lia. }
  pose proof (valid_config_wf kb (step * k) assoc name w0 Hvalid) as Hwf.
  set (cache := fresh_cache (fresh_config kb (step * k) assoc) name w0) in *.
  destruct (observe_returns cache w1 trace 0 0 0 0 0 0 Hwf Hassoc Hc)
    as (w2 & c' & obs & Hobs & Hrun & Hlen').
  eexists _, _, trace, w1, cache, w2, c', (obs_result <$> obs).
  split.
  { unfold TraceGenerator.sequential. rewrite gbind_unfold. cbn [say].
    reflexivity. }
  split; [done|]. split; [done|].
  split; [by rewrite length_fmap, Hlen', Hlen|].
  intros i Hi.
  destruct (lookup_lt_is_Some_2 obs i) as [o Ho]; [lia|].
  rewrite list_lookup_fmap, Ho. cbn. f_equal.
  destruct (Z.eqb_spec (Z.of_nat i mod k) 0) as [Hmod|Hmod].
  - apply (observe_first_touch cache trace w1 w2 c' obs Hwf) with
      (i := i) (address := m * (step * k) + Z.of_nat i * step); try done.
    + apply Forall_forall. intros blocks Hin.
      apply list_elem_of_lookup_1 in Hin as [j Hj].
      by apply lookup_replicate in Hj as [-> _].
    + by apply Hat.
    + intros j earlier Hj Hearlier. rewrite Hat in Hearlier by lia.
      injection Hearlier as <-.
      change (CacheConfig.block_size_bytes (Cache.config cache)) with (step * k).
      rewrite !scan_block by done.
      pose proof (div_lt_multiple (Z.of_nat j) (Z.of_nat i) k Hk ltac:(lia) Hmod).
      lia.
  - destruct i as [|i]; [by rewrite Z.mod_0_l in Hmod by lia|].
    apply (observe_next_touch cache trace w1 w2 c' obs Hwf Hobs i
             (m * (step * k) + Z.of_nat i * step)
             (m * (step * k) + Z.of_nat (S i) * step) o); try done.
    + apply Hat. lia.
    + by apply Hat.
    + change (CacheConfig.block_size_bytes (Cache.config cache)) with (step * k).
      rewrite !scan_block by done. f_equal.
      replace (Z.of_nat (S i)) with (Z.of_nat i + 1) in * by lia.
      apply div_pred_same; lia.
Qed.

(** * The claims at concrete inputs *)

#[local] Existing Instance exact_runtime.

#[local] Instance exact_upper_law : UpperLaw exact_runtime.
Proof. intros s _. reflexivity. Qed.

#[local] Instance exact_round_law : RoundLaw exact_runtime.
Proof. split; [by intros x y H|reflexivity..]. Qed.

(** ** The runs of the repository's tests *)

(** [test_basic]: a direct-mapped 4KB cache, addresses 0, 64, 0. *)
Example test_basic :
  snd ((cache ← build 4 64 1 "LRU";
        '(_, results) ← run cache [0; 64; 0];
        mret results) world0)
  = Ok ["MISS"; "MISS"; "HIT"].
Proof. vm_compute. reflexivity. Qed.

(** [test_policies]: a 2-way 2KB cache under each policy. *)
Example test_policies :
  Forall (fun policy =>
    snd ((cache ← build 2 64 2 policy;
          '(_, results) ← run cache [0; 64; 128; 0; 64; 256];
          mret results) world0)
    = Ok ["MISS"; "MISS"; "MISS"; "HIT"; "HIT"; "MISS"])
    ["LRU"; "FIFO"; "RANDOM"].
Proof. repeat constructor. Qed.

(** A direct-mapped cache of 64 sets: address 256 is block 4 and goes to
    set 4, which no earlier access touched. *)
Example direct_mapped_trace :
  snd ((cache ← build 4 64 1 "LRU";
        '(cache, results) ← run cache [0; 64; 128; 192; 0; 64; 128; 256];
        mret (results, set_index_of cache 256)) world0)
  = Ok (["MISS"; "MISS"; "MISS"; "MISS"; "HIT"; "HIT"; "HIT"; "MISS"], 4).
Proof. vm_compute. reflexivity. Qed.

(** ** Witnesses *)

Lemma lru_decide_witness :
  policy_counts policy_world lru_instance 0 0 /\
  snd (policy_run (LRUPolicy.access lru_instance) [] [10; 20; 10; 30] 2 policy_world)
  = Ok ([10; 30], ["MISS"; "MISS"; "HIT"; "MISS"]).
Proof.
  assert (policy_counts policy_world lru_instance 0 0) as H by (split; reflexivity).
  split; [exact H|].
  apply (lru_decide lru_instance policy_world 0 0 [] 10 2 H); lia.
Defined.

Lemma fifo_decide_witness :
  policy_counts policy_world fifo_instance 0 0 /\
  snd (policy_run (FIFOPolicy.access fifo_instance) [] [10; 20; 10; 30] 2 policy_world)
  = Ok ([20; 30], ["MISS"; "MISS"; "HIT"; "MISS"]).
Proof.
  assert (policy_counts policy_world fifo_instance 0 0) as H by (split; reflexivity).
  split; [exact H|].
  apply (fifo_decide fifo_instance policy_world 0 0 [] 10 2 H); lia.
Defined.

Lemma config_num_sets_witness :
  valid_config 8 64 2 /\
  exists w' config,
    CacheConfig.__init__ 8 64 2 world0 = (w', Ok config) /\
    CacheConfig.cache_size_bytes config = 8 * 1024 /\
    CacheConfig.num_blocks config = CacheConfig.cache_size_bytes config / 64 /\
    1 <= CacheConfig.num_sets config /\
    (2 = 0 -> CacheConfig.num_sets config = 1) /\
    (2 <> 0 -> CacheConfig.num_sets config = CacheConfig.num_blocks config / 2).
Proof.
  assert (valid_config 8 64 2) as H by (unfold valid_config; vm_compute; intuition discriminate).
  split; [exact H|].
  apply (config_num_sets 8 64 2 world0 H).
Defined.


Lemma address_breakdown_deterministic_witness :
  CacheConfig.block_size_bytes direct_mapped <> 0 /\
  CacheConfig.num_sets direct_mapped <> 0 /\
  CacheConfig.get_address_breakdown direct_mapped 4160 world0 =
    (set_stdout (fun out => out ++ [BreakdownLine 4160 65 1 1]) world0, Ok (1, 1)).
Proof.
  assert (CacheConfig.block_size_bytes direct_mapped <> 0) as H1 by discriminate.
  assert (CacheConfig.num_sets direct_mapped <> 0) as H2 by discriminate.
  split; [exact H1|]. split; [exact H2|].
  apply (address_breakdown_deterministic direct_mapped 4160 world0 H1 H2).
Defined.

Lemma policy_selection_witness :
  exists w' cache,
    Cache.__init__ direct_mapped "fIfO" world0 = (w', Ok cache) /\
    ReplacementPolicy.cls_of (Cache.policy cache) = ReplacementPolicy.FIFO.
Proof.
  destruct (policy_selection (L:=exact_upper_law) direct_mapped "fIfO" world0)
    as (w' & cache & Hinit & _ & Hfifo & _).
  exists w', cache. split; [exact Hinit|]. apply Hfifo. reflexivity.
Defined.

Lemma fully_associative_access_raises_witness :
  valid_config 1 64 0 /\
  exists w1 cache,
    build 1 64 0 "LRU" world0 = (w1, Ok cache) /\
    CacheConfig.num_sets (Cache.config cache) = 1 /\
    snd (Cache.access cache 0 w1) =
      Raise (match ReplacementPolicy.cls_of (Cache.policy cache) with
             | ReplacementPolicy.Random => ValueError
             | _ => IndexError
             end).
Proof.
  assert (valid_config 1 64 0) as H
    by (unfold valid_config; vm_compute; intuition discriminate).
  split; [exact H|].
  apply (fully_associative_access_raises 1 64 "LRU" 0 world0 H).
Defined.

Lemma test_cache_wf : well_formed test_cache.
Proof. apply (bool_decide_unpack _). vm_compute. exact I. Qed.

Lemma test_cache_counts : counts test_world test_cache 0 0 0 0 0 0.
Proof. unfold counts, policy_counts. split_and!; vm_compute; reflexivity. Qed.

Lemma replacements_counter_witness :
  well_formed test_cache /\
  counts test_world test_cache 0 0 0 0 0 0 /\
  1 <= CacheConfig.associativity (Cache.config test_cache) /\
  exists w' c' results obs misses' replacements',
    run test_cache [0; 64; 0; 4096] test_world = (w', Ok (c', results)) /\
    observe test_cache [0; 64; 0; 4096] test_world = (w', Ok (c', obs)) /\
    int_at w' (Cache.stats c') "misses" = Some misses' /\
    int_at w' (Cache.stats c') "replacements" = Some replacements' /\
    replacements' - 0 = (misses' - 0) - count obs_spare_miss obs.
Proof.
  assert (1 <= CacheConfig.associativity (Cache.config test_cache)) as H
    by (vm_compute; discriminate).
  split; [exact test_cache_wf|]. split; [exact test_cache_counts|].
  split; [exact H|].
  destruct (replacements_counter test_cache test_world [0; 64; 0; 4096] 0 0 0 0 0 0
              test_cache_wf test_cache_counts) as [Hruns Hsound].
  destruct (Hruns H) as (w' & c' & results & Hrun).
  destruct (Hsound w' c' results Hrun)
    as (obs & misses' & replacements' & Hobs & _ & Hm & Hr & _ & _ & Heq).
  exists w', c', results, obs, misses', replacements'.
  split; [exact Hrun|]. split; [exact Hobs|]. split; [exact Hm|].
  split; [exact Hr|exact Heq].
Defined.

Lemma sets_invariant_witness :
  valid_config 2 64 2 /\ 1 <= 2 /\
  exists w1 cache w2 cache' results,
    build 2 64 2 "RANDOM" world0 = (w1, Ok cache) /\
    run cache [0; 64; 128; 0; 64; 256] w1 = (w2, Ok (cache', results)) /\
    Forall (fun blocks => len blocks <= 2 /\ NoDup blocks) (Cache.sets cache').
Proof.
  assert (valid_config 2 64 2) as H
    by (unfold valid_config; vm_compute; intuition discriminate).
  assert (1 <= 2) as H' by lia.
  split; [exact H|]. split; [exact H'|].
  apply (sets_invariant 2 64 2 "RANDOM" [0; 64; 128; 0; 64; 256] world0 H H').
Defined.

Lemma stats_snapshot_witness :
  valid_config 4 64 1 /\
  exists w1 cache w2 cache' results hits misses replacements,
    build 4 64 1 "LRU" world0 = (w1, Ok cache) /\
    run cache [0; 64; 0] w1 = (w2, Ok (cache', results)) /\
    hits + misses = 3 /\
    dicts (fst (Cache.get_stats cache' w2)) !! length (dicts w2) =
      Some {[ "accesses" := PyInt 3;
              "hits" := PyInt hits;
              "misses" := PyInt misses;
              "hit_rate" := PyFloat (inject_Z hits / inject_Z 3 * inject_Z 100);
              "replacements" := PyInt replacements;
              "policy" := PyStr (ReplacementPolicy.name (Cache.policy cache')) ]}.
Proof.
  assert (valid_config 4 64 1) as H
    by (unfold valid_config; vm_compute; intuition discriminate).
  split; [exact H|].
  destruct (stats_snapshot (L:=exact_round_law) 4 64 1 "LRU" [0; 64; 0] world0 H)
    as (w1 & cache & Hbuild & Hruns & Hsound).
  destruct (Hruns ltac:(lia)) as (w2 & cache' & results & Hrun).
  destruct (Hsound w2 cache' results Hrun)
    as (hits & misses & replacements & Hstats & _ & _ & Hsum & _).
  exists w1, cache, w2, cache', results, hits, misses, replacements.
  split; [exact Hbuild|]. split; [exact Hrun|]. split; [exact Hsum|].
  rewrite Hstats. apply lookup_alloc_new.
Defined.

(** ** Where the code departs from the specification *)

(** C2. The constructor accepts a negative associativity, a non-positive
    cache size and a negative block size, and a cache built from such
    arguments serves accesses. *)
Lemma config_accepts_invalid :
  snd (CacheConfig.__init__ 8 64 (-1) world0)
    = Ok (CacheConfig.mk 8 64 (-1) 8192 128 (-128)) /\
  snd (CacheConfig.__init__ 0 64 2 world0)
    = Ok (CacheConfig.mk 0 64 2 0 0 0) /\
  snd (CacheConfig.__init__ 8 (-64) 2 world0)
    = Ok (CacheConfig.mk 8 (-64) 2 8192 (-128) (-64)) /\
  snd ((cache ← build (-8) (-64) 2 "LRU";
        '(_, results) ← run cache [0; 64; 0];
        mret results) world0)
    = Ok ["MISS"; "MISS"; "HIT"].
Proof. split_and!; vm_compute; reflexivity. Qed.

(** C5. A call of [get_address_breakdown] writes to the console. *)
Lemma address_breakdown_prints :
  stdout world0 = [] /\
  stdout (fst (CacheConfig.get_address_breakdown direct_mapped 4160 world0))
    = [BreakdownLine 4160 65 1 1].
Proof. split; reflexivity. Qed.

(** C8. The dictionary [get_stats] returns has the key "policy" and no key
    "policy_name". *)
Lemma stats_without_policy_name :
  let '(w, r) :=
    (cache ← build 4 64 1 "LRU";
     '(cache, _) ← run cache [0; 64; 0];
     Cache.get_stats cache) world0 in
  match r with
  | Ok snapshot =>
      val_at w snapshot "policy_name" = None /\
      val_at w snapshot "policy" = Some (PyStr "LRU")
  | Raise _ => False
  end.
Proof. vm_compute. split; reflexivity. Qed.

(** * Further properties at concrete inputs *)

Lemma address_mapping_round_trip_witness :
  0 < CacheConfig.block_size_bytes (Cache.config test_cache) /\
  1 <= CacheConfig.num_sets (Cache.config test_cache) /\
  exists s t,
    Cache._get_set_index test_cache 4160 test_world = (test_world, Ok s) /\
    Cache._get_tag test_cache 4160 test_world = (test_world, Ok t) /\
    t * 64 + s = 65.
Proof.
  assert (0 < CacheConfig.block_size_bytes (Cache.config test_cache)) as H1
    by (vm_compute; reflexivity).
  assert (1 <= CacheConfig.num_sets (Cache.config test_cache)) as H2
    by (vm_compute; discriminate).
  split; [exact H1|]. split; [exact H2|].
  destruct (address_mapping_round_trip test_cache 4160 test_world H1 H2)
    as (s & t & Hs & Ht & _ & Hblock & _).
  exists s, t. split; [exact Hs|]. split; [exact Ht|]. exact Hblock.
Defined.

Lemma same_line_iff_same_block_witness :
  CacheConfig.block_size_bytes (Cache.config test_cache) <> 0 /\
  CacheConfig.num_sets (Cache.config test_cache) <> 0 /\
  snd (Cache._get_set_index test_cache 4160 test_world) =
  snd (Cache._get_set_index test_cache 4200 test_world) /\
  snd (Cache._get_tag test_cache 4160 test_world) =
  snd (Cache._get_tag test_cache 4200 test_world).
Proof.
  assert (CacheConfig.block_size_bytes (Cache.config test_cache) <> 0) as H1
    by (vm_compute; discriminate).
  assert (CacheConfig.num_sets (Cache.config test_cache) <> 0) as H2
    by (vm_compute; discriminate).
  split; [exact H1|]. split; [exact H2|].
  apply (same_line_iff_same_block test_cache 4160 4200 test_world H1 H2).
  vm_compute. reflexivity.
Defined.

Lemma oversized_associativity_raises_witness :
  64 <> 0 /\ 32 <> 0 /\ 1 * 1024 / 64 / 32 = 0 /\
  exists w1 cache w2,
    build 1 64 32 "LRU" world0 = (w1, Ok cache) /\
    Cache.sets cache = [] /\
    Cache.access cache 0 w1 = (w2, Raise ZeroDivisionError) /\
    int_at w2 (Cache.stats cache) "accesses" = Some 1 /\
    int_at w2 (Cache.stats cache) "hits" = Some 0 /\
    int_at w2 (Cache.stats cache) "misses" = Some 0.
Proof.
  assert (64 <> 0) as H1 by discriminate.
  assert (32 <> 0) as H2 by discriminate.
  assert (1 * 1024 / 64 / 32 = 0) as H3 by reflexivity.
  split; [exact H1|]. split; [exact H2|]. split; [exact H3|].
  apply (oversized_associativity_raises 1 64 32 "LRU" 0 world0 H1 H2 H3).
Defined.

Lemma negative_sets_access_raises_witness :
  64 <> 0 /\ -2 <> 0 /\ 1 * 1024 / 64 / -2 < 0 /\
  exists w1 cache w2,
    build 1 64 (-2) "LRU" world0 = (w1, Ok cache) /\
    Cache.sets cache = [] /\
    Cache.access cache 0 w1 = (w2, Raise IndexError) /\
    int_at w2 (Cache.stats cache) "accesses" = Some 1 /\
    int_at w2 (Cache.stats cache) "hits" = Some 0 /\
    int_at w2 (Cache.stats cache) "misses" = Some 0.
Proof.
  assert (64 <> 0) as H1 by discriminate.
  assert (-2 <> 0) as H2 by discriminate.
  assert (1 * 1024 / 64 / -2 < 0) as H3 by reflexivity.
  split; [exact H1|]. split; [exact H2|]. split; [exact H3|].
  apply (negative_sets_access_raises 1 64 (-2) "LRU" 0 world0 H1 H2 H3).
Defined.

Lemma test_cache_ways : 1 <= CacheConfig.associativity (Cache.config test_cache).
Proof. vm_compute. discriminate. Qed.

Lemma access_hit_iff_resident_witness :
  well_formed test_cache /\
  1 <= CacheConfig.associativity (Cache.config test_cache) /\
  counts test_world test_cache 0 0 0 0 0 0 /\
  exists w' c' res,
    Cache.access test_cache 4160 test_world = (w', Ok (c', res)) /\
    (res = "HIT" <-> tag_of test_cache 4160 ∈ target test_cache 4160) /\
    (res = "MISS" <-> tag_of test_cache 4160 ∉ target test_cache 4160) /\
    tag_of test_cache 4160 ∈ target c' 4160.
Proof.
  split; [exact test_cache_wf|]. split; [exact test_cache_ways|].
  split; [exact test_cache_counts|].
  apply (access_hit_iff_resident test_cache test_world 4160 0 0 0 0 0 0
           test_cache_wf test_cache_ways test_cache_counts).
Defined.

Lemma access_touches_one_set_witness :
  well_formed test_cache /\
  1 <= CacheConfig.associativity (Cache.config test_cache) /\
  counts test_world test_cache 0 0 0 0 0 0 /\
  exists w' c' res,
    Cache.access test_cache 4160 test_world = (w', Ok (c', res)) /\
    length (Cache.sets c') = length (Cache.sets test_cache) /\
    Cache.sets c' !! 0%nat = Cache.sets test_cache !! 0%nat.
Proof.
  split; [exact test_cache_wf|]. split; [exact test_cache_ways|].
  split; [exact test_cache_counts|].
  destruct (access_touches_one_set test_cache test_world 4160 0 0 0 0 0 0
              test_cache_wf test_cache_ways test_cache_counts)
    as (w' & c' & res & Hacc & _ & _ & _ & _ & Hlen & Hother).
  exists w', c', res. split; [exact Hacc|]. split; [exact Hlen|].
  apply Hother. vm_compute. discriminate.
Defined.

Lemma access_exchanges_one_tag_witness :
  well_formed test_cache /\
  1 <= CacheConfig.associativity (Cache.config test_cache) /\
  counts test_world test_cache 0 0 0 0 0 0 /\
  exists w' c' res repl,
    Cache.access_locals test_cache 4160 test_world = (w', Ok (c', (res, repl))) /\
    match repl with
    | Some x =>
        res = "MISS" /\ x ∈ target test_cache 4160 /\ x <> tag_of test_cache 4160 /\
        x :: target c' 4160 ≡ₚ tag_of test_cache 4160 :: target test_cache 4160
    | None =>
        if String.eqb res "HIT" then target c' 4160 ≡ₚ target test_cache 4160
        else target c' 4160 ≡ₚ tag_of test_cache 4160 :: target test_cache 4160
    end.
Proof.
  split; [exact test_cache_wf|]. split; [exact test_cache_ways|].
  split; [exact test_cache_counts|].
  apply (access_exchanges_one_tag test_cache test_world 4160 0 0 0 0 0 0
           test_cache_wf test_cache_ways test_cache_counts).
Defined.

Lemma random_evicts_drawn_way_witness :
  policy_counts policy_world random_instance 0 0 /\ [10; 20] <> [] /\
  exists w' d,
    RandomPolicy.access random_instance [10; 20] 30 2 policy_world = (w', Ok d) /\
    exists x, [10; 20] !! 0%nat = Some x /\
              d = (<[0%nat := 30]> [10; 20], ("MISS", Some x)) /\
              drawn w' = S (drawn policy_world).
Proof.
  assert (policy_counts policy_world random_instance 0 0) as H1
    by (split; reflexivity).
  assert ([10; 20] <> @nil Z) as H2 by discriminate.
  split; [exact H1|]. split; [exact H2|].
  apply (random_evicts_drawn_way random_instance [10; 20] 30 2 policy_world 0 0 H1 H2).
Defined.

Lemma valid_2_64_2 : valid_config 2 64 2.
Proof. unfold valid_config. vm_compute. intuition discriminate. Qed.

Lemma occupancy_is_misses_minus_replacements_witness :
  valid_config 2 64 2 /\ 1 <= 2 /\
  exists w1 cache w2 cache' results misses replacements,
    build 2 64 2 "FIFO" world0 = (w1, Ok cache) /\
    run cache [0; 64; 128; 0; 64; 256] w1 = (w2, Ok (cache', results)) /\
    int_at w2 (Cache.stats cache') "misses" = Some misses /\
    int_at w2 (Cache.stats cache') "replacements" = Some replacements /\
    occupancy cache' = misses - replacements /\
    0 <= replacements <= misses.
Proof.
  assert (1 <= 2) as H by lia.
  split; [exact valid_2_64_2|]. split; [exact H|].
  apply (occupancy_is_misses_minus_replacements 2 64 2 "FIFO"
           [0; 64; 128; 0; 64; 256] world0 valid_2_64_2 H).
Defined.

Lemma policy_hit_rate_agrees_witness :
  valid_config 2 64 2 /\ 1 <= 2 /\
  exists w1 cache w2 cache' results hits rate,
    build 2 64 2 "LRU" world0 = (w1, Ok cache) /\
    run cache [0; 64; 0] w1 = (w2, Ok (cache', results)) /\
    int_at w2 (Cache.stats cache') "hits" = Some hits /\
    int_at w2 (ReplacementPolicy.stats (Cache.policy cache')) "hits" = Some hits /\
    ReplacementPolicy.get_hit_rate (Cache.policy cache') w2 = (w2, Ok (PyFloat rate)).
Proof.
  assert (1 <= 2) as H by lia.
  split; [exact valid_2_64_2|]. split; [exact H|].
  destruct (policy_hit_rate_agrees 2 64 2 "LRU" [0; 64; 0] world0 valid_2_64_2 H)
    as (w1 & cache & w2 & cache' & results & hits & rate & w3 & snapshot
        & Hbuild & Hrun & _ & _ & Hh & Hph & Hrate & _).
  exists w1, cache, w2, cache', results, hits, rate.
  split; [exact Hbuild|]. split; [exact Hrun|]. split; [exact Hh|].
  split; [exact Hph|exact Hrate].
Defined.

Lemma access_log_records_witness :
  valid_config 2 64 2 /\ 1 <= 2 /\
  exists w1 cache w2 cache' results,
    build 2 64 2 "LRU" world0 = (w1, Ok cache) /\
    run cache [0; 64; 0] w1 = (w2, Ok (cache', results)) /\
    length (Cache.access_log cache') = 3%nat.
Proof.
  assert (1 <= 2) as H by lia.
  split; [exact valid_2_64_2|]. split; [exact H|].
  destruct (access_log_records 2 64 2 "LRU" [0; 64; 0] world0 valid_2_64_2 H)
    as (w1 & cache & w2 & cache' & results & Hbuild & Hrun & Hlen & _).
  exists w1, cache, w2, cache', results.
  split; [exact Hbuild|]. split; [exact Hrun|]. exact Hlen.
Defined.

Lemma accesses_write_only_their_counters_witness :
  2%nat <> Cache.stats test_cache /\
  2%nat <> ReplacementPolicy.stats (Cache.policy test_cache) /\
  (2 < length (dicts crowded_world))%nat /\
  dicts (fst (run test_cache [0; 64; 0] crowded_world)) !! 2%nat
    = dicts crowded_world !! 2%nat.
Proof.
  assert (2%nat <> Cache.stats test_cache) as H1 by (vm_compute; discriminate).
  assert (2%nat <> ReplacementPolicy.stats (Cache.policy test_cache)) as H2
    by (vm_compute; discriminate).
  assert (2 < length (dicts crowded_world))%nat as H3 by (vm_compute; lia).
  split; [exact H1|]. split; [exact H2|]. split; [exact H3|].
  apply (accesses_write_only_their_counters test_cache [0; 64; 0] crowded_world
           (fst (run test_cache [0; 64; 0] crowded_world))
           (snd (run test_cache [0; 64; 0] crowded_world)) 2%nat
           (surjective_pairing _) H1 H2 H3).
Defined.

Lemma snapshot_outlives_accesses_witness :
  counts test_world test_cache 0 0 0 0 0 0 /\
  exists w1 snapshot,
    Cache.get_stats test_cache test_world = (w1, Ok snapshot) /\
    dicts w1 !! snapshot = Some (stats_dict test_cache 0 0 0 0) /\
    forall w2 res,
      run test_cache [0; 64; 0] w1 = (w2, res) ->
      dicts w2 !! snapshot = Some (stats_dict test_cache 0 0 0 0).
Proof.
  split; [exact test_cache_counts|].
  apply (snapshot_outlives_accesses test_cache test_world 0 0 0 0 0 0 [0; 64; 0]
           test_cache_counts).
Defined.

Lemma debug_mode_prints_each_access_witness :
  well_formed test_cache /\
  1 <= CacheConfig.associativity (Cache.config test_cache) /\
  counts test_world test_cache 0 0 0 0 0 0 /\
  exists w1 c1 w2 c2 results,
    Cache.debug_on test_cache test_world = (w1, Ok c1) /\
    run c1 [0; 64] w1 = (w2, Ok (c2, results)) /\
    Cache.debug_mode c2 = true /\
    stdout w2 = stdout test_world ++
      [DebugOnLine; AccessDebugLine 0 0 0; AccessDebugLine 64 1 0].
Proof.
  split; [exact test_cache_wf|]. split; [exact test_cache_ways|].
  split; [exact test_cache_counts|].
  apply (debug_mode_prints_each_access test_cache test_world [0; 64] true
           0 0 0 0 0 0 test_cache_wf test_cache_ways test_cache_counts).
Defined.

Lemma valid_4_64_1 : valid_config 4 64 1.
Proof. unfold valid_config. vm_compute. intuition discriminate. Qed.

Lemma first_touch_misses_witness :
  valid_config 4 64 1 /\ 1 <= 1 /\
  exists w1 cache w2 cache' results,
    build 4 64 1 "LRU" world0 = (w1, Ok cache) /\
    run cache [0; 64; 0] w1 = (w2, Ok (cache', results)) /\
    results !! 1%nat = Some "MISS".
Proof.
  assert (1 <= 1) as H by lia.
  split; [exact valid_4_64_1|]. split; [exact H|].
  destruct (first_touch_misses 4 64 1 "LRU" [0; 64; 0] world0 valid_4_64_1 H)
    as (w1 & cache & w2 & cache' & results & Hbuild & Hrun & _ & Hfirst).
  exists w1, cache, w2, cache', results.
  split; [exact Hbuild|]. split; [exact Hrun|].
  apply (Hfirst 1%nat 64 eq_refl).
  intros [|[|j]] earlier Hj Hearlier; [|lia|lia].
  injection Hearlier as <-. vm_compute. discriminate.
Defined.

Lemma next_touch_hits_witness :
  well_formed test_cache /\
  1 <= CacheConfig.associativity (Cache.config test_cache) /\
  counts test_world test_cache 0 0 0 0 0 0 /\
  exists w' c' results,
    run test_cache [128; 160] test_world = (w', Ok (c', results)) /\
    results !! 1%nat = Some "HIT".
Proof.
  split; [exact test_cache_wf|]. split; [exact test_cache_ways|].
  split; [exact test_cache_counts|].
  destruct (next_touch_hits test_cache test_world [128; 160] 0 0 0 0 0 0
              test_cache_wf test_cache_ways test_cache_counts)
    as (w' & c' & results & Hrun & _ & Hnext).
  exists w', c', results. split; [exact Hrun|].
  apply (Hnext 0%nat 128 160 eq_refl eq_refl). vm_compute. reflexivity.
Defined.

Lemma test_cache_empty : Forall (fun blocks => blocks = []) (Cache.sets test_cache).
Proof. apply (bool_decide_unpack _). vm_compute. exact I. Qed.

Lemma fitting_trace_only_misses_first_touches_witness :
  well_formed test_cache /\
  1 <= CacheConfig.associativity (Cache.config test_cache) /\
  counts test_world test_cache 0 0 0 0 0 0 /\
  Forall (fun blocks => blocks = []) (Cache.sets test_cache) /\
  fits test_cache [0; 64; 128; 0; 64; 132] /\
  exists w' c' results,
    run test_cache [0; 64; 128; 0; 64; 132] test_world = (w', Ok (c', results)) /\
    int_at w' (Cache.stats c') "replacements" = Some 0 /\
    results !! 5%nat = Some "HIT".
Proof.
  assert (fits test_cache [0; 64; 128; 0; 64; 132]) as H
    by (apply (bool_decide_unpack _); vm_compute; exact I).
  split; [exact test_cache_wf|]. split; [exact test_cache_ways|].
  split; [exact test_cache_counts|]. split; [exact test_cache_empty|].
  split; [exact H|].
  destruct (fitting_trace_only_misses_first_touches test_cache test_world
              [0; 64; 128; 0; 64; 132] 0 0 0 0 0 0
              test_cache_wf test_cache_ways test_cache_counts test_cache_empty H)
    as (w' & c' & results & Hrun & Hr & Hhit).
  exists w', c', results. split; [exact Hrun|]. split; [exact Hr|].
  apply (Hhit 5%nat 2%nat 132 128 ltac:(lia) eq_refl eq_refl).
  vm_compute. reflexivity.
Defined.

Lemma lru_counts : policy_counts policy_world lru_instance 0 0.
Proof. split; reflexivity. Qed.

Lemma fifo_counts : policy_counts policy_world fifo_instance 0 0.
Proof. split; reflexivity. Qed.

Lemma lru_keeps_most_recent_witness :
  policy_counts policy_world lru_instance 0 0 /\ 1 <= 2 /\
  exists w' results,
    policy_run (LRUPolicy.access lru_instance) [] [10; 20; 10; 30] 2 policy_world =
      (w', Ok (lastn (Z.to_nat 2) (recency [] [10; 20; 10; 30]), results)) /\
    length results = 4%nat.
Proof.
  assert (1 <= 2) as H by lia.
  split; [exact lru_counts|]. split; [exact H|].
  destruct (lru_keeps_most_recent lru_instance [10; 20; 10; 30] 2 policy_world 0 0
              lru_counts H) as (w' & results & Hrun & Hlen & _).
  exists w', results. split; [exact Hrun|exact Hlen].
Defined.

Lemma lru_more_ways_never_hurt_witness :
  policy_counts policy_world lru_instance 0 0 /\ 1 <= 2 /\ 2 <= 3 /\
  exists w1 blocks results w2 blocks' results',
    policy_run (LRUPolicy.access lru_instance) [] [10; 20; 30; 10] 2 policy_world
      = (w1, Ok (blocks, results)) /\
    policy_run (LRUPolicy.access lru_instance) [] [10; 20; 30; 10] 3 policy_world
      = (w2, Ok (blocks', results')) /\
    (forall t, t ∈ blocks -> t ∈ blocks') /\
    (forall i, results !! i = Some "HIT" -> results' !! i = Some "HIT").
Proof.
  assert (1 <= 2) as H by lia.
  assert (2 <= 3) as H' by lia.
  split; [exact lru_counts|]. split; [exact H|]. split; [exact H'|].
  apply (lru_more_ways_never_hurt lru_instance [10; 20; 30; 10] 2 3 policy_world
           0 0 lru_counts H H').
Defined.

Lemma fifo_keeps_last_missed_witness :
  policy_counts policy_world fifo_instance 0 0 /\ 1 <= 2 /\
  exists w' results,
    policy_run (FIFOPolicy.access fifo_instance) [] [10; 20; 10; 30] 2 policy_world =
      (w', Ok (lastn (Z.to_nat 2) (missed [10; 20; 10; 30] results), results)) /\
    length results = length [10; 20; 10; 30].
Proof.
  assert (1 <= 2) as H by lia.
  split; [exact fifo_counts|]. split; [exact H|].
  apply (fifo_keeps_last_missed fifo_instance [10; 20; 10; 30] 2 policy_world 0 0
           fifo_counts H).
Defined.

Lemma direct_mapped_policies_agree_witness :
  policy_counts policy_world random_instance 0 0 /\ len [5] <= 1 /\
  exists w',
    Cache.policy_access random_instance [5] 7 1 policy_world =
      (w', Ok ([7], ("MISS", Some 5))).
Proof.
  assert (policy_counts policy_world random_instance 0 0) as H1
    by (split; reflexivity).
  assert (len [5] <= 1) as H2 by (vm_compute; discriminate).
  split; [exact H1|]. split; [exact H2|].
  apply (direct_mapped_policies_agree random_instance [5] 7 policy_world 0 0 H1 H2).
Defined.

Lemma looping_repeats_one_sweep_witness :
  4 <> 0 /\
  TraceGenerator.looping generator0 3 2 4 gen0 =
    (mkGenWorld world0 [LoopingLine 2 3],
     Ok (TraceGenerator.mk 1, [0; 4; 8; 0; 4; 8])).
Proof.
  assert (4 <> 0) as H by discriminate.
  split; [exact H|].
  apply (looping_repeats_one_sweep generator0 3 2 4 gen0 H).
Defined.

Lemma looping_zero_stride_raises_witness :
  0 < 2 /\ 0 < 3 /\
  TraceGenerator.looping generator0 3 2 0 gen0 =
    (mkGenWorld world0 [LoopingLine 2 3], Raise ZeroDivisionError).
Proof.
  assert (0 < 2) as H1 by reflexivity.
  assert (0 < 3) as H2 by reflexivity.
  split; [exact H1|]. split; [exact H2|].
  apply (looping_zero_stride_raises generator0 3 2 gen0 H1 H2).
Defined.

Lemma mixed_trace_composition_witness :
  0 <= 2000 /\
  exists g' self' trace,
    TraceGenerator.mixed generator0 2000 gen0 = (g', Ok (self', trace)) /\
    TraceGenerator.generated_traces self' = 3 /\
    len trace = 1982.
Proof.
  assert (0 <= 2000) as H by discriminate.
  split; [exact H|].
  destruct (mixed_trace_composition generator0 2000 gen0 H)
    as (g' & self' & trace & rand & Hmixed & Hcount & _ & _ & _ & _ & Hlen & _).
  exists g', self', trace. split; [exact Hmixed|]. split; [exact Hcount|exact Hlen].
Defined.

Lemma valid_4_4x16_1 : valid_config 4 (4 * 16) 1.
Proof. unfold valid_config. vm_compute. intuition discriminate. Qed.

Lemma sequential_scan_hit_pattern_witness :
  valid_config 4 (4 * 16) 1 /\ 1 <= 1 /\ 0 < 4 /\ 0 < 16 /\
  exists g' self' trace w1 cache w2 cache' results,
    TraceGenerator.sequential generator0 0 32 4 gen0 = (g', Ok (self', trace)) /\
    build 4 64 1 "LRU" world0 = (w1, Ok cache) /\
    run cache trace w1 = (w2, Ok (cache', results)) /\
    results !! 0%nat = Some "MISS" /\
    results !! 15%nat = Some "HIT" /\
    results !! 16%nat = Some "MISS".
Proof.
  assert (1 <= 1) as H1 by lia.
  assert (0 < 4) as H2 by reflexivity.
  assert (0 < 16) as H3 by reflexivity.
  split; [exact valid_4_4x16_1|]. split; [exact H1|]. split; [exact H2|].
  split; [exact H3|].
  destruct (sequential_scan_hit_pattern 4 4 16 1 "LRU" generator0 0 32 gen0 world0
              valid_4_4x16_1 H1 H2 H3)
    as (g' & self' & trace & w1 & cache & w2 & cache' & results
        & Hseq & Hbuild & Hrun & _ & Hat).
  exists g', self', trace, w1, cache, w2, cache', results.
  split; [exact Hseq|]. split; [exact Hbuild|]. split; [exact Hrun|].
  split; [apply (Hat 0%nat); vm_compute; lia|].
  split; [apply (Hat 15%nat); vm_compute; lia|].
  apply (Hat 16%nat); vm_compute; lia.
Defined.

(** ** FIFO has the anomaly that LRU has not *)

(** On the sequence 1 2 3 4 1 2 5 1 2 3 4 5 a FIFO set of three ways misses
    nine times and one of four ways ten times. *)
Example fifo_anomaly :
  snd (policy_run (FIFOPolicy.access fifo_instance) []
         [1; 2; 3; 4; 1; 2; 5; 1; 2; 3; 4; 5] 3 policy_world)
  = Ok ([5; 3; 4],
        ["MISS"; "MISS"; "MISS"; "MISS"; "MISS"; "MISS"; "MISS"; "HIT";
         "HIT"; "MISS"; "MISS"; "HIT"]) /\
  snd (policy_run (FIFOPolicy.access fifo_instance) []
         [1; 2; 3; 4; 1; 2; 5; 1; 2; 3; 4; 5] 4 policy_world)
  = Ok ([2; 3; 4; 5],
        ["MISS"; "MISS"; "MISS"; "MISS"; "HIT"; "HIT"; "MISS"; "MISS";
         "MISS"; "MISS"; "MISS"; "MISS"]).
Proof. split; vm_compute; reflexivity. Qed.
